(** * BusTub storage core: LRU-K replacer, extendible hash table,
      buffer pool manager and B+-tree index

    A shallow embedding of
    - [src/buffer/lru_k_replacer.cpp]                     (module [LRUK]),
    - [src/container/hash/extendible_hash_table.cpp]      (module [EHT]),
    - [src/buffer/buffer_pool_manager_instance.cpp]       (module [BPM]),
    - [src/storage/page/b_plus_tree_leaf_page.cpp],
      [src/storage/page/b_plus_tree_internal_page.cpp] and
      [src/storage/index/b_plus_tree.cpp]                 (module [BPT]),
    together with the properties of these components.  Each function keeps
    the name of the C++ member it embeds.  Mutexes and page latches are not
    part of the embedding: it describes one call running to completion. *)

From stdpp Require Import numbers list gmap.

#[local] Set Warnings "-clear-no-such-hyp".

(** * Machine integers and thrown exceptions *)

(** [size_t] is 64 bits wide: increments and decrements wrap around. *)
Definition size_t_inc (n : N) : N := ((n + 1) mod 2 ^ 64)%N.
Definition size_t_dec (n : N) : N := ((n + 2 ^ 64 - 1) mod 2 ^ 64)%N.

(** [static_cast<int>(n)] for a [size_t] [n]: the low 32 bits, read as a
    two's complement number. *)
Definition int_of_size_t (n : N) : Z :=
  let m := (Z.of_N n mod 2 ^ 32)%Z in
  if (m <? 2 ^ 31)%Z then m else (m - 2 ^ 32)%Z.

(** A call either returns or throws [std::exception]. *)
Inductive outcome (A : Type) : Type :=
  | Ok (a : A)
  | Throw.
Arguments Ok {A} a.
Arguments Throw {A}.

(** * The LRU-K replacer *)

Module LRUK.

(** The members of [LRUKReplacer].  [history_list_] and [cache_list_] are
    [std::list<frame_id_t>] whose front is the most recently inserted frame.
    [history_map_] and [cache_map_] store, for every frame of the
    corresponding list, the iterator of its node; the embedding keeps the
    lists, reads [map.count(f)] as membership in the list and
    [list.erase(map[f])] as the removal of the node that holds [f].
    [access_count_] and [is_evictable_] are read with the value
    [operator[]] gives to an absent key (0 and false). *)
Record t : Type := mk {
  replacer_size_ : N;
  k_ : N;
  curr_size_ : N;
  access_count_ : gmap Z N;
  is_evictable_ : gmap Z bool;
  history_list_ : list Z;
  cache_list_ : list Z
}.

(** [LRUKReplacer::LRUKReplacer(num_frames, k)] *)
Definition init (num_frames k : N) : t :=
  mk num_frames k 0 ∅ ∅ [] [].

Definition count (s : t) (f : Z) : N := default 0%N (access_count_ s !! f).
Definition evictable (s : t) (f : Z) : bool := default false (is_evictable_ s !! f).

(** Removal of the node of [f] from a list. *)
Fixpoint erase (f : Z) (l : list Z) : list Z :=
  match l with
  | [] => []
  | x :: l' => if decide (x = f) then l' else x :: erase f l'
  end.

Definition listed (f : Z) (l : list Z) : bool := bool_decide (f ∈ l).

(** The body shared by the two loops of [Evict], on the frame [f] they
    stopped at. *)
Definition evict_from_history (s : t) (f : Z) : t :=
  mk (replacer_size_ s) (k_ s) (size_t_dec (curr_size_ s))
     (<[f := 0%N]> (access_count_ s)) (<[f := false]> (is_evictable_ s))
     (erase f (history_list_ s)) (cache_list_ s).

Definition evict_from_cache (s : t) (f : Z) : t :=
  mk (replacer_size_ s) (k_ s) (size_t_dec (curr_size_ s))
     (<[f := 0%N]> (access_count_ s)) (<[f := false]> (is_evictable_ s))
     (history_list_ s) (erase f (cache_list_ s)).

(** [LRUKReplacer::Evict]: [None] is the [false] return (nothing is
    written), [Some (f, s')] the [true] return with [*frame_id = f].  The
    reverse iteration visits the lists from their back. *)
Definition Evict (s : t) : option (Z * t) :=
  if (curr_size_ s =? 0)%N then None
  else
    match List.find (evictable s) (rev (history_list_ s)) with
    | Some f => Some (f, evict_from_history s f)
    | None =>
        match List.find (evictable s) (rev (cache_list_ s)) with
        | Some f => Some (f, evict_from_cache s f)
        | None => None
        end
    end.

(** [LRUKReplacer::RecordAccess] *)
Definition RecordAccess (s : t) (frame_id : Z) : outcome t :=
  if (frame_id >? int_of_size_t (replacer_size_ s))%Z then Throw
  else
    let c := size_t_inc (count s frame_id) in
    let ac := <[frame_id := c]> (access_count_ s) in
    if (c =? k_ s)%N then
      let h := if listed frame_id (history_list_ s)
               then erase frame_id (history_list_ s) else history_list_ s in
      Ok (mk (replacer_size_ s) (k_ s) (curr_size_ s) ac (is_evictable_ s)
             h (frame_id :: cache_list_ s))
    else if (k_ s <? c)%N then
      let cl := if listed frame_id (cache_list_ s)
                then erase frame_id (cache_list_ s) else cache_list_ s in
      Ok (mk (replacer_size_ s) (k_ s) (curr_size_ s) ac (is_evictable_ s)
             (history_list_ s) (frame_id :: cl))
    else
      if negb (listed frame_id (history_list_ s)) then
        Ok (mk (replacer_size_ s) (k_ s) (curr_size_ s) ac (is_evictable_ s)
               (frame_id :: history_list_ s) (cache_list_ s))
      else
        Ok (mk (replacer_size_ s) (k_ s) (curr_size_ s) ac (is_evictable_ s)
               (history_list_ s) (cache_list_ s)).

(** [LRUKReplacer::SetEvictable] *)
Definition SetEvictable (s : t) (frame_id : Z) (set_evictable : bool) : outcome t :=
  if (frame_id >? int_of_size_t (replacer_size_ s))%Z then Throw
  else if (count s frame_id =? 0)%N then Ok s
  else
    let c1 := if negb (evictable s frame_id) && set_evictable
              then size_t_inc (curr_size_ s) else curr_size_ s in
    let c2 := if evictable s frame_id && negb set_evictable
              then size_t_dec c1 else c1 in
    Ok (mk (replacer_size_ s) (k_ s) c2 (access_count_ s)
           (<[frame_id := set_evictable]> (is_evictable_ s))
           (history_list_ s) (cache_list_ s)).

(** [LRUKReplacer::Remove] *)
Definition Remove (s : t) (frame_id : Z) : outcome t :=
  if (frame_id >? int_of_size_t (replacer_size_ s))%Z then Throw
  else if (count s frame_id =? 0)%N then Ok s
  else
    let '(h, c) :=
      if (k_ s <=? count s frame_id)%N
      then (history_list_ s, erase frame_id (cache_list_ s))
      else (erase frame_id (history_list_ s), cache_list_ s) in
    Ok (mk (replacer_size_ s) (k_ s) (size_t_dec (curr_size_ s))
           (<[frame_id := 0%N]> (access_count_ s))
           (<[frame_id := false]> (is_evictable_ s)) h c).

(** [LRUKReplacer::Size] *)
Definition Size (s : t) : N := curr_size_ s.

(** Sequencing of calls that may throw. *)
Definition bind {A B : Type} (o : outcome A) (f : A → outcome B) : outcome B :=
  match o with
  | Ok a => f a
  | Throw => Throw
  end.

Definition RecordAccesses (s : t) (fs : list Z) : outcome t :=
  foldl (λ o f, bind o (λ s', RecordAccess s' f)) (Ok s) fs.

Definition SetEvictables (s : t) (fs : list Z) (b : bool) : outcome t :=
  foldl (λ o f, bind o (λ s', SetEvictable s' f b)) (Ok s) fs.

(** Scenario S2: K = 2, three frames. *)
Definition scenario_S2 : outcome (option Z) :=
  bind (RecordAccesses (init 3 2) [1; 1; 2; 2; 2; 3]%Z) (λ s,
  bind (SetEvictables s [1; 2; 3]%Z true) (λ s',
  Ok (fst <$> Evict s'))).

(** Scenario S1: K = 2, three frames, one access each. *)
Definition scenario_S1 : outcome (option Z) :=
  bind (RecordAccesses (init 3 2) [1; 2; 3]%Z) (λ s,
  bind (SetEvictables s [1; 2; 3]%Z true) (λ s',
  Ok (fst <$> Evict s'))).

End LRUK.

(** * The extendible hash table *)

Module EHT.

Section table.
Context {K V : Type} `{EqDecision K}.

(** [std::hash<K>()(key)], a [size_t]. *)
Variable hash : K → nat.

(** ** Buckets *)

(** The members of [Bucket]: the capacity [size_], the local depth [depth_]
    and the items [list_], a [std::list] of pairs appended at its back. *)
Record Bucket : Type := mkBucket {
  size_ : nat;
  depth_ : nat;
  list_ : list (K * V)
}.

(** Modelled from the spec: [IsFull], [GetDepth] and [GetItems] are inline
    members of the header [extendible_hash_table.h], which is not among the
    sources.  A bucket "has a local depth, a capacity, and an ordered list of
    key-value pairs"; it is full when the list has reached the capacity. *)
Definition IsFull (b : Bucket) : bool := bool_decide (length (list_ b) = size_ b).
Definition GetDepth (b : Bucket) : nat := depth_ b.
Definition GetItems (b : Bucket) : list (K * V) := list_ b.

(** The first pair of a list whose key is [key]. *)
Fixpoint lookup_items (key : K) (l : list (K * V)) : option V :=
  match l with
  | [] => None
  | (k, v) :: l' => if decide (k = key) then Some v else lookup_items key l'
  end.

(** [list_.erase(it)] for the first pair with key [key]. *)
Fixpoint erase_items (key : K) (l : list (K * V)) : list (K * V) :=
  match l with
  | [] => []
  | (k, v) :: l' => if decide (k = key) then l' else (k, v) :: erase_items key l'
  end.

(** [it.second = value] for the first pair with key [key]. *)
Fixpoint assign_items (key : K) (value : V) (l : list (K * V)) : list (K * V) :=
  match l with
  | [] => []
  | (k, v) :: l' =>
      if decide (k = key) then (k, value) :: l'
      else (k, v) :: assign_items key value l'
  end.

(** [Bucket::Find]: [None] is the [false] return. *)
Definition Bucket_Find (b : Bucket) (key : K) : option V :=
  lookup_items key (list_ b).

(** [Bucket::Remove] *)
Definition Bucket_Remove (b : Bucket) (key : K) : bool * Bucket :=
  match list_ b with
  | [] => (false, b)
  | _ =>
      match lookup_items key (list_ b) with
      | None => (false, b)
      | Some _ => (true, mkBucket (size_ b) (depth_ b) (erase_items key (list_ b)))
      end
  end.

(** [Bucket::Insert] *)
Definition Bucket_Insert (b : Bucket) (key : K) (value : V) : bool * Bucket :=
  if IsFull b then (false, b)
  else
    match lookup_items key (list_ b) with
    | Some _ => (false, b)
    | None => (true, mkBucket (size_ b) (depth_ b) (list_ b ++ [(key, value)]))
    end.

(** ** The table *)

(** The members of [ExtendibleHashTable].  The directory [dir_] is a vector
    of [std::shared_ptr<Bucket>]: several slots may hold the same pointer, and
    the split compares pointers.  The embedding keeps the buckets in a store
    [heap_]; a pointer is the position of its bucket in the store, [None] is
    the null pointer, and [std::make_shared] appends to the store.  A bucket
    that no slot points to any more stays in the store.  The depths are C++
    [int]s; the embedding computes with natural numbers, which agrees with
    the source as long as the shifts [1 << depth] do not overflow. *)
Record t : Type := mk {
  bucket_size_ : nat;
  global_depth_ : nat;
  num_buckets_ : nat;
  dir_ : list (option nat);
  heap_ : list Bucket
}.

(** [ExtendibleHashTable::ExtendibleHashTable(bucket_size)].  Modelled from
    the spec: the initial values of [global_depth_] and [num_buckets_] are
    given in the absent header; the global depth "starts at 0" and the table
    starts with its one bucket. *)
Definition init (bucket_size : nat) : t :=
  mk bucket_size 0 1 [Some 0] [mkBucket bucket_size 0 []].

(** [IndexOf].  The source has the mask in an [int]; the embedding has
    natural numbers and agrees with the source while the global depth is at
    most 30. *)
Definition IndexOf (s : t) (key : K) : nat :=
  let mask := Nat.shiftl 1 (global_depth_ s) - 1 in
  Nat.land (hash key) mask.

(** [dir_[i]] and the bucket it points to; [None] when the access is out of
    range or the pointer is null or dangling (undefined behaviour in C++). *)
Definition bucket_ref (s : t) (i : nat) : option nat := mjoin (dir_ s !! i).

Definition bucket_at (s : t) (i : nat) : option (nat * Bucket) :=
  r ← bucket_ref s i; b ← heap_ s !! r; Some (r, b).

Definition GetGlobalDepth (s : t) : nat := global_depth_ s.
Definition GetLocalDepth (s : t) (dir_index : nat) : option nat :=
  '(_, b) ← bucket_at s dir_index; Some (GetDepth b).
Definition GetNumBuckets (s : t) : nat := num_buckets_ s.

(** [Find]: the inner option is the [bool] result together with [value]. *)
Definition Find (s : t) (key : K) : option (option V) :=
  '(_, b) ← bucket_at s (IndexOf s key); Some (Bucket_Find b key).

(** [Remove] *)
Definition Remove (s : t) (key : K) : option (bool * t) :=
  '(r, b) ← bucket_at s (IndexOf s key);
  let '(res, b') := Bucket_Remove b key in
  Some (res, mk (bucket_size_ s) (global_depth_ s) (num_buckets_ s) (dir_ s)
                (<[r := b']> (heap_ s))).

(** The doubling of the directory in [Insert]: [resize] appends [capacity]
    null pointers, then the loop assigns the slots [capacity + inx]. *)
Definition double_dir (dir : list (option nat)) : list (option nat) :=
  let capacity := length dir in
  let resized := dir ++ replicate (Nat.shiftl capacity 1 - capacity) None in
  foldl (λ d inx, <[capacity + inx := d !!! inx]> d) resized (seq 0 capacity).

(** The distribution of the items of the split bucket over [bucket_0] and
    [bucket_1]. *)
Definition distribute (mask : nat) (items : list (K * V)) (b0 b1 : Bucket)
    : Bucket * Bucket :=
  foldl (λ '(b0, b1) '(k, v),
           if decide (Nat.land (hash k) mask ≠ 0)
           then (b0, snd (Bucket_Insert b1 k v))
           else (snd (Bucket_Insert b0 k v), b1))
        (b0, b1) items.

(** The last loop of the split: every slot that holds the pointer [target]
    is redirected. *)
Definition redirect (mask : nat) (target r0 r1 : nat) (dir : list (option nat))
    : list (option nat) :=
  imap (λ i p, if decide (p = Some target)
               then (if decide (Nat.land i mask ≠ 0) then Some r1 else Some r0)
               else p) dir.

(** One iteration of the [while] loop of [Insert], entered with a full
    bucket at [dir_[IndexOf(key)]].  The source has [capacity] and [mask] in
    an [int]; the embedding has natural numbers and agrees with the source
    as long as the directory that is doubled has fewer than [2 ^ 30] slots:
    beyond, [capacity << 1] overflows, and the embedding says nothing of the
    source. *)
Definition split (s : t) (key : K) : option t :=
  '(target, target_bucket) ← bucket_at s (IndexOf s key);
  let bucket_localdepth := GetDepth target_bucket in
  let '(dir1, gd1) :=
    if decide (global_depth_ s = GetDepth target_bucket)
    then (double_dir (dir_ s), global_depth_ s + 1)
    else (dir_ s, global_depth_ s) in
  let mask := Nat.shiftl 1 bucket_localdepth in
  let r0 := length (heap_ s) in
  let r1 := S (length (heap_ s)) in
  let '(bucket_0, bucket_1) :=
    distribute mask (GetItems target_bucket)
      (mkBucket (bucket_size_ s) (bucket_localdepth + 1) [])
      (mkBucket (bucket_size_ s) (bucket_localdepth + 1) []) in
  let nb :=
    if bool_decide (GetItems bucket_1 ≠ []) && bool_decide (GetItems bucket_0 ≠ [])
    then num_buckets_ s + 1 else num_buckets_ s in
  Some (mk (bucket_size_ s) gd1 nb (redirect mask target r0 r1 dir1)
           (heap_ s ++ [bucket_0; bucket_1])).

(** The part of [Insert] after the loop, entered with a bucket that is not
    full. *)
Definition store (s : t) (key : K) (value : V) : option t :=
  '(r, target_bucket) ← bucket_at s (IndexOf s key);
  let b' :=
    match lookup_items key (GetItems target_bucket) with
    | Some _ => mkBucket (size_ target_bucket) (depth_ target_bucket)
                         (assign_items key value (list_ target_bucket))
    | None => snd (Bucket_Insert target_bucket key value)
    end in
  Some (mk (bucket_size_ s) (global_depth_ s) (num_buckets_ s) (dir_ s)
           (<[r := b']> (heap_ s))).

(** [Insert].  The [while] loop runs as long as the bucket of the key is
    full; [fuel] bounds the number of its iterations, and the result is
    [None] when the bound is reached (or an access is undefined). *)
Fixpoint Insert (fuel : nat) (s : t) (key : K) (value : V) : option t :=
  '(_, b) ← bucket_at s (IndexOf s key);
  if IsFull b then
    match fuel with
    | 0 => None
    | S fuel' => s' ← split s key; Insert fuel' s' key value
    end
  else store s key value.

(** ** Sequences of operations *)

Inductive op : Type :=
  | OpInsert (key : K) (value : V)
  | OpFind (key : K)
  | OpRemove (key : K).

Definition exec (fuel : nat) (s : t) (o : op) : option t :=
  match o with
  | OpInsert key value => Insert fuel s key value
  | OpFind key => _ ← Find s key; Some s
  | OpRemove key => snd <$> Remove s key
  end.

Fixpoint run (fuel : nat) (s : t) (ops : list op) : option t :=
  match ops with
  | [] => Some s
  | o :: ops' => s' ← exec fuel s o; run fuel s' ops'
  end.

End table.

Arguments Bucket : clear implicits.
Arguments t : clear implicits.
Arguments op : clear implicits.

(** [std::hash<int>]: the identity, that is, the conversion of the [int] to
    [size_t] (libstdc++ and libc++). *)
Definition hash_int (key : Z) : nat := Z.to_nat (key mod 2 ^ 64).

(** Scenario S4: bucket size 2, keys 1, 5 and 9 (values 10, 50 and 90). *)
Definition scenario_S4 (fuel : nat) : option (t Z Z) :=
  run hash_int fuel (init 2) [OpInsert 1 10; OpInsert 5 50; OpInsert 9 90]%Z.

End EHT.

(** * The buffer pool manager *)

Module BPM.

Definition INVALID_PAGE_ID : Z := (-1)%Z.

(** Modelled from the spec: the page size is a constant of [config.h], which
    is not among the sources; a page is "a fixed-size (typically 4096-byte)
    byte buffer". *)
Definition BUSTUB_PAGE_SIZE : nat := 4096.

Definition page_data : Type := list Byte.byte.

(** [Page::ResetMemory]: the buffer is zeroed. *)
Definition zero_data : page_data := replicate BUSTUB_PAGE_SIZE Byte.x00.

(** The members of [Page] that the pool manager reads and writes. *)
Record Page : Type := mkPage {
  data_ : page_data;
  page_id_ : Z;
  pin_count_ : Z;
  is_dirty_ : bool
}.

(** A default-constructed [Page]. *)
Definition fresh_page : Page := mkPage zero_data INVALID_PAGE_ID 0 false.

#[global] Instance Page_inhabited : Inhabited Page := populate fresh_page.

(** The members of [BufferPoolManagerInstance].  [pages_] is the array of
    frames, indexed by frame id.  [page_table_] is the extendible hash table
    from page ids to frame ids; the pool manager uses it through [Find],
    [Insert] and [Remove] only, and the embedding keeps the finite map that
    the table represents.  [replacer_] is the LRU-K replacer.  [disk_] is
    the content of the block device behind [disk_manager_].
    [next_page_id_] is a 32-bit counter. *)
Record t : Type := mk {
  pool_size_ : nat;
  pages_ : list Page;
  free_list_ : list Z;
  page_table_ : gmap Z Z;
  replacer_ : LRUK.t;
  next_page_id_ : Z;
  disk_ : gmap Z page_data
}.

(** [BufferPoolManagerInstance::BufferPoolManagerInstance] *)
Definition init (pool_size : nat) (replacer_k : N) : t :=
  mk pool_size (replicate pool_size fresh_page)
     (Z.of_nat <$> seq 0 pool_size) ∅
     (LRUK.init (N.of_nat pool_size) replacer_k) 0 ∅.

(** [pages_[frame_id]] and the assignment to it. *)
Definition page_at (s : t) (frame_id : Z) : Page := pages_ s !!! Z.to_nat frame_id.

Definition set_page (s : t) (frame_id : Z) (p : Page) : list Page :=
  <[Z.to_nat frame_id := p]> (pages_ s).

(** Modelled from the spec: the block device is an external collaborator.
    [WritePage(id, buf)] persists the buffer under the id, [ReadPage(id,
    buf)] copies the block of the id into the buffer (zeroes for a block
    that was never written). *)
Definition WritePage (disk : gmap Z page_data) (page_id : Z) (d : page_data)
    : gmap Z page_data := <[page_id := d]> disk.
Definition ReadPage (disk : gmap Z page_data) (page_id : Z) : page_data :=
  default zero_data (disk !! page_id).

(** The increment of the 32-bit counter [next_page_id_]. *)
Definition int32_inc (n : Z) : Z :=
  if (n =? 2 ^ 31 - 1)%Z then (- 2 ^ 31)%Z else (n + 1)%Z.

(** The scan over [pages_] that opens [NewPgImp] and the miss path of
    [FetchPgImp]: [true] when the loop ends with [i == pool_size_], that is,
    when no frame has pin count 0. *)
Definition all_pinned (s : t) : bool :=
  forallb (λ p, negb (pin_count_ p =? 0)%Z) (pages_ s).

(** The choice of the frame, the same statements in [NewPgImp] and in
    [FetchPgImp]: the back of the free list, or else the frame that the
    replacer evicts, written back when dirty, reset, and its page id removed
    from the page table.  [None] is the [return nullptr]. *)
Definition take_frame (s : t) : option (Z * t) :=
  match last (free_list_ s) with
  | Some frame_id =>
      Some (frame_id,
            mk (pool_size_ s) (pages_ s) (removelast (free_list_ s))
               (page_table_ s) (replacer_ s) (next_page_id_ s) (disk_ s))
  | None =>
      match LRUK.Evict (replacer_ s) with
      | None => None
      | Some (frame_id, replacer') =>
          let p := page_at s frame_id in
          let evict_page_id := page_id_ p in
          let disk' :=
            if is_dirty_ p then WritePage (disk_ s) evict_page_id (data_ p)
            else disk_ s in
          let p' := mkPage zero_data (page_id_ p) (pin_count_ p) false in
          Some (frame_id,
                mk (pool_size_ s) (set_page s frame_id p') (free_list_ s)
                   (delete evict_page_id (page_table_ s)) replacer'
                   (next_page_id_ s) disk')
      end
  end.

(** [RecordAccess(frame_id)] followed by [SetEvictable(frame_id, false)]. *)
Definition touch (r : LRUK.t) (frame_id : Z) : outcome LRUK.t :=
  LRUK.bind (LRUK.RecordAccess r frame_id)
            (λ r1, LRUK.SetEvictable r1 frame_id false).

(** [NewPgImp]: the result is the new page id and the frame of the returned
    page, or [None] for [nullptr]. *)
Definition NewPgImp (s : t) : outcome (option (Z * Z) * t) :=
  if all_pinned s then Ok (None, s)
  else
    match take_frame s with
    | None => Ok (None, s)
    | Some (frame_id, s1) =>
        let page_id := next_page_id_ s1 in
        let table := <[page_id := frame_id]> (page_table_ s1) in
        LRUK.bind (touch (replacer_ s1) frame_id) (λ r,
          let p := page_at s1 frame_id in
          let p' := mkPage (data_ p) page_id 1 (is_dirty_ p) in
          Ok (Some (page_id, frame_id),
              mk (pool_size_ s1) (set_page s1 frame_id p') (free_list_ s1)
                 table r (int32_inc (next_page_id_ s1)) (disk_ s1)))
    end.

(** [FetchPgImp]: the result is the frame of the returned page. *)
Definition FetchPgImp (s : t) (page_id : Z) : outcome (option Z * t) :=
  match page_table_ s !! page_id with
  | Some frame_id =>
      let p := page_at s frame_id in
      let p' := mkPage (data_ p) (page_id_ p) (pin_count_ p + 1) (is_dirty_ p) in
      LRUK.bind (touch (replacer_ s) frame_id) (λ r,
        Ok (Some frame_id,
            mk (pool_size_ s) (set_page s frame_id p') (free_list_ s)
               (page_table_ s) r (next_page_id_ s) (disk_ s)))
  | None =>
      if all_pinned s then Ok (None, s)
      else
        match take_frame s with
        | None => Ok (None, s)
        | Some (frame_id, s1) =>
            let table := <[page_id := frame_id]> (page_table_ s1) in
            let p := page_at s1 frame_id in
            let p' := mkPage (ReadPage (disk_ s1) page_id) page_id 1 (is_dirty_ p) in
            LRUK.bind (touch (replacer_ s1) frame_id) (λ r,
              Ok (Some frame_id,
                  mk (pool_size_ s1) (set_page s1 frame_id p') (free_list_ s1)
                     table r (next_page_id_ s1) (disk_ s1)))
        end
  end.

(** [UnpinPgImp] *)
Definition UnpinPgImp (s : t) (page_id : Z) (is_dirty : bool) : outcome (bool * t) :=
  match page_table_ s !! page_id with
  | None => Ok (false, s)
  | Some frame_id =>
      if (page_id =? INVALID_PAGE_ID)%Z then Ok (false, s)
      else
        let p := page_at s frame_id in
        if (pin_count_ p <=? 0)%Z then Ok (false, s)
        else
          let dirty := if is_dirty then is_dirty else is_dirty_ p in
          let p' := mkPage (data_ p) (page_id_ p) (pin_count_ p - 1) dirty in
          if (pin_count_ p' =? 0)%Z then
            LRUK.bind (LRUK.SetEvictable (replacer_ s) frame_id true) (λ r,
              Ok (true,
                  mk (pool_size_ s) (set_page s frame_id p') (free_list_ s)
                     (page_table_ s) r (next_page_id_ s) (disk_ s)))
          else
            Ok (true,
                mk (pool_size_ s) (set_page s frame_id p') (free_list_ s)
                   (page_table_ s) (replacer_ s) (next_page_id_ s) (disk_ s))
  end.

(** [FlushPgImp] *)
Definition FlushPgImp (s : t) (page_id : Z) : bool * t :=
  match page_table_ s !! page_id with
  | None => (false, s)
  | Some frame_id =>
      if (page_id =? INVALID_PAGE_ID)%Z then (false, s)
      else
        let p := page_at s frame_id in
        let p' := mkPage (data_ p) (page_id_ p) (pin_count_ p) false in
        (true,
         mk (pool_size_ s) (set_page s frame_id p') (free_list_ s)
            (page_table_ s) (replacer_ s) (next_page_id_ s)
            (WritePage (disk_ s) page_id (data_ p)))
  end.

(** [DeletePgImp]; [DeallocatePage] does nothing. *)
Definition DeletePgImp (s : t) (page_id : Z) : outcome (bool * t) :=
  match page_table_ s !! page_id with
  | None => Ok (true, s)
  | Some frame_id =>
      if (page_id =? INVALID_PAGE_ID)%Z then Ok (true, s)
      else
        let p := page_at s frame_id in
        if (0 <? pin_count_ p)%Z then Ok (false, s)
        else
          LRUK.bind (LRUK.Remove (replacer_ s) frame_id) (λ r,
            let p' := mkPage zero_data INVALID_PAGE_ID 0 false in
            Ok (true,
                mk (pool_size_ s) (set_page s frame_id p')
                   (frame_id :: free_list_ s)
                   (delete page_id (page_table_ s)) r (next_page_id_ s) (disk_ s)))
  end.

(** Scenario S3: a pool of two frames (K = 2).  The results of
    [NewPage], [NewPage], [NewPage], [UnpinPage(0, false)], [NewPage],
    [FetchPage(0)]: page ids, or the [bool] of the unpin. *)
Definition scenario_S3 :
    outcome (option Z * option Z * option Z * bool * option Z * option Z) :=
  LRUK.bind (NewPgImp (init 2 2)) (λ '(r1, s1),
  LRUK.bind (NewPgImp s1) (λ '(r2, s2),
  LRUK.bind (NewPgImp s2) (λ '(r3, s3),
  LRUK.bind (UnpinPgImp s3 0 false) (λ '(u, s4),
  LRUK.bind (NewPgImp s4) (λ '(r5, s5),
  LRUK.bind (FetchPgImp s5 0) (λ '(r6, s6),
  Ok (fst <$> r1, fst <$> r2, fst <$> r3, u, fst <$> r5, r6))))))).

End BPM.

(** * The B+-tree index *)

Module BPT.

#[local] Open Scope Z_scope.

Definition INVALID_PAGE_ID : Z := -1.

Inductive IndexPageType := INVALID_INDEX_PAGE | LEAF_PAGE | INTERNAL_PAGE.

(** The operation for which [FindLeafPage] descends. *)
Inductive Operation := READ | INSERT | DELETE.

(** Keys are compared by the comparator of the tree; the embedding takes
    integers as keys, ordered as integers.  The value of an entry is a record
    id in a leaf page and a page id in an internal page: an integer, too. *)
Definition MappingType : Type := Z * Z.

(** ** Tree pages *)

(** Modelled from the spec: the header of a tree page and its accessors
    ([b_plus_tree_page.cpp] and the headers are not among the sources).  The
    header holds the page type, the size, the maximal size, the id of the
    parent page and the id of the page; a leaf page also holds the id of the
    next leaf.  [array_] is the part of the entry array written so far: the
    slots behind it hold the zero bytes of a new page. *)
Record BPlusTreePage := mkNode {
  page_type_ : IndexPageType;
  size_ : Z;
  max_size_ : Z;
  parent_page_id_ : Z;
  page_id_ : Z;
  next_page_id_ : Z;
  array_ : list MappingType
}.

(** The bytes of a page that [NewPage] hands out: all zero. *)
Definition zero_node : BPlusTreePage := mkNode INVALID_INDEX_PAGE 0 0 0 0 0 [].

Definition SetPageType (ty : IndexPageType) (n : BPlusTreePage) : BPlusTreePage :=
  mkNode ty (size_ n) (max_size_ n) (parent_page_id_ n) (page_id_ n)
         (next_page_id_ n) (array_ n).
Definition SetSize (size : Z) (n : BPlusTreePage) : BPlusTreePage :=
  mkNode (page_type_ n) size (max_size_ n) (parent_page_id_ n) (page_id_ n)
         (next_page_id_ n) (array_ n).
Definition IncreaseSize (amount : Z) (n : BPlusTreePage) : BPlusTreePage :=
  SetSize (size_ n + amount) n.
Definition SetMaxSize (size : Z) (n : BPlusTreePage) : BPlusTreePage :=
  mkNode (page_type_ n) (size_ n) size (parent_page_id_ n) (page_id_ n)
         (next_page_id_ n) (array_ n).
Definition SetParentPageId (parent : Z) (n : BPlusTreePage) : BPlusTreePage :=
  mkNode (page_type_ n) (size_ n) (max_size_ n) parent (page_id_ n)
         (next_page_id_ n) (array_ n).
Definition SetPageId (page_id : Z) (n : BPlusTreePage) : BPlusTreePage :=
  mkNode (page_type_ n) (size_ n) (max_size_ n) (parent_page_id_ n) page_id
         (next_page_id_ n) (array_ n).
Definition SetNextPageId (next : Z) (n : BPlusTreePage) : BPlusTreePage :=
  mkNode (page_type_ n) (size_ n) (max_size_ n) (parent_page_id_ n) (page_id_ n)
         next (array_ n).
Definition set_array (a : list MappingType) (n : BPlusTreePage) : BPlusTreePage :=
  mkNode (page_type_ n) (size_ n) (max_size_ n) (parent_page_id_ n) (page_id_ n)
         (next_page_id_ n) a.

#[global] Instance IndexPageType_eq_dec : EqDecision IndexPageType.
Proof. solve_decision. Defined.

Definition IsLeafPage (n : BPlusTreePage) : bool :=
  bool_decide (page_type_ n = LEAF_PAGE).

(** Modelled from the spec: [IsRootPage] is what [DeleteEntry] asks to tell an
    internal page from a leaf page (the spec: the root internal with size 1;
    an internal merge or redistribution). *)
Definition IsRootPage (n : BPlusTreePage) : bool :=
  bool_decide (page_type_ n = INTERNAL_PAGE).

(** Modelled from the spec: the least size of a page that is not the root is
    [ceil(max/2)] for an internal page and [ceil((max-1)/2)] for a leaf
    page, [max] being the maximal size in the header. *)
Definition GetMinSize (n : BPlusTreePage) : Z :=
  if IsLeafPage n then max_size_ n ÷ 2 else (max_size_ n + 1) ÷ 2.

(** ** The entry array *)

(** [array_[i]]: a negative index is outside the array. *)
Definition entry (a : list MappingType) (i : Z) : option MappingType :=
  if i <? 0 then None else Some (nth (Z.to_nat i) a (0, 0)).

(** [array_[i] = e] *)
Definition store (a : list MappingType) (i : Z) (e : MappingType)
    : option (list MappingType) :=
  if i <? 0 then None
  else
    let n := Z.to_nat i in
    Some (if decide (n < length a)%nat then <[n := e]> a
          else a ++ replicate (n - length a) (0, 0) ++ [e]).

Definition KeyAt (n : BPlusTreePage) (index : Z) : option Z :=
  fst <$> entry (array_ n) index.
Definition ValueAt (n : BPlusTreePage) (index : Z) : option Z :=
  snd <$> entry (array_ n) index.
Definition SetKeyAt (index key : Z) (n : BPlusTreePage) : option BPlusTreePage :=
  e ← entry (array_ n) index;
  a ← store (array_ n) index (key, e.2);
  Some (set_array a n).
Definition SetValueAt (index value : Z) (n : BPlusTreePage) : option BPlusTreePage :=
  e ← entry (array_ n) index;
  a ← store (array_ n) index (e.1, value);
  Some (set_array a n).

(** A [for] loop over the indices [l] that updates [a]. *)
Definition for_each {A : Type} (l : list Z) (body : Z → A → option A) (a : A)
    : option A :=
  foldl (λ oa i, oa ≫= body i) (Some a) l.

(** [for (i = hi - 1; i >= lo; --i) array_[i + 1] = array_[i];] *)
Definition shift_up (a : list MappingType) (lo hi : Z) : option (list MappingType) :=
  for_each (reverse (seqZ lo (hi - lo)))
           (λ i a, e ← entry a i; store a (i + 1) e) a.

(** [for (i = lo; i < hi; ++i) array_[i - 1] = array_[i];] *)
Definition shift_down (a : list MappingType) (lo hi : Z) : option (list MappingType) :=
  for_each (seqZ lo (hi - lo))
           (λ i a, e ← entry a i; store a (i - 1) e) a.

(** The binary search of [KeyIndex]: the [while (l < r)] loop. *)
Fixpoint search (fuel : nat) (a : list MappingType) (key l r : Z) : option Z :=
  if l <? r then
    match fuel with
    | O => None
    | S fuel =>
        let mid := (l + r) ÷ 2 in
        e ← entry a mid;
        if e.1 <? key then search fuel a key (mid + 1) r
        else search fuel a key l mid
    end
  else Some l.

(** ** Leaf pages *)

Definition Leaf_Init (page_id parent_id max_size : Z) (n : BPlusTreePage)
    : BPlusTreePage :=
  SetSize 0 (SetPageType LEAF_PAGE (SetMaxSize max_size
    (SetNextPageId INVALID_PAGE_ID (SetParentPageId parent_id
      (SetPageId page_id n))))).

Definition Leaf_KeyIndex (n : BPlusTreePage) (key : Z) : option Z :=
  if 0 >=? size_ n then Some (size_ n)
  else search (Z.to_nat (size_ n)) (array_ n) key 0 (size_ n).

Definition Leaf_Insert (n : BPlusTreePage) (map : MappingType) (index : Z)
    : option (bool * BPlusTreePage) :=
  dup ← (if index <? size_ n
         then e ← entry (array_ n) index; Some (map.1 =? e.1)
         else Some false);
  if dup : bool then Some (false, n)
  else
    a ← shift_up (array_ n) index (size_ n);
    a ← store a index map;
    Some (true, IncreaseSize 1 (set_array a n)).

Definition Leaf_InsertFirst (key value : Z) (n : BPlusTreePage)
    : option BPlusTreePage :=
  a ← shift_up (array_ n) 0 (size_ n);
  a ← store a 0 (key, value);
  Some (IncreaseSize 1 (set_array a n)).

Definition Leaf_InsertLast (key value : Z) (n : BPlusTreePage)
    : option BPlusTreePage :=
  a ← store (array_ n) (size_ n) (key, value);
  Some (IncreaseSize 1 (set_array a n)).

Definition Leaf_Delete (n : BPlusTreePage) (key : Z)
    : option (bool * BPlusTreePage) :=
  index ← Leaf_KeyIndex n key;
  miss ← (if index >=? size_ n then Some true
          else e ← entry (array_ n) index; Some (negb (e.1 =? key)));
  if miss : bool then Some (false, n)
  else
    a ← shift_down (array_ n) (index + 1) (size_ n);
    Some (true, IncreaseSize (-1) (set_array a n)).

(** ** Internal pages *)

Definition Internal_Init (page_id parent_id max_size : Z) (n : BPlusTreePage)
    : BPlusTreePage :=
  SetSize 0 (SetPageType INTERNAL_PAGE (SetMaxSize max_size
    (SetParentPageId parent_id (SetPageId page_id n)))).

Definition Internal_KeyIndex (n : BPlusTreePage) (key : Z) : option Z :=
  if 1 >=? size_ n then Some (size_ n)
  else search (Z.to_nat (size_ n)) (array_ n) key 1 (size_ n).

(** [Lookup]: the child before the first key greater than [key], or the last
    child. *)
Fixpoint Lookup_loop (a : list MappingType) (key : Z) (l : list Z) (size : Z)
    : option Z :=
  match l with
  | [] => snd <$> entry a (size - 1)
  | i :: l =>
      e ← entry a i;
      if e.1 >? key then snd <$> entry a (i - 1)
      else Lookup_loop a key l size
  end.
Definition Internal_Lookup (n : BPlusTreePage) (key : Z) : option Z :=
  Lookup_loop (array_ n) key (seqZ 1 (size_ n - 1)) (size_ n).

(** The loop of [Insert], from the last index down to 1, on the array of the
    page: entries with a greater key move up by one, and [value] goes behind
    the first entry whose key is not greater.  The result is the array that
    the loop leaves, and whether the loop has placed [value]: it has not when
    it has moved up every entry from the index 1 on. *)
Fixpoint Insert_loop (a : list MappingType) (value : MappingType) (l : list Z)
    : option (bool * list MappingType) :=
  match l with
  | [] => Some (false, a)
  | i :: l =>
      e ← entry a i;
      if e.1 >? value.1 then a ← store a (i + 1) e; Insert_loop a value l
      else a ← store a (i + 1) value; Some (true, a)
  end.

(** [Insert]: when the loop has not placed [value], the key and the value go
    to the index 1 of the array that the loop has shifted. *)
Definition Internal_Insert (value : MappingType) (n : BPlusTreePage)
    : option BPlusTreePage :=
  r ← Insert_loop (array_ n) value (reverse (seqZ 1 (size_ n - 1)));
  if r.1 : bool then Some (IncreaseSize 1 (set_array r.2 n))
  else
    n ← SetKeyAt 1 value.1 (set_array r.2 n);
    n ← SetValueAt 1 value.2 n;
    Some (IncreaseSize 1 n).

Definition Internal_InsertFirst (key value : Z) (n : BPlusTreePage)
    : option BPlusTreePage :=
  a ← shift_up (array_ n) 0 (size_ n);
  n ← SetValueAt 0 value (set_array a n);
  n ← SetKeyAt 1 key n;
  Some (IncreaseSize 1 n).

Definition Internal_Delete (n : BPlusTreePage) (key : Z)
    : option (bool * BPlusTreePage) :=
  index ← Internal_KeyIndex n key;
  miss ← (if index >=? size_ n then Some true
          else k ← KeyAt n index; Some (negb (k =? key)));
  if miss : bool then Some (false, n)
  else
    a ← shift_down (array_ n) (index + 1) (size_ n);
    Some (true, IncreaseSize (-1) (set_array a n)).

Definition Internal_DeleteFirst (n : BPlusTreePage) : option BPlusTreePage :=
  a ← shift_down (array_ n) 1 (size_ n);
  Some (IncreaseSize (-1) (set_array a n)).

(** ** The buffer pool as the tree uses it *)

(** A page of the buffer pool: its pin count and its bytes, read as a tree
    page. *)
Record Page := mkPage {
  pin_count_ : Z;
  node_ : BPlusTreePage
}.

(** The tree, the buffer pool it points to, and the [Transaction] that the
    caller passes to the member functions.  The pool holds the pages in its
    frames, by page id, and the counter of [AllocatePage]; it is taken to have
    a frame for every page that the tree asks for, so that it evicts no page.
    A [Page *] is the id of its page.  [transaction_] is [None] for
    [nullptr] and else the page set of the transaction, a sequence of
    [Page *]; no function adds to the set of deleted pages, which stays
    empty. *)
Record t := mk {
  root_page_id_ : Z;
  leaf_max_size_ : Z;
  internal_max_size_ : Z;
  pool_ : gmap Z Page;
  next_id_ : Z;
  transaction_ : option (list Z)
}.

(** [BPlusTree(name, buffer_pool_manager, comparator, leaf_max_size,
    internal_max_size)] over a new buffer pool. *)
Definition init (leaf_max_size internal_max_size : Z)
    (transaction : option (list Z)) : t :=
  mk INVALID_PAGE_ID leaf_max_size internal_max_size ∅ 0 transaction.

Definition set_pool (pool : gmap Z Page) (s : t) : t :=
  mk (root_page_id_ s) (leaf_max_size_ s) (internal_max_size_ s) pool
     (next_id_ s) (transaction_ s).
Definition set_root (root : Z) (s : t) : t :=
  mk root (leaf_max_size_ s) (internal_max_size_ s) (pool_ s)
     (next_id_ s) (transaction_ s).
Definition set_transaction (transaction : option (list Z)) (s : t) : t :=
  mk (root_page_id_ s) (leaf_max_size_ s) (internal_max_size_ s) (pool_ s)
     (next_id_ s) transaction.

(** A member function runs on the tree and returns a result and the tree it
    leaves; [None] stands for a run that leaves the embedding: a null or
    dangling pointer is followed, an index is negative, or a loop ran out of
    fuel. *)
Definition M (A : Type) : Type := t → option (A * t).

Definition ret {A : Type} (a : A) : M A := λ s, Some (a, s).
Definition bind {A B : Type} (m : M A) (k : A → M B) : M B :=
  λ s, match m s with
       | Some (a, s') => k a s'
       | None => None
       end.
Definition lift {A : Type} (o : option A) : M A :=
  λ s, match o with
       | Some a => Some (a, s)
       | None => None
       end.
Definition gets {A : Type} (f : t → A) : M A := λ s, Some (f s, s).
Definition modify (f : t → t) : M unit := λ s, Some (tt, f s).

Notation "'let*' x := m 'in' k" := (bind m (λ x, k))
  (at level 10, x name, m at level 100, k at level 200, only parsing).
Notation "'let*' ' p := m 'in' k" := (bind m (λ p, k))
  (at level 10, p strict pattern, m at level 100, k at level 200, only parsing).
Notation "m1 >> m2" := (bind m1 (λ _, m2))
  (at level 100, m2 at level 200, right associativity, only parsing).

(** A loop over the indices [l]. *)
Fixpoint for_ (l : list Z) (body : Z → M unit) : M unit :=
  match l with
  | [] => ret tt
  | i :: l => body i >> for_ l body
  end.

(** [NewPage]: the page comes pinned once, with the next page id and zeroed
    bytes. *)
Definition NewPage : M Z :=
  λ s, let page_id := next_id_ s in
       Some (page_id,
             mk (root_page_id_ s) (leaf_max_size_ s) (internal_max_size_ s)
                (<[page_id := mkPage 1 zero_node]> (pool_ s))
                (page_id + 1) (transaction_ s)).

(** [FetchPage] of a page in the pool pins it once more.  (A page that is not
    in the pool would be read from the disk: the embedding does not follow
    that.) *)
Definition FetchPage (page_id : Z) : M Z :=
  λ s, p ← pool_ s !! page_id;
       Some (page_id,
             set_pool (<[page_id := mkPage (pin_count_ p + 1) (node_ p)]> (pool_ s)) s).

(** [UnpinPage]; the dirty flag of the page is not part of the embedding. *)
Definition UnpinPage (page_id : Z) (is_dirty : bool) : M bool :=
  λ s, match pool_ s !! page_id with
       | None => Some (false, s)
       | Some p =>
           if page_id =? INVALID_PAGE_ID then Some (false, s)
           else if pin_count_ p <=? 0 then Some (false, s)
           else Some (true,
                      set_pool (<[page_id := mkPage (pin_count_ p - 1) (node_ p)]> (pool_ s)) s)
       end.

(** [DeletePage]: a page that is pinned stays. *)
Definition DeletePage (page_id : Z) : M bool :=
  λ s, match pool_ s !! page_id with
       | None => Some (true, s)
       | Some p =>
           if page_id =? INVALID_PAGE_ID then Some (true, s)
           else if 0 <? pin_count_ p then Some (false, s)
           else Some (true, set_pool (delete page_id (pool_ s)) s)
       end.

(** [page->GetData()], read as a tree page, and an assignment through a
    pointer into it. *)
Definition get_node (page : Z) : M BPlusTreePage :=
  λ s, p ← pool_ s !! page; Some (node_ p, s).
Definition update (page : Z) (f : BPlusTreePage → option BPlusTreePage) : M unit :=
  λ s, p ← pool_ s !! page;
       n ← f (node_ p);
       Some (tt, set_pool (<[page := mkPage (pin_count_ p) n]> (pool_ s)) s).
Definition update' (page : Z) (f : BPlusTreePage → BPlusTreePage) : M unit :=
  update page (λ n, Some (f n)).

(** [transaction->AddIntoPageSet(page)] under [if (transaction != nullptr)] *)
Definition AddIntoPageSet (page : Z) : M unit :=
  modify (λ s, set_transaction ((λ l, l ++ [page]) <$> transaction_ s) s).

(** [transaction->GetPageSet()->pop_back()] *)
Definition pop_back : M unit :=
  λ s, l ← transaction_ s;
       if decide (l = []) then None
       else Some (tt, set_transaction (Some (removelast l)) s).

(** A member function of a tree page, called through a pointer to the page. *)
Definition call {A : Type} (page : Z)
    (f : BPlusTreePage → option (A * BPlusTreePage)) : M A :=
  λ s, p ← pool_ s !! page;
       r ← f (node_ p);
       Some (r.1, set_pool (<[page := mkPage (pin_count_ p) r.2]> (pool_ s)) s).

(** ** Functions of a page that reach other pages *)

(** Leaf [Split]: [this] and [brother_page] are pointers to pages. *)
Definition Leaf_Split (this brother_page : Z) : M unit :=
  let* n := get_node this in
  let mid := size_ n ÷ 2 in
  for_ (seqZ mid (max_size_ n - mid)) (λ i,
    let* n := get_node this in
    let* e := lift (entry (array_ n) i) in
    update brother_page
           (λ b, a ← store (array_ b) (i - mid) e; Some (set_array a b)) >>
    update' this (IncreaseSize (-1)) >>
    update' brother_page (IncreaseSize 1)) >>
  let* n := get_node this in
  update' brother_page (SetNextPageId (next_page_id_ n)) >>
  update' this (SetNextPageId brother_page).

(** Leaf [Merge].  The loop runs while [j < right->GetSize()]: its bounds are
    those at its start, as [right] is another page than [this]. *)
Definition Leaf_Merge (this right_page : Z) : M unit :=
  if decide (this = right_page) then lift None
  else
    let* n := get_node this in
    let* right := get_node right_page in
    for_ (seqZ 0 (size_ right)) (λ j,
      let* right := get_node right_page in
      let* k := lift (KeyAt right j) in
      let* v := lift (ValueAt right j) in
      update this (λ m, a ← store (array_ m) (size_ n + j) (k, v);
                        Some (set_array a m)) >>
      update' this (IncreaseSize 1)) >>
    update' right_page (SetSize 0) >>
    UnpinPage right_page true >>
    DeletePage right_page >>
    ret tt.

(** The loop of [GetBrotherPage]: the first index whose value is the child,
    or the size. *)
Fixpoint find_child (a : list MappingType) (child_page_id : Z) (l : list Z)
    (size : Z) : option Z :=
  match l with
  | [] => Some size
  | i :: l =>
      e ← entry a i;
      if e.2 =? child_page_id then Some i
      else find_child a child_page_id l size
  end.

(** [GetBrotherPage]: the results are [brother_page], [key] and [isPre]. *)
Definition GetBrotherPage (this child_page_id : Z) : M (Z * Z * bool) :=
  let* n := get_node this in
  let* i := lift (find_child (array_ n) child_page_id (seqZ 0 (size_ n)) (size_ n)) in
  if i - 1 >=? 0 then
    let* v := lift (ValueAt n (i - 1)) in
    let* brother_page := FetchPage v in
    let* n := get_node this in
    let* key := lift (KeyAt n i) in
    ret (brother_page, key, true)
  else
    let* v := lift (ValueAt n (i + 1)) in
    let* brother_page := FetchPage v in
    let* n := get_node this in
    let* key := lift (KeyAt n (i + 1)) in
    ret (brother_page, key, false).

(** Internal [Split]: [brother_page] is the new child, [parent_page] the new
    page that receives the upper half.  [temp] is filled as by the loop of
    [Insert]: the loop shifts [temp] in place, and when it ends at the index
    0 the new entry goes to the index 1 of the shifted [temp]. *)
Definition Internal_Split (this key brother_page parent_page : Z) : M unit :=
  let* n := get_node this in
  let max := max_size_ n in
  let* temp := lift (
    t0 ← entry (array_ n) 0;
    temp ← store [] 0 t0;
    temp ← for_each (seqZ 1 (max - 1))
                    (λ i temp, e ← entry (array_ n) i; store temp i e) temp;
    r ← Insert_loop temp (key, brother_page) (reverse (seqZ 1 (max - 1)));
    if r.1 : bool then Some r.2
    else store r.2 1 (key, brother_page)) in
  let mid := (max + 1) ÷ 2 in
  update' brother_page (SetParentPageId (page_id_ n)) >>
  update' this (IncreaseSize 1) >>
  update this (λ m, a ← for_each (seqZ 0 mid)
                                 (λ i a, e ← entry temp i; store a i e) (array_ m);
                    Some (set_array a m)) >>
  for_ (seqZ mid (max - mid + 1)) (λ m,
    let* e := lift (entry temp m) in
    let* child := FetchPage e.2 in
    let* parent_page_node := get_node parent_page in
    update' child (SetParentPageId (page_id_ parent_page_node)) >>
    update parent_page (λ p, a ← store (array_ p) (m - mid) e;
                             Some (set_array a p)) >>
    update' parent_page (IncreaseSize 1) >>
    update' this (IncreaseSize (-1)) >>
    UnpinPage child true >>
    ret tt).

(** Internal [Merge]; [right] is another page than [this]. *)
Definition Internal_Merge (this key right_page : Z) : M unit :=
  if decide (this = right_page) then lift None
  else
    let* n := get_node this in
    let size := size_ n in
    let* right := get_node right_page in
    let* v0 := lift (ValueAt right 0) in
    update this (λ m, a ← store (array_ m) (size_ m) (key, v0);
                      Some (set_array a m)) >>
    update' this (IncreaseSize 1) >>
    for_ (seqZ 1 (size_ right - 1)) (λ j,
      let* right := get_node right_page in
      let* k := lift (KeyAt right j) in
      let* v := lift (ValueAt right j) in
      update this (λ m, a ← store (array_ m) (size + 1 + (j - 1)) (k, v);
                        Some (set_array a m)) >>
      update' this (IncreaseSize 1)) >>
    UnpinPage right_page true >>
    DeletePage right_page >>
    let* n := get_node this in
    for_ (seqZ size (size_ n - size)) (λ i,
      let* n := get_node this in
      let* child_page_id := lift (ValueAt n i) in
      let* child_page := FetchPage child_page_id in
      update' child_page (SetParentPageId (page_id_ n)) >>
      UnpinPage child_page_id true >>
      ret tt).

(** ** The tree *)

Definition IsEmpty (s : t) : bool := root_page_id_ s =? INVALID_PAGE_ID.

Definition GetMaxSize (s : t) (page : BPlusTreePage) : Z :=
  if IsLeafPage page then leaf_max_size_ s - 1 else internal_max_size_ s.

Definition IsSafe (page : Z) (operation : Operation) : M bool :=
  let* node := get_node page in
  let* s := gets id in
  match operation with
  | INSERT => ret (size_ node <? GetMaxSize s node)
  | _ =>
      if parent_page_id_ node =? INVALID_PAGE_ID then
        if IsLeafPage node then ret true else ret (size_ node >? 2)
      else ret (size_ node >? GetMinSize node)
  end.

(** [UnlockAndUnpin]: every page of the page set is unpinned; the source
    also unlatches it.  The latches are not part of the embedding, which
    follows a call on pages that no earlier call has left latched, as they
    are after calls that were given a transaction.  Without a transaction the
    source returns here at once, and the pages that [FindLeafPage] has
    write-latched stay latched: a later call that asks for such a latch
    waits, which the embedding does not show. *)
Definition UnlockAndUnpin (op : Operation) : M unit :=
  let* transaction := gets transaction_ in
  match transaction with
  | None => ret tt
  | Some page_set =>
      for_ page_set (λ page,
        match op with
        | READ => UnpinPage page false >> ret tt
        | _ => UnpinPage page true >> ret tt
        end) >>
      modify (set_transaction (Some []))
  end.

(** The second loop of [FindLeafPage], from [curr_page] down to a leaf. *)
Fixpoint descend (fuel : nat) (key : Z) (op : Operation) (curr_page : Z) : M Z :=
  let* curr_page_node := get_node curr_page in
  if IsLeafPage curr_page_node then ret curr_page
  else
    match fuel with
    | O => lift None
    | S fuel =>
        let* child := lift (Internal_Lookup curr_page_node key) in
        let* next_page := FetchPage child in
        let* transaction := gets transaction_ in
        match op with
        | READ =>
            match transaction with
            | Some _ => UnlockAndUnpin op
            | None => UnpinPage curr_page false >> ret tt
            end
        | _ =>
            let* safe := IsSafe next_page op in
            if safe : bool then UnlockAndUnpin op else ret tt
        end >>
        AddIntoPageSet next_page >>
        descend fuel key op next_page
    end.

(** [FindLeafPage]; [None] is [nullptr].  The first loop fetches the root
    page until the page fetched is the root: with one thread, the first page
    fetched is.  The source latches every page that it fetches ([RLatch] for
    [READ], else [WLatch]); the embedding has no latches and follows the
    call on pages that are not latched when it asks for them. *)
Definition FindLeafPage (fuel : nat) (key : Z) (op : Operation) : M (option Z) :=
  let* s := gets id in
  if IsEmpty s then ret None
  else
    let* curr_page := FetchPage (root_page_id_ s) in
    AddIntoPageSet curr_page >>
    let* leaf := descend fuel key op curr_page in
    ret (Some leaf).

(** [GetValue]: [Some v] when it returns [true] and pushes [v] to the
    result, [None] when it returns [false]. *)
Definition GetValue (fuel : nat) (key : Z) : M (option Z) :=
  let* s := gets id in
  if IsEmpty s then ret None
  else
    let* page := FindLeafPage fuel key READ in
    match page with
    | None => ret None
    | Some page =>
        let* leaf_page := get_node page in
        let* index := lift (Leaf_KeyIndex leaf_page key) in
        let* found := lift (if index <? size_ leaf_page
                            then k ← KeyAt leaf_page index; Some (k =? key)
                            else Some false) in
        let release :=
          match transaction_ s with
          | Some _ => UnlockAndUnpin READ
          | None => UnpinPage (page_id_ leaf_page) false >> ret tt
          end in
        if found : bool then
          let* v := lift (ValueAt leaf_page index) in
          release >> ret (Some v)
        else release >> ret None
    end.

(** [InsertInParent] *)
Fixpoint InsertInParent (fuel : nat) (leaf_page key brother_page : Z) : M unit :=
  let* tree_page := get_node leaf_page in
  let* s := gets id in
  if parent_page_id_ tree_page =? INVALID_PAGE_ID then
    let* new_page_id := NewPage in
    update new_page_id (λ n,
      n ← SetValueAt 0 leaf_page
            (Internal_Init new_page_id INVALID_PAGE_ID (internal_max_size_ s) n);
      n ← SetKeyAt 1 key n;
      n ← SetValueAt 1 brother_page n;
      Some (IncreaseSize 2 n)) >>
    update' leaf_page (SetParentPageId new_page_id) >>
    update' brother_page (SetParentPageId new_page_id) >>
    modify (set_root new_page_id) >>
    UnpinPage new_page_id true >>
    ret tt
  else
    let parent_id := parent_page_id_ tree_page in
    let* parent_page := FetchPage parent_id in
    let* parent_node := get_node parent_page in
    if size_ parent_node <? max_size_ parent_node then
      update parent_page (Internal_Insert (key, brother_page)) >>
      update' brother_page (SetParentPageId parent_id) >>
      UnpinPage parent_id true >>
      ret tt
    else
      match fuel with
      | O => lift None
      | S fuel =>
          let* parent_bother_page_id := NewPage in
          update' parent_bother_page_id
                  (Internal_Init parent_bother_page_id INVALID_PAGE_ID
                                 (internal_max_size_ s)) >>
          Internal_Split parent_page key brother_page parent_bother_page_id >>
          let* parent_bother_node := get_node parent_bother_page_id in
          let* k := lift (KeyAt parent_bother_node 0) in
          InsertInParent fuel parent_page k parent_bother_page_id >>
          UnpinPage parent_bother_page_id true >>
          UnpinPage parent_id true >>
          ret tt
      end.

(** The loop that opens [Insert]: while [FindLeafPage] returns [nullptr], an
    empty tree gets a leaf as its root. *)
Fixpoint find_or_start (fuel fuel' : nat) (key : Z) : M Z :=
  let* leaf_page := FindLeafPage fuel' key INSERT in
  match leaf_page with
  | Some leaf_page => ret leaf_page
  | None =>
      match fuel with
      | O => lift None
      | S fuel =>
          let* s := gets id in
          (if IsEmpty s then
             let* page_id := NewPage in
             update' page_id (Leaf_Init page_id INVALID_PAGE_ID (leaf_max_size_ s)) >>
             modify (set_root page_id) >>
             UnpinPage page_id true >>
             ret tt
           else ret tt) >>
          find_or_start fuel fuel' key
      end
  end.

(** [Insert] *)
Definition Insert (fuel : nat) (key value : Z) : M bool :=
  let* leaf_page := find_or_start fuel fuel key in
  let* leaf_node := get_node leaf_page in
  let* index := lift (Leaf_KeyIndex leaf_node key) in
  let* res := call leaf_page (λ n, Leaf_Insert n (key, value) index) in
  if negb res then UnlockAndUnpin INSERT >> ret false
  else
    let* s := gets id in
    let* leaf_node := get_node leaf_page in
    (if size_ leaf_node =? leaf_max_size_ s then
       let* brother_page := NewPage in
       update' brother_page
               (Leaf_Init brother_page INVALID_PAGE_ID (leaf_max_size_ s)) >>
       Leaf_Split leaf_page brother_page >>
       let* brother_node := get_node brother_page in
       let* k := lift (KeyAt brother_node 0) in
       InsertInParent fuel leaf_page k brother_page >>
       UnpinPage brother_page true >>
       UnlockAndUnpin INSERT
     else ret tt) >>
    UnlockAndUnpin INSERT >>
    ret true.

(** The page of the page set at the index [size() - 2]: the parent of the
    page at its back. *)
Definition parent_in_page_set : M Z :=
  let* transaction := gets transaction_ in
  lift (page_set ← transaction;
        if (length page_set <? 2)%nat then None
        else page_set !! (length page_set - 2)%nat).

(** The end of a redistribution: [parent_page] gets [key] in place of
    [parent_key]. *)
Definition set_parent_key (parent_page parent_key key : Z) : M unit :=
  let* parent_inter_node := get_node parent_page in
  let* index := lift (Internal_KeyIndex parent_inter_node parent_key) in
  update parent_page (SetKeyAt index key).

(** [DeleteEntry] *)
Fixpoint DeleteEntry (fuel : nat) (page key : Z) : M unit :=
  let* node := get_node page in
  let* deleted :=
    (if IsLeafPage node then call page (λ n, Leaf_Delete n key)
     else call page (λ n, Internal_Delete n key)) in
  if negb deleted then pop_back >> UnpinPage page true >> ret tt
  else
    let* node := get_node page in
    let* s := gets id in
    if root_page_id_ s =? page_id_ node then
      if IsLeafPage node && (size_ node =? 0) then
        modify (set_root INVALID_PAGE_ID) >>
        pop_back >>
        UnpinPage page true >>
        DeletePage page >>
        ret tt
      else if IsRootPage node && (size_ node =? 1) then
        let* child := lift (ValueAt node 0) in
        modify (set_root child) >>
        pop_back >>
        UnpinPage page true >>
        DeletePage page >>
        ret tt
      else pop_back >> UnpinPage page true >> ret tt
    else if size_ node <? GetMinSize node then
      let* parent_page := parent_in_page_set in
      let* '(brother_page, parent_key, ispre) := GetBrotherPage parent_page page in
      let* brother_node := get_node brother_page in
      if size_ brother_node + size_ node <=? GetMaxSize s node then
        let page' := if ispre : bool then page else brother_page in
        let brother_page' := if ispre : bool then brother_page else page in
        let* node' := get_node page' in
        (if IsRootPage node' then
           Internal_Merge brother_page' parent_key page' >>
           pop_back >>
           let* inter_brother_node := get_node brother_page' in
           UnpinPage (page_id_ inter_brother_node) true >>
           ret tt
         else
           let next_page_id := next_page_id_ node' in
           Leaf_Merge brother_page' page' >>
           update' brother_page' (SetNextPageId next_page_id) >>
           pop_back >>
           let* brother_leaf_node := get_node brother_page' in
           UnpinPage (page_id_ brother_leaf_node) true >>
           ret tt) >>
        match fuel with
        | O => lift None
        | S fuel => DeleteEntry fuel parent_page parent_key
        end
      else if ispre : bool then
        if IsRootPage brother_node then
          let* last_value := lift (ValueAt brother_node (size_ brother_node - 1)) in
          let* last_key := lift (KeyAt brother_node (size_ brother_node - 1)) in
          call brother_page (λ n, Internal_Delete n last_key) >>
          UnpinPage (page_id_ brother_node) true >>
          update page (Internal_InsertFirst parent_key last_value) >>
          let* child_page := FetchPage last_value in
          let* curr_inter_node := get_node page in
          update' child_page (SetParentPageId (page_id_ curr_inter_node)) >>
          pop_back >>
          UnpinPage page true >>
          UnpinPage child_page true >>
          set_parent_key parent_page parent_key last_key
        else
          let* last_value := lift (ValueAt brother_node (size_ brother_node - 1)) in
          let* last_key := lift (KeyAt brother_node (size_ brother_node - 1)) in
          call brother_page (λ n, Leaf_Delete n last_key) >>
          update page (Leaf_InsertFirst last_key last_value) >>
          UnpinPage (page_id_ brother_node) true >>
          pop_back >>
          UnpinPage page true >>
          set_parent_key parent_page parent_key last_key
      else
        if IsRootPage brother_node then
          let* first_value := lift (ValueAt brother_node 0) in
          let* first_key := lift (KeyAt brother_node 1) in
          update brother_page Internal_DeleteFirst >>
          UnpinPage brother_page true >>
          update page (Internal_Insert (parent_key, first_value)) >>
          let* child_page := FetchPage first_value in
          let* curr_inter_node := get_node page in
          update' child_page (SetParentPageId (page_id_ curr_inter_node)) >>
          pop_back >>
          UnpinPage page true >>
          UnpinPage child_page true >>
          set_parent_key parent_page parent_key first_key
        else
          let* first_value := lift (ValueAt brother_node 0) in
          let* first_key := lift (KeyAt brother_node 0) in
          call brother_page (λ n, Leaf_Delete n first_key) >>
          update page (Leaf_InsertLast first_key first_value) >>
          UnpinPage brother_page true >>
          pop_back >>
          UnpinPage page true >>
          let* brother_leaf_node := get_node brother_page in
          let* k := lift (KeyAt brother_leaf_node 0) in
          set_parent_key parent_page parent_key k
    else ret tt.

(** [Remove] *)
Definition Remove (fuel : nat) (key : Z) : M unit :=
  let* s := gets id in
  if IsEmpty s then ret tt
  else
    let* leaf_page := FindLeafPage fuel key DELETE in
    match leaf_page with
    | None => ret tt
    | Some leaf_page =>
        DeleteEntry fuel leaf_page key >>
        UnlockAndUnpin DELETE
    end.

(** ** Scenarios *)

(** The pages of the tree below [page], from left to right, with their
    depth: a leaf as its keys, an internal page as the keys at the indices
    from 1 on. *)
Fixpoint shape (fuel : nat) (s : t) (depth : nat) (page : Z)
    : list (nat * bool * list Z) :=
  match fuel, pool_ s !! page with
  | S fuel, Some p =>
      let n := node_ p in
      let entries := take (Z.to_nat (size_ n)) (array_ n) in
      if IsLeafPage n then [(depth, true, entries.*1)]
      else (depth, false, (drop 1 entries).*1)
           :: concat ((λ e, shape fuel s (S depth) e.2) <$> entries)
  | _, _ => []
  end.

(** The keys of the leaves along the chain of [next_page_id_]. *)
Fixpoint chain (fuel : nat) (s : t) (page : Z) : list (list Z) :=
  match fuel, pool_ s !! page with
  | S fuel, Some p =>
      let n := node_ p in
      (take (Z.to_nat (size_ n)) (array_ n)).*1 :: chain fuel s (next_page_id_ n)
  | _, _ => []
  end.

Fixpoint Inserts (fuel : nat) (keys : list Z) : M unit :=
  match keys with
  | [] => ret tt
  | key :: keys => Insert fuel key (10 * key) >> Inserts fuel keys
  end.

(** Scenario S5: the keys 1, 2, 3, 4, 5 go, in this order, into a tree with
    [leaf_max_size = 3] and [internal_max_size = 3]; key [k] has the value
    [10 * k]. *)
Definition scenario_S5 (fuel : nat) (transaction : option (list Z))
    : option (unit * t) :=
  Inserts fuel [1; 2; 3; 4; 5] (init 3 3 transaction).

End BPT.


(** * Properties of the LRU-K replacer *)

Module LRUKFacts.
Import LRUK.

(** The number of evictable frames among the frames of a list. *)
Definition nevict (ev : Z → bool) (l : list Z) : nat := length (List.filter ev l).

(** Consistency of the members of a replacer: every frame has at most one
    node, a frame has a node exactly when it has been accessed, the history
    list holds the frames with fewer than [k_] accesses and the cache list the
    others, only accessed frames are evictable, and [curr_size_] counts the
    evictable frames. *)
Record wf (s : t) : Prop := {
  wf_nodup : NoDup (history_list_ s ++ cache_list_ s);
  wf_listed : ∀ f, f ∈ history_list_ s ++ cache_list_ s ↔ count s f ≠ 0%N;
  wf_history : ∀ f, f ∈ history_list_ s → (count s f < k_ s)%N;
  wf_cache : ∀ f, f ∈ cache_list_ s → (k_ s ≤ count s f)%N;
  wf_evictable : ∀ f, evictable s f = true → count s f ≠ 0%N;
  wf_curr_size :
    curr_size_ s = N.of_nat (nevict (evictable s) (history_list_ s ++ cache_list_ s));
  wf_bound : (curr_size_ s < 2 ^ 64)%N
}.

(** ** Lists and [erase] *)

Lemma erase_not_in f l : f ∉ l → erase f l = l.
Proof.
  induction l as [|x l IH]; simpl; [done|].
  intros Hf. apply not_elem_of_cons in Hf as [Hne Hf].
  destruct (decide (x = f)); [congruence|]. by rewrite IH.
Qed.

Lemma elem_of_erase f x l : NoDup l → x ∈ erase f l ↔ x ∈ l ∧ x ≠ f.
Proof.
  induction l as [|y l IH]; simpl; intros Hnd.
  - split; [by intros ?%elem_of_nil | by intros [?%elem_of_nil _]].
  - apply NoDup_cons in Hnd as [Hy Hnd].
    destruct (decide (y = f)) as [->|Hne].
    + rewrite elem_of_cons. split.
      * intros Hx. split; [by right|]. by intros ->.
      * intros [[->|Hx] Hxf]; done.
    + rewrite !elem_of_cons, IH by done. intuition congruence.
Qed.

Lemma erase_sublist f l : erase f l `sublist_of` l.
Proof.
  induction l as [|y l IH]; simpl; [done|].
  destruct (decide (y = f)); [by apply sublist_cons | by apply sublist_skip].
Qed.

Lemma NoDup_erase f l : NoDup l → NoDup (erase f l).
Proof. intros Hnd. eapply sublist_NoDup; [done | apply erase_sublist]. Qed.

Lemma erase_split f l :
  f ∈ l → ∃ l1 l2, l = l1 ++ f :: l2 ∧ erase f l = l1 ++ l2 ∧ f ∉ l1.
Proof.
  induction l as [|y l IH]; simpl; [by intros ?%elem_of_nil|].
  intros Hf. destruct (decide (y = f)) as [->|Hne].
  - exists [], l. split_and!; [done..|]. apply not_elem_of_nil.
  - apply elem_of_cons in Hf as [?|Hf]; [congruence|].
    destruct (IH Hf) as (l1 & l2 & -> & -> & Hl1).
    exists (y :: l1), l2. split_and!; [done..|].
    apply not_elem_of_cons. split; [congruence | done].
Qed.

(** ** Counting evictable frames *)

Lemma nevict_app ev l1 l2 : nevict ev (l1 ++ l2) = nevict ev l1 + nevict ev l2.
Proof. unfold nevict. by rewrite List.filter_app, length_app. Qed.

Lemma nevict_cons ev x l :
  nevict ev (x :: l) = (if ev x then 1 else 0) + nevict ev l.
Proof. unfold nevict. simpl. by destruct (ev x). Qed.

Lemma nevict_ext ev ev' l :
  (∀ g, g ∈ l → ev g = ev' g) → nevict ev l = nevict ev' l.
Proof.
  induction l as [|x l IH]; intros H; [done|].
  rewrite !nevict_cons, (H x), IH; [done| |by left].
  intros g Hg. apply H. by right.
Qed.

Lemma nevict_zero ev l : nevict ev l = 0 ↔ ∀ g, g ∈ l → ev g = false.
Proof.
  induction l as [|x l IH].
  - split; [by intros _ g ?%elem_of_nil | done].
  - rewrite nevict_cons. split.
    + intros H g [->|Hg]%elem_of_cons.
      * destruct (ev x); [simpl in H; lia | done].
      * apply IH; [|done]. destruct (ev x); simpl in H; lia.
    + intros H. rewrite (H x) by (by left). simpl. apply IH.
      intros g Hg. apply H. by right.
Qed.

(** ** The reverse scans of [Evict] *)

Lemma find_rev_Some (P : Z → bool) l f :
  List.find P (rev l) = Some f →
  ∃ newer older, l = newer ++ f :: older ∧ P f = true ∧
                 Forall (λ g, P g = false) older.
Proof.
  induction l as [|x l IH] using rev_ind; [done|].
  rewrite rev_unit. simpl. destruct (P x) eqn:Hx.
  - intros [= ->]. exists l, []. by split_and!.
  - intros (newer & older & -> & Hf & Holder)%IH.
    exists newer, (older ++ [x]). split_and!; [|done|].
    + by rewrite <-app_assoc.
    + apply Forall_app. split; [done|]. by constructor.
Qed.

Lemma find_rev_None (P : Z → bool) l :
  List.find P (rev l) = None ↔ Forall (λ g, P g = false) l.
Proof.
  induction l as [|x l IH] using rev_ind; [done|].
  rewrite rev_unit, Forall_app, Forall_singleton. simpl.
  destruct (P x); [|rewrite IH]; naive_solver.
Qed.

(** ** Reading the members after an update *)

Lemma count_insert m f c g k cs ev h cl :
  count (mk m k cs (<[f := c]> g) ev h cl) f = c.
Proof. unfold count. simpl. by rewrite lookup_insert_eq. Qed.

Lemma count_insert_ne m f f' c g k cs ev h cl :
  f ≠ f' → count (mk m k cs (<[f := c]> g) ev h cl) f' = default 0%N (g !! f').
Proof. intros. unfold count. simpl. by rewrite lookup_insert_ne. Qed.

Lemma evictable_insert m f b g k cs ac h cl :
  evictable (mk m k cs ac (<[f := b]> g) h cl) f = b.
Proof. unfold evictable. simpl. by rewrite lookup_insert_eq. Qed.

Lemma evictable_insert_ne m f f' b g k cs ac h cl :
  f ≠ f' → evictable (mk m k cs ac (<[f := b]> g) h cl) f' = default false (g !! f').
Proof. intros. unfold evictable. simpl. by rewrite lookup_insert_ne. Qed.

Lemma size_t_dec_pos n : (0 < n < 2 ^ 64)%N → size_t_dec n = (n - 1)%N.
Proof.
  intros H. unfold size_t_dec.
  replace (n + 2 ^ 64 - 1)%N with (n - 1 + 1 * 2 ^ 64)%N by lia.
  rewrite N.Div0.mod_add. apply N.mod_small. lia.
Qed.

Lemma size_t_inc_small n : (n + 1 < 2 ^ 64)%N → size_t_inc n = (n + 1)%N.
Proof. intros H. unfold size_t_inc. by apply N.mod_small. Qed.

(** The frame a reverse scan of [l] stops at: the evictable frame closest to
    the back of [l], that is, the least recently inserted one. *)
Definition victim_of (ev : Z → bool) (l : list Z) (f : Z) : Prop :=
  ∃ newer older,
    l = newer ++ f :: older ∧ ev f = true ∧ Forall (λ g, ev g = false) older.

Lemma victim_of_elem ev l f : victim_of ev l f → f ∈ l.
Proof. intros (l1 & l2 & -> & _). apply elem_of_app. right. by left. Qed.

(** What [Evict] leaves of the frame it returns, and of the others. *)
Definition evicted (s : t) (f : Z) (s' : t) : Prop :=
  count s' f = 0%N ∧ evictable s' f = false ∧
  (f ∉ history_list_ s' ++ cache_list_ s') ∧
  Size s' = (Size s - 1)%N ∧ (* others *)
  ∀ g, g ≠ f →
    count s' g = count s g ∧ evictable s' g = evictable s g ∧
    (g ∈ history_list_ s' ↔ g ∈ history_list_ s) ∧
    (g ∈ cache_list_ s' ↔ g ∈ cache_list_ s).

Lemma evict_from_history_evicted s f :
  wf s → curr_size_ s ≠ 0%N → f ∈ history_list_ s →
  evicted s f (evict_from_history s f).
Proof.
  intros Hwf Hcs Hin. destruct Hwf as [Hnd _ _ _ _ _ Hb].
  apply NoDup_app in Hnd as (Hh & Hdisj & Hc).
  unfold evicted, evict_from_history, Size. simpl.
  rewrite count_insert, evictable_insert. split_and!; [done..| | |].
  - rewrite elem_of_app, elem_of_erase by done.
    intros [[_ ?]|Hf]; [done|]. by apply (Hdisj f).
  - apply size_t_dec_pos. lia.
  - intros g Hg. rewrite count_insert_ne, evictable_insert_ne by done.
    rewrite elem_of_erase by done. unfold count, evictable. intuition.
Qed.

Lemma evict_from_cache_evicted s f :
  wf s → curr_size_ s ≠ 0%N → f ∉ history_list_ s →
  evicted s f (evict_from_cache s f).
Proof.
  intros Hwf Hcs Hnh. destruct Hwf as [Hnd _ _ _ _ _ Hb].
  apply NoDup_app in Hnd as (Hh & Hdisj & Hc).
  unfold evicted, evict_from_cache, Size. simpl.
  rewrite count_insert, evictable_insert. split_and!; [done..| | |].
  - rewrite elem_of_app, elem_of_erase by done. intuition.
  - apply size_t_dec_pos. lia.
  - intros g Hg. rewrite count_insert_ne, evictable_insert_ne by done.
    rewrite elem_of_erase by done. unfold count, evictable. intuition.
Qed.

Lemma curr_size_zero s :
  wf s → curr_size_ s = 0%N ↔ ∀ f, evictable s f = false.
Proof.
  intros Hwf. rewrite (wf_curr_size s Hwf).
  assert (∀ n, (N.of_nat n = 0%N) ↔ (n = 0)) as Hn by lia.
  rewrite Hn, nevict_zero. split.
  - intros H f. destruct (evictable s f) eqn:Hf; [|done].
    rewrite <-Hf. apply H. apply (wf_listed s Hwf). by apply (wf_evictable s Hwf).
  - intros H g _. apply H.
Qed.

(** ** The consistency of the members is kept by every member function *)

Lemma wf_init num_frames k : wf (init num_frames k).
Proof.
  constructor; simpl; try done.
  - constructor.
  - intros f. unfold count. simpl. rewrite lookup_empty. simpl.
    split; [by intros ?%elem_of_nil | done].
  - intros f ?%elem_of_nil. done.
  - intros f ?%elem_of_nil. done.
Qed.

(** A frame gets the access count [c] and the lists are rearranged around
    it. *)
Lemma wf_touch s f c h' c' :
  wf s → c ≠ 0%N →
  NoDup (h' ++ c') →
  (∀ g, g ∈ h' ++ c' ↔ g = f ∨ g ∈ history_list_ s ++ cache_list_ s) →
  (∀ g, g ∈ h' → if decide (g = f) then (c < k_ s)%N else g ∈ history_list_ s) →
  (∀ g, g ∈ c' → if decide (g = f) then (k_ s ≤ c)%N else g ∈ cache_list_ s) →
  nevict (evictable s) (h' ++ c') =
    nevict (evictable s) (history_list_ s ++ cache_list_ s) →
  wf (mk (replacer_size_ s) (k_ s) (curr_size_ s)
         (<[f := c]> (access_count_ s)) (is_evictable_ s) h' c').
Proof.
  intros Hwf Hc Hnd Hin Hh Hca Hn.
  assert (∀ g, g ≠ f →
    count (mk (replacer_size_ s) (k_ s) (curr_size_ s)
              (<[f := c]> (access_count_ s)) (is_evictable_ s) h' c') g
    = count s g) as Hcnt.
  { intros g Hg. by rewrite count_insert_ne. }
  constructor; simpl; try done.
  - intros g. rewrite Hin. destruct (decide (g = f)) as [->|Hne].
    + rewrite count_insert. intuition.
    + rewrite Hcnt, (wf_listed s Hwf) by done. intuition.
  - intros g Hg. specialize (Hh g Hg). destruct (decide (g = f)) as [->|Hne].
    + by rewrite count_insert.
    + rewrite Hcnt by done. by apply (wf_history s Hwf).
  - intros g Hg. specialize (Hca g Hg). destruct (decide (g = f)) as [->|Hne].
    + by rewrite count_insert.
    + rewrite Hcnt by done. by apply (wf_cache s Hwf).
  - intros g Hg. destruct (decide (g = f)) as [->|Hne].
    + by rewrite count_insert.
    + rewrite Hcnt by done. by apply (wf_evictable s Hwf).
  - change (evictable (mk _ _ _ _ (is_evictable_ s) _ _)) with (evictable s).
    rewrite Hn. apply (wf_curr_size s Hwf).
  - apply (wf_bound s Hwf).
Qed.

Lemma nevict_erase_cons ev f l :
  f ∈ l → nevict ev (f :: erase f l) = nevict ev l.
Proof.
  intros (l1 & l2 & -> & -> & _)%erase_split.
  rewrite !nevict_cons, !nevict_app, nevict_cons. lia.
Qed.

Lemma unlisted_not_evictable s f :
  wf s → f ∉ (history_list_ s ++ cache_list_ s) → evictable s f = false.
Proof.
  intros Hwf Hf. destruct (evictable s f) eqn:Hev; [|done].
  exfalso. apply Hf. apply (wf_listed s Hwf). by apply (wf_evictable s Hwf).
Qed.

(** Membership goals over [++], [::] and [erase]. *)
Ltac mem_norm :=
  repeat first
    [ rewrite elem_of_app | rewrite elem_of_cons
    | rewrite elem_of_erase by done
    | rewrite NoDup_app | rewrite NoDup_cons
    | match goal with
      | H : _ ∈ _ ++ _ |- _ => rewrite elem_of_app in H
      | H : _ ∈ _ :: _ |- _ => rewrite elem_of_cons in H
      | H : _ ∈ erase _ _ |- _ => rewrite elem_of_erase in H by done
      end ].
Ltac mem_step :=
  mem_norm; repeat case_decide; subst;
  intuition (subst; try done; try lia; eauto using NoDup_erase).
Ltac mem_solve := intros; mem_step; repeat (progress mem_norm; mem_step).

Lemma RecordAccess_wf s f s' :
  wf s → (count s f + 1 < 2 ^ 64)%N → RecordAccess s f = Ok s' → wf s'.
Proof.
  intros Hwf Hlt. unfold RecordAccess.
  destruct (_ >? _)%Z; [done|].
  rewrite size_t_inc_small by done.
  pose proof (wf_nodup s Hwf) as Hnd.
  apply NoDup_app in Hnd as (Hh & Hdisj & Hc).
  pose proof (wf_history s Hwf) as Hhist.
  pose proof (wf_cache s Hwf) as Hcache.
  unfold listed.
  destruct (count s f + 1 =? k_ s)%N eqn:Hk; [apply N.eqb_eq in Hk|
    apply N.eqb_neq in Hk;
    destruct (k_ s <? count s f + 1)%N eqn:Hk2;
      [apply N.ltb_lt in Hk2|apply N.ltb_ge in Hk2]].
  - (* the k-th access: from the history list to the cache list *)
    assert (f ∉ cache_list_ s) as Hfc.
    { intros Hin. apply Hcache in Hin. lia. }
    case_bool_decide as Hfh; intros [= <-]; apply wf_touch;
      try done; try lia; try (mem_solve; fail).
    + intros g. destruct (decide (g = f)); mem_solve.
    + rewrite !nevict_app, nevict_cons, (Nat.add_comm (nevict _ (erase _ _))),
        <-Nat.add_assoc, (Nat.add_comm (nevict _ (cache_list_ s))), Nat.add_assoc.
      rewrite <-nevict_cons, nevict_erase_cons by done. done.
    + rewrite !nevict_app, nevict_cons, unlisted_not_evictable; [done..|].
      mem_solve.
  - (* more than k accesses: to the front of the cache list *)
    assert (f ∉ history_list_ s) as Hfh.
    { intros Hin. apply Hhist in Hin. lia. }
    case_bool_decide as Hfc; intros [= <-]; apply wf_touch;
      try done; try lia; try (mem_solve; fail).
    + intros g. destruct (decide (g = f)); mem_solve.
    + by rewrite !nevict_app, nevict_erase_cons.
    + rewrite !nevict_app, nevict_cons, unlisted_not_evictable; [done..|].
      mem_solve.
  - (* fewer than k accesses: the history list, entered once *)
    assert (f ∉ cache_list_ s) as Hfc.
    { intros Hin. apply Hcache in Hin. lia. }
    case_bool_decide as Hfh; simpl; intros [= <-]; apply wf_touch;
      simpl; try done; try lia; try (mem_solve; fail).
    rewrite nevict_cons, unlisted_not_evictable; [done..|].
    mem_solve.
Qed.

(** The flag of one frame of a duplicate-free list changes. *)
Lemma nevict_update ev ev' f l :
  NoDup l → f ∈ l → (∀ g, g ≠ f → ev' g = ev g) →
  nevict ev' l + (if ev f then 1 else 0) = nevict ev l + (if ev' f then 1 else 0).
Proof.
  intros Hnd Hin Hext.
  destruct (erase_split f l Hin) as (l1 & l2 & -> & _ & Hl1).
  apply NoDup_app in Hnd as (_ & Hd & [Hl2 _]%NoDup_cons).
  rewrite !nevict_app, !nevict_cons.
  rewrite (nevict_ext ev' ev l1), (nevict_ext ev' ev l2); [lia| |].
  - intros g Hg. apply Hext. by intros ->.
  - intros g Hg. apply Hext. by intros ->.
Qed.

Lemma nevict_update_notin ev ev' f l :
  f ∉ l → (∀ g, g ≠ f → ev' g = ev g) → nevict ev' l = nevict ev l.
Proof. intros Hf Hext. apply nevict_ext. intros g Hg. apply Hext. by intros ->. Qed.

Lemma nevict_pos ev f l : f ∈ l → ev f = true → 0 < nevict ev l.
Proof.
  intros (l1 & l2 & -> & _)%erase_split Hf.
  rewrite nevict_app, nevict_cons, Hf. lia.
Qed.

Lemma SetEvictable_wf s f b s' :
  wf s → (curr_size_ s + 1 < 2 ^ 64)%N → SetEvictable s f b = Ok s' → wf s'.
Proof.
  intros Hwf Hlt. unfold SetEvictable.
  destruct (_ >? _)%Z; [done|].
  destruct (count s f =? 0)%N eqn:Hc; [by intros [= <-]|].
  apply N.eqb_neq in Hc. intros [= <-].
  pose proof (wf_nodup s Hwf) as Hnd.
  assert (f ∈ history_list_ s ++ cache_list_ s) as Hin
    by by apply (wf_listed s Hwf).
  set (s1 := mk _ _ _ _ _ _ _).
  assert (∀ g, g ≠ f → evictable s1 g = evictable s g) as Hext.
  { intros g Hg. unfold s1. by rewrite evictable_insert_ne. }
  assert (evictable s1 f = b) as Hb by apply evictable_insert.
  pose proof (nevict_update (evictable s) (evictable s1) f _ Hnd Hin Hext) as Hn.
  pose proof (wf_curr_size s Hwf) as Hcs.
  constructor; try apply Hwf.
  - intros g Hg. destruct (decide (g = f)) as [->|Hne]; [done|].
    apply (wf_evictable s Hwf). by rewrite <-Hext.
  - simpl. rewrite Hb in Hn.
    destruct (evictable s f) eqn:Hev, b; simpl.
    + lia.
    + rewrite size_t_dec_pos; [lia|].
      pose proof (nevict_pos _ _ _ Hin Hev). lia.
    + rewrite size_t_inc_small by done. lia.
    + lia.
  - simpl. destruct (evictable s f) eqn:Hev, b; simpl; try lia.
    + rewrite size_t_dec_pos; [lia|].
      pose proof (nevict_pos _ _ _ Hin Hev). lia.
    + rewrite size_t_inc_small by done. lia.
Qed.

(** An evictable frame loses its node, its access count and its flag. *)
Definition drop (s : t) (f : Z) : t :=
  mk (replacer_size_ s) (k_ s) (size_t_dec (curr_size_ s))
     (<[f := 0%N]> (access_count_ s)) (<[f := false]> (is_evictable_ s))
     (erase f (history_list_ s)) (erase f (cache_list_ s)).

Lemma wf_drop s f : wf s → evictable s f = true → wf (drop s f).
Proof.
  intros Hwf Hev. unfold drop. set (s1 := mk _ _ _ _ _ _ _).
  pose proof (wf_nodup s Hwf) as Hnd.
  assert (f ∈ history_list_ s ++ cache_list_ s) as Hin.
  { apply (wf_listed s Hwf). by apply (wf_evictable s Hwf). }
  pose proof (nevict_pos _ _ _ Hin Hev) as Hpos.
  pose proof (wf_curr_size s Hwf) as Hcs.
  pose proof (wf_bound s Hwf) as Hbd.
  apply NoDup_app in Hnd as Hnd'. destruct Hnd' as (Hh & Hdisj & Hc).
  assert (∀ g, g ≠ f → evictable s1 g = evictable s g) as Hext.
  { intros g Hg. unfold s1. by rewrite evictable_insert_ne. }
  assert (∀ g, g ≠ f → count s1 g = count s g) as Hcnt.
  { intros g Hg. unfold s1. by rewrite count_insert_ne. }
  assert (evictable s1 f = false) as Hf by apply evictable_insert.
  assert (count s1 f = 0%N) as Hf0 by apply count_insert.
  assert (f ∉ history_list_ s1 ++ cache_list_ s1) as Hnin by (simpl; mem_solve).
  constructor.
  - simpl. mem_solve.
  - intros g. destruct (decide (g = f)) as [->|Hne].
    + rewrite Hf0. intuition.
    + rewrite Hcnt, <-(wf_listed s Hwf) by done. simpl. mem_solve.
  - intros g. simpl. rewrite elem_of_erase by done. intros [Hg Hne].
    rewrite Hcnt by done. by apply (wf_history s Hwf).
  - intros g. simpl. rewrite elem_of_erase by done. intros [Hg Hne].
    rewrite Hcnt by done. by apply (wf_cache s Hwf).
  - intros g Hg. destruct (decide (g = f)) as [->|Hne]; [congruence|].
    rewrite Hcnt by done. apply (wf_evictable s Hwf). by rewrite <-Hext.
  - rewrite (nevict_update_notin (evictable s) _ f) by done.
    assert (nevict (evictable s) (history_list_ s ++ cache_list_ s) =
            S (nevict (evictable s) (history_list_ s1 ++ cache_list_ s1))) as Hn.
    { simpl. apply elem_of_app in Hin as [Hin|Hin].
      - rewrite (erase_not_in f (cache_list_ s)) by (by apply Hdisj).
        rewrite !nevict_app.
        rewrite <-(nevict_erase_cons (evictable s) f (history_list_ s)) by done.
        rewrite nevict_cons, Hev. lia.
      - assert (f ∉ history_list_ s) by (intros ?; by apply (Hdisj f)).
        rewrite (erase_not_in f (history_list_ s)) by done.
        rewrite !nevict_app.
        rewrite <-(nevict_erase_cons (evictable s) f (cache_list_ s)) by done.
        rewrite nevict_cons, Hev. lia. }
    simpl. rewrite size_t_dec_pos by lia. simpl in Hn. lia.
  - simpl. rewrite size_t_dec_pos by lia. lia.
Qed.

Lemma Evict_wf s f s' : wf s → Evict s = Some (f, s') → wf s'.
Proof.
  intros Hwf. unfold Evict.
  destruct (curr_size_ s =? 0)%N; [done|].
  pose proof (wf_nodup s Hwf) as (Hh & Hdisj & Hc)%NoDup_app.
  destruct (List.find _ (rev (history_list_ s))) as [f1|] eqn:Hfh.
  - intros [= -> <-]. apply find_rev_Some in Hfh as Hv.
    pose proof (victim_of_elem _ _ _ Hv) as Hin.
    destruct Hv as (_ & _ & _ & Hev & _).
    replace (evict_from_history s f) with (drop s f); [by apply wf_drop|].
    unfold drop, evict_from_history.
    by rewrite (erase_not_in f (cache_list_ s)) by (by apply Hdisj).
  - destruct (List.find _ (rev (cache_list_ s))) as [f2|] eqn:Hfc; [|done].
    intros [= -> <-]. apply find_rev_Some in Hfc as Hv.
    pose proof (victim_of_elem _ _ _ Hv) as Hin.
    destruct Hv as (_ & _ & _ & Hev & _).
    replace (evict_from_cache s f) with (drop s f); [by apply wf_drop|].
    unfold drop, evict_from_cache.
    by rewrite (erase_not_in f (history_list_ s))
      by (intros ?; by apply (Hdisj f)).
Qed.

(** [Remove] keeps the members consistent when the caller respects its
    contract: the frame is evictable, or was never accessed. *)
Lemma Remove_wf s f s' :
  wf s → evictable s f = true ∨ count s f = 0%N →
  Remove s f = Ok s' → wf s'.
Proof.
  intros Hwf Hpre. unfold Remove.
  destruct (_ >? _)%Z; [done|].
  destruct (count s f =? 0)%N eqn:Hc0; [by intros [= <-]|].
  apply N.eqb_neq in Hc0. destruct Hpre as [Hev|?]; [|done].
  pose proof (wf_nodup s Hwf) as (Hh & Hdisj & Hc)%NoDup_app.
  destruct (k_ s <=? count s f)%N eqn:Hk; intros [= <-].
  - apply N.leb_le in Hk.
    assert (f ∉ history_list_ s).
    { intros Hin%(wf_history s Hwf). lia. }
    rewrite <-(erase_not_in f (history_list_ s)) by done.
    by apply wf_drop.
  - apply N.leb_gt in Hk.
    assert (f ∉ cache_list_ s).
    { intros Hin%(wf_cache s Hwf). lia. }
    rewrite <-(erase_not_in f (cache_list_ s)) by done.
    by apply wf_drop.
Qed.

(** ** The result of [Evict] *)

Lemma Evict_Some (s : t) f s' :
  wf s → Evict s = Some (f, s') →
  (victim_of (evictable s) (history_list_ s) f ∨
   (Forall (λ g, evictable s g = false) (history_list_ s) ∧
    victim_of (evictable s) (cache_list_ s) f)) ∧
  evicted s f s'.
Proof.
  intros Hwf. unfold Evict.
  destruct (curr_size_ s =? 0)%N eqn:Hcs; [done|].
  apply N.eqb_neq in Hcs.
  destruct (List.find _ (rev (history_list_ s))) as [f1|] eqn:Hh.
  - intros [= -> <-]. split.
    + left. by apply find_rev_Some.
    + apply evict_from_history_evicted; [done..|].
      by apply (victim_of_elem (evictable s)), find_rev_Some.
  - apply find_rev_None in Hh.
    destruct (List.find _ (rev (cache_list_ s))) as [f2|] eqn:Hc; [|done].
    intros [= -> <-]. apply find_rev_Some in Hc as Hv. split.
    + right. by split.
    + apply evict_from_cache_evicted; [done..|].
      intros Hin. rewrite Forall_forall in Hh. specialize (Hh f Hin).
      destruct Hv as (_ & _ & _ & Hf & _). congruence.
Qed.

Lemma Evict_None (s : t) :
  wf s → Evict s = None ↔ ∀ f, evictable s f = false.
Proof.
  intros Hwf. rewrite <-(curr_size_zero s Hwf). unfold Evict.
  destruct (curr_size_ s =? 0)%N eqn:Hcs.
  { apply N.eqb_eq in Hcs. by split. }
  apply N.eqb_neq in Hcs. split; [|done].
  destruct (List.find _ (rev (history_list_ s))) as [f1|] eqn:Hh; [done|].
  destruct (List.find _ (rev (cache_list_ s))) as [f2|] eqn:Hc; [done|].
  intros _. apply find_rev_None in Hh, Hc. exfalso. apply Hcs.
  apply (curr_size_zero s Hwf). intros f.
  destruct (evictable s f) eqn:Hf; [|done].
  assert (f ∈ history_list_ s ++ cache_list_ s) as Hin.
  { apply (wf_listed s Hwf). by apply (wf_evictable s Hwf). }
  rewrite Forall_forall in Hh, Hc.
  apply elem_of_app in Hin as [Hin|Hin]; [apply Hh in Hin|apply Hc in Hin];
    congruence.
Qed.

Lemma victim_evictable ev l f : victim_of ev l f → ev f = true.
Proof. by intros (_ & _ & _ & ? & _). Qed.

(** ** Claim C2 *)

(** C2. For every replacer whose members are consistent, [Evict] returns the
    evictable frame closest to the least-recent end of the history list;
    only when no frame of the history list is evictable does it return the
    evictable frame closest to the least-recent end of the cache list.  On
    success the access count and the evictable flag of the returned frame are
    cleared, its node is gone, the evictable count dropped by one and no other
    frame changed.  [Evict] fails exactly when no frame is evictable.  In
    scenario S2 (K = 2, three frames; accesses 1,1,2,2,2,3; all three set
    evictable) it returns frame 3. *)
Theorem evict_spec (s : t) (Hwf : wf s) :
  (∀ f s', Evict s = Some (f, s') →
     (victim_of (evictable s) (history_list_ s) f ∨
      (Forall (λ g, evictable s g = false) (history_list_ s) ∧
       victim_of (evictable s) (cache_list_ s) f)) ∧
     evicted s f s') ∧
  (Evict s = None ↔ ∀ f, evictable s f = false) ∧
  scenario_S2 = Ok (Some 3%Z).
Proof.
  split_and!.
  - intros f s'. by apply Evict_Some.
  - by apply Evict_None.
  - done.
Qed.

(** ** The effect of the member functions on one frame *)

Lemma RecordAccess_effect r f r' :
  RecordAccess r f = Ok r' →
  replacer_size_ r' = replacer_size_ r ∧
  count r' f = size_t_inc (count r f) ∧
  (∀ g, g ≠ f → count r' g = count r g) ∧
  (∀ g, evictable r' g = evictable r g).
Proof.
  unfold RecordAccess. destruct (_ >? _)%Z; [done|].
  repeat case_match; intros [= <-]; split_and!; try done;
    try apply count_insert; intros g Hg; by apply count_insert_ne.
Qed.

Lemma SetEvictable_effect r f b r' :
  SetEvictable r f b = Ok r' →
  replacer_size_ r' = replacer_size_ r ∧
  (∀ g, count r' g = count r g) ∧
  (count r f ≠ 0%N → evictable r' f = b) ∧
  (count r f = 0%N → r' = r) ∧
  (∀ g, g ≠ f → evictable r' g = evictable r g).
Proof.
  unfold SetEvictable. destruct (_ >? _)%Z; [done|].
  destruct (count r f =? 0)%N eqn:Hc; intros [= <-].
  - apply N.eqb_eq in Hc. by split_and!.
  - apply N.eqb_neq in Hc. split_and!; try done.
    + intros _. apply evictable_insert.
    + intros g Hg. by apply evictable_insert_ne.
Qed.

Lemma Remove_effect r f r' :
  wf r → Remove r f = Ok r' →
  replacer_size_ r' = replacer_size_ r ∧
  count r' f = 0%N ∧ evictable r' f = false ∧
  (∀ g, g ≠ f → count r' g = count r g ∧ evictable r' g = evictable r g).
Proof.
  intros Hwf. unfold Remove. destruct (_ >? _)%Z; [done|].
  destruct (count r f =? 0)%N eqn:Hc.
  - apply N.eqb_eq in Hc. intros [= <-]. split_and!; try done.
    destruct (evictable r f) eqn:He; [|done].
    by apply (wf_evictable r Hwf) in He.
  - destruct (k_ r <=? count r f)%N; intros [= <-]; split_and!; try done;
      try apply count_insert; try apply evictable_insert;
      intros g Hg; by rewrite count_insert_ne, evictable_insert_ne.
Qed.

Lemma Evict_size r f r' : Evict r = Some (f, r') → replacer_size_ r' = replacer_size_ r.
Proof.
  unfold Evict. repeat case_match; try done; by intros [= _ <-].
Qed.

Lemma in_range_no_throw (n : N) f :
  (n < 2 ^ 31)%N → (f ≤ Z.of_N n)%Z → (f >? int_of_size_t n)%Z = false.
Proof.
  intros Hn Hf. unfold int_of_size_t. rewrite Z.mod_small by lia.
  destruct (_ <? _)%Z eqn:Hc; [lia|]. apply Z.ltb_ge in Hc. lia.
Qed.

Lemma RecordAccess_Ok r f :
  (replacer_size_ r < 2 ^ 31)%N → (f ≤ Z.of_N (replacer_size_ r))%Z →
  ∃ r', RecordAccess r f = Ok r'.
Proof.
  intros Hn Hf. unfold RecordAccess. rewrite in_range_no_throw by done.
  repeat case_match; by eexists.
Qed.

Lemma SetEvictable_Ok r f b :
  (replacer_size_ r < 2 ^ 31)%N → (f ≤ Z.of_N (replacer_size_ r))%Z →
  ∃ r', SetEvictable r f b = Ok r'.
Proof.
  intros Hn Hf. unfold SetEvictable. rewrite in_range_no_throw by done.
  repeat case_match; by eexists.
Qed.

Lemma Remove_Ok r f :
  (replacer_size_ r < 2 ^ 31)%N → (f ≤ Z.of_N (replacer_size_ r))%Z →
  ∃ r', Remove r f = Ok r'.
Proof.
  intros Hn Hf. unfold Remove. rewrite in_range_no_throw by done.
  repeat case_match; by eexists.
Qed.

(** A replacer of three frames with K = 2 in which frame 1 has been accessed
    once and set evictable. *)
Definition replacer_one : t :=
  mk 3 2 1 {[1%Z := 1%N]} {[1%Z := true]} [1%Z] [].

Lemma replacer_one_wf : wf replacer_one.
Proof.
  apply (SetEvictable_wf (mk 3 2 0 {[1%Z := 1%N]} ∅ [1%Z] []) 1 true).
  - apply (RecordAccess_wf (init 3 2) 1); [apply wf_init|done|done].
  - done.
  - done.
Qed.

Lemma evict_spec_witness :
  wf replacer_one ∧
  (∀ f s', Evict replacer_one = Some (f, s') →
     (victim_of (evictable replacer_one) (history_list_ replacer_one) f ∨
      (Forall (λ g, evictable replacer_one g = false) (history_list_ replacer_one) ∧
       victim_of (evictable replacer_one) (cache_list_ replacer_one) f)) ∧
     evicted replacer_one f s') ∧
  (Evict replacer_one = None ↔ ∀ f, evictable replacer_one f = false) ∧
  scenario_S2 = Ok (Some 3%Z).
Proof.
  split; [apply replacer_one_wf|].
  apply (evict_spec replacer_one). apply replacer_one_wf.
Defined.

(** ** Claim C9 *)

(** C9 fails on the code.  The guard of the three member functions is
    [frame_id > replacer_size_]: the frame id [num_frames] itself passes it,
    as does every negative id.  No call on the frame id equal to the number
    of frames throws, and [RecordAccess] changes the replacer: on a fresh
    replacer of three frames, [RecordAccess(3)] gives frame 3 an access count
    and a node of the history list, after which [SetEvictable(3, true)] makes
    it evictable and [Remove(3)] takes it out again. *)
Theorem frame_id_num_frames_accepted :
  (∀ s b,
     RecordAccess s (int_of_size_t (replacer_size_ s)) ≠ Throw ∧
     SetEvictable s (int_of_size_t (replacer_size_ s)) b ≠ Throw ∧
     Remove s (int_of_size_t (replacer_size_ s)) ≠ Throw) ∧
  int_of_size_t 3 = 3%Z ∧
  RecordAccess (init 3 2) 3 = Ok (mk 3 2 0 {[3%Z := 1%N]} ∅ [3%Z] []) ∧
  SetEvictable (mk 3 2 0 {[3%Z := 1%N]} ∅ [3%Z] []) 3 true
    = Ok (mk 3 2 1 {[3%Z := 1%N]} {[3%Z := true]} [3%Z] []) ∧
  Remove (mk 3 2 1 {[3%Z := 1%N]} {[3%Z := true]} [3%Z] []) 3
    = Ok (mk 3 2 0 {[3%Z := 0%N]} {[3%Z := false]} [] []) ∧
  RecordAccess (init 3 2) (-1) ≠ Throw.
Proof.
  split_and!; try done.
  intros s b. unfold RecordAccess, SetEvictable, Remove.
  assert ((int_of_size_t (replacer_size_ s) >? int_of_size_t (replacer_size_ s))%Z
          = false) as -> by lia.
  split_and!.
  - repeat case_match; done.
  - repeat case_match; done.
  - repeat case_match; done.
Qed.

End LRUKFacts.

(** * Properties of the extendible hash table *)

Module EHTFacts.
Import EHT.

(** ** Masks and bits *)

Lemma land_mask h n : Nat.land h (Nat.shiftl 1 n - 1) = h mod 2 ^ n.
Proof.
  rewrite Nat.shiftl_1_l, <-Nat.land_ones. f_equal.
  rewrite Nat.ones_equiv. lia.
Qed.

Lemma land_bit h n :
  Nat.land h (Nat.shiftl 1 n) = if Nat.testbit h n then 2 ^ n else 0.
Proof.
  rewrite Nat.shiftl_1_l. apply Nat.bits_inj. intros m.
  rewrite Nat.land_spec, Nat.pow2_bits_eqb.
  destruct (Nat.eqb_spec n m) as [->|Hne].
  - rewrite andb_true_r. destruct (Nat.testbit h m) eqn:Hb.
    + by rewrite Nat.pow2_bits_true.
    + by rewrite Nat.bits_0.
  - rewrite andb_false_r. destruct (Nat.testbit h n).
    + by rewrite Nat.pow2_bits_false.
    + by rewrite Nat.bits_0.
Qed.

Lemma land_bit_nonzero h n :
  Nat.land h (Nat.shiftl 1 n) ≠ 0 ↔ Nat.testbit h n = true.
Proof.
  rewrite land_bit. destruct (Nat.testbit h n); [|intuition congruence].
  assert (2 ^ n ≠ 0) by (apply Nat.pow_nonzero; lia). intuition.
Qed.

Lemma pow2_pos n : 0 < 2 ^ n.
Proof. assert (2 ^ n ≠ 0) by (apply Nat.pow_nonzero; lia). lia. Qed.

Lemma mod_pow2_succ a n :
  a mod 2 ^ S n = a mod 2 ^ n + (if Nat.testbit a n then 2 ^ n else 0).
Proof.
  rewrite Nat.pow_succ_r', (Nat.mul_comm 2), Nat.Div0.mod_mul_r.
  f_equal. rewrite <-Nat.testbit_spec'. destruct (Nat.testbit a n); simpl; lia.
Qed.

Lemma mod_pow2_succ_eq a b n :
  a mod 2 ^ S n = b mod 2 ^ S n ↔
  a mod 2 ^ n = b mod 2 ^ n ∧ Nat.testbit a n = Nat.testbit b n.
Proof.
  rewrite !mod_pow2_succ.
  pose proof (Nat.mod_upper_bound a (2 ^ n)) as Ha.
  pose proof (Nat.mod_upper_bound b (2 ^ n)) as Hb.
  pose proof (pow2_pos n).
  destruct (Nat.testbit a n), (Nat.testbit b n); split; intros; try lia;
    try (split; [lia|done]); exfalso; lia.
Qed.

Lemma mod_pow2_le a b n m :
  n ≤ m → a mod 2 ^ m = b mod 2 ^ m → a mod 2 ^ n = b mod 2 ^ n.
Proof.
  induction 1 as [|m Hle IH]; [done|].
  intros [H _]%mod_pow2_succ_eq. by apply IH.
Qed.

Lemma mod_mod_pow2 a n m : n ≤ m → (a mod 2 ^ m) mod 2 ^ n = a mod 2 ^ n.
Proof.
  intros Hle. apply (mod_pow2_le _ _ n m Hle).
  apply Nat.Div0.mod_mod.
Qed.

Lemma mod_pow2_bit a b n d :
  a mod 2 ^ n = b mod 2 ^ n → d < n → Nat.testbit a d = Nat.testbit b d.
Proof.
  intros Hab Hd. apply (mod_pow2_le a b (S d) n) in Hab; [|lia].
  by apply mod_pow2_succ_eq in Hab as [_ ?].
Qed.

Lemma testbit_add_pow2 i n m :
  m < n → Nat.testbit (2 ^ n + i) m = Nat.testbit i m.
Proof.
  intros Hm. apply (mod_pow2_bit _ _ n); [|done].
  rewrite <-Nat.Div0.add_mod_idemp_l, Nat.Div0.mod_same. done.
Qed.

Section facts.
Context {K V : Type} `{EqDecision K}.
Variable hash : K → nat.

Abbreviation Bucket := (Bucket K V).
Abbreviation t := (t K V).

(** ** The doubling of the directory *)

Lemma double_dir_loop (dir : list (option nat)) n :
  n ≤ length dir →
  foldl (λ d inx, <[length dir + inx := d !!! inx]> d)
        (dir ++ replicate (length dir) None) (seq 0 n)
  = dir ++ take n dir ++ replicate (length dir - n) None.
Proof.
  induction n as [|n IH]; intros Hn.
  - simpl. by rewrite Nat.sub_0_r.
  - rewrite seq_S, foldl_app, IH by lia. simpl.
    destruct (lookup_lt_is_Some_2 dir n) as [x Hx]; [lia|].
    rewrite (list_lookup_total_correct _ _ x) by (by apply lookup_app_l_Some).
    rewrite insert_app_r, insert_app_r_alt by (rewrite length_take; lia).
    rewrite length_take, Nat.min_l, Nat.sub_diag by lia.
    replace (length dir - n) with (S (length dir - S n)) by lia. simpl.
    rewrite (take_S_r _ _ x) by done. by rewrite <-app_assoc.
Qed.

Lemma double_dir_app (dir : list (option nat)) : double_dir dir = dir ++ dir.
Proof.
  unfold double_dir.
  replace (Nat.shiftl (length dir) 1 - length dir) with (length dir)
    by (rewrite Nat.shiftl_mul_pow2; simpl; lia).
  rewrite double_dir_loop by done.
  by rewrite firstn_all, Nat.sub_diag, app_nil_r.
Qed.

Lemma redirect_length mask target r0 r1 (dir : list (option nat)) :
  length (redirect mask target r0 r1 dir) = length dir.
Proof. unfold redirect. by rewrite length_imap. Qed.

Lemma redirect_lookup mask target r0 r1 (dir : list (option nat)) i :
  redirect mask target r0 r1 dir !! i =
  (λ p, if decide (p = Some target)
        then (if decide (Nat.land i mask ≠ 0) then Some r1 else Some r0)
        else p) <$> dir !! i.
Proof. unfold redirect. by rewrite list_lookup_imap. Qed.

(** ** Lists of items *)

Lemma lookup_items_None key (l : list (K * V)) :
  lookup_items key l = None ↔ key ∉ l.*1.
Proof.
  induction l as [|[k v] l IH]; simpl.
  - split; [intros _; apply not_elem_of_nil | done].
  - rewrite not_elem_of_cons. destruct (decide (k = key)) as [->|Hne].
    + split; [done | by intros [? _]].
    + rewrite IH. intuition.
Qed.

Lemma lookup_items_Some key v (l : list (K * V)) :
  lookup_items key l = Some v → (key, v) ∈ l.
Proof.
  induction l as [|[k v'] l IH]; simpl; [done|].
  destruct (decide (k = key)) as [->|Hne].
  - intros [= ->]. by left.
  - intros ?%IH. by right.
Qed.

Lemma lookup_items_app_None key value (l : list (K * V)) :
  lookup_items key l = None → lookup_items key (l ++ [(key, value)]) = Some value.
Proof.
  induction l as [|[k v'] l IH]; simpl.
  - intros _. by rewrite decide_True.
  - destruct (decide (k = key)); [done | apply IH].
Qed.

Lemma lookup_items_assign key value (l : list (K * V)) :
  is_Some (lookup_items key l) →
  lookup_items key (assign_items key value l) = Some value.
Proof.
  induction l as [|[k v'] l IH]; simpl; [by intros [? ?]|].
  destruct (decide (k = key)) as [->|Hne]; simpl.
  - intros _. by rewrite decide_True.
  - intros Hs. rewrite decide_False by done. by apply IH.
Qed.

Lemma assign_items_keys key value (l : list (K * V)) :
  (assign_items key value l).*1 = l.*1.
Proof.
  induction l as [|[k v'] l IH]; [done|]. simpl.
  destruct (decide (k = key)); csimpl; [done | by rewrite IH].
Qed.

Lemma erase_items_sublist key (l : list (K * V)) : erase_items key l `sublist_of` l.
Proof.
  induction l as [|[k v] l IH]; simpl; [done|].
  destruct (decide (k = key)); [by apply sublist_cons | by apply sublist_skip].
Qed.

Lemma elem_of_keys (k : K) (v : V) (l : list (K * V)) : (k, v) ∈ l → k ∈ l.*1.
Proof. intros Hin. apply list_elem_of_fmap. by exists (k, v). Qed.

(** ** The invariant of the directory *)

(** The slot [i] points to a bucket of the store; the slots that point to the
    same bucket are those that agree with [i] on the low [depth_] bits; the
    hashes of the keys of the bucket agree with [i] on these bits; the
    bucket has the capacity of the table, no more items than its capacity
    and no key twice. *)
Definition slot_ok (s : t) (i : nat) : Prop :=
  ∃ r b, bucket_at s i = Some (r, b) ∧
    depth_ b ≤ global_depth_ s ∧
    (∀ j, j < length (dir_ s) →
       bucket_ref s j = Some r ↔ j mod 2 ^ depth_ b = i mod 2 ^ depth_ b) ∧
    (∀ k, k ∈ (list_ b).*1 → hash k mod 2 ^ depth_ b = i mod 2 ^ depth_ b) ∧
    size_ b = bucket_size_ s ∧
    length (list_ b) ≤ size_ b ∧
    NoDup (list_ b).*1.

Record Inv (s : t) : Prop := {
  inv_length : length (dir_ s) = 2 ^ global_depth_ s;
  inv_slot : ∀ i, i < length (dir_ s) → slot_ok s i
}.

Lemma IndexOf_mod (s : t) key : IndexOf hash s key = hash key mod 2 ^ global_depth_ s.
Proof. unfold IndexOf. apply land_mask. Qed.

Lemma IndexOf_lt (s : t) key : Inv s → IndexOf hash s key < length (dir_ s).
Proof.
  intros Hinv. rewrite IndexOf_mod, (inv_length s Hinv).
  apply Nat.mod_upper_bound. apply Nat.pow_nonzero. lia.
Qed.

Lemma bucket_at_Some (s : t) i r b :
  bucket_at s i = Some (r, b) ↔ bucket_ref s i = Some r ∧ heap_ s !! r = Some b.
Proof.
  unfold bucket_at. destruct (bucket_ref s i) as [r'|]; simpl; [|naive_solver].
  destruct (heap_ s !! r') as [b'|] eqn:Hb; simpl; naive_solver.
Qed.

Lemma Inv_init bucket_size : Inv (init bucket_size).
Proof.
  constructor; [done|]. simpl. intros i Hi. assert (i = 0) as -> by lia.
  exists 0, (mkBucket bucket_size 0 []). split_and!; simpl; try done.
  - intros j Hj. assert (j = 0) as -> by lia. done.
  - lia.
  - constructor.
Qed.

(** The bucket [r] of the store is replaced by a bucket of the same depth and
    capacity whose keys belong to it. *)
Lemma Inv_update (s : t) idx r b b' :
  Inv s → idx < length (dir_ s) → bucket_at s idx = Some (r, b) →
  depth_ b' = depth_ b → size_ b' = size_ b →
  length (list_ b') ≤ size_ b' → NoDup (list_ b').*1 →
  (∀ k, k ∈ (list_ b').*1 → hash k mod 2 ^ depth_ b = idx mod 2 ^ depth_ b) →
  Inv (mk (bucket_size_ s) (global_depth_ s) (num_buckets_ s) (dir_ s)
          (<[r := b']> (heap_ s))).
Proof.
  intros Hinv Hidx Hat Hd Hsz Hlen Hnd Hk.
  apply bucket_at_Some in Hat as [Hr Hb].
  constructor; [apply (inv_length s Hinv)|]. simpl. intros i Hi.
  destruct (inv_slot s Hinv i Hi)
    as (ri & bi & Hati & Hdi & Hagree & Hki & Hsi & Hli & Hni).
  apply bucket_at_Some in Hati as [Hri Hbi].
  destruct (decide (ri = r)) as [->|Hne].
  - assert (bi = b) as -> by congruence.
    exists r, b'. rewrite bucket_at_Some. unfold bucket_ref in *. simpl.
    split_and!; try done.
    + rewrite list_lookup_insert_eq; [done|]. by eapply lookup_lt_Some.
    + by rewrite Hd.
    + rewrite Hd. apply Hagree.
    + rewrite Hd. intros k Hkv. rewrite (Hk k Hkv).
      by apply (Hagree idx Hidx).
    + congruence.
  - exists ri, bi. rewrite bucket_at_Some. unfold bucket_ref in *. simpl.
    split_and!; try done. by rewrite list_lookup_insert_ne.
Qed.

Lemma Bucket_Remove_spec (b b' : Bucket) key res :
  Bucket_Remove b key = (res, b') →
  depth_ b' = depth_ b ∧ size_ b' = size_ b ∧ list_ b' `sublist_of` list_ b.
Proof.
  unfold Bucket_Remove.
  destruct (list_ b) eqn:Hl; [intros [= <- <-]; by rewrite Hl|].
  rewrite <-Hl. destruct (lookup_items key (list_ b)); intros [= <- <-]; simpl.
  - split_and!; [done..|]. apply erase_items_sublist.
  - done.
Qed.

Lemma Remove_Inv (s s' : t) key res :
  Inv s → Remove hash s key = Some (res, s') → Inv s'.
Proof.
  intros Hinv. unfold Remove.
  destruct (bucket_at s (IndexOf hash s key)) as [[r b]|] eqn:Hat; [|done]. simpl.
  pose proof (IndexOf_lt s key Hinv) as Hlt.
  destruct (inv_slot s Hinv _ Hlt) as (r' & b' & Hat' & Hd & _ & Hk & Hsz & Hlen & Hnd).
  rewrite Hat in Hat'. injection Hat' as <- <-.
  destruct (Bucket_Remove b key) as [res' b1] eqn:Hrem. intros [= <- <-].
  apply Bucket_Remove_spec in Hrem as (Hd1 & Hs1 & Hsub).
  eapply (Inv_update s _ r b b1); try done.
  - rewrite Hs1. etrans; [by apply sublist_length|done].
  - eapply sublist_NoDup; [done|]. by apply fmap_sublist.
  - intros k Hin. apply Hk.
    eapply elem_of_sublist; [done|]. by apply fmap_sublist.
Qed.

Lemma store_Inv (s s' : t) key value r b :
  Inv s → bucket_at s (IndexOf hash s key) = Some (r, b) → IsFull b = false →
  store hash s key value = Some s' → Inv s'.
Proof.
  intros Hinv Hat Hfull. unfold store. rewrite Hat. simpl.
  pose proof (IndexOf_lt s key Hinv) as Hlt.
  destruct (inv_slot s Hinv _ Hlt) as (r' & b' & Hat' & Hd & _ & Hk & Hsz & Hlen & Hnd).
  rewrite Hat in Hat'. injection Hat' as <- <-.
  unfold GetItems, Bucket_Insert. rewrite Hfull.
  destruct (lookup_items key (list_ b)) as [v|] eqn:Hlk; intros [= <-].
  - eapply (Inv_update s _ r b); try done; simpl.
    + rewrite <-(length_fmap fst), assign_items_keys, length_fmap. done.
    + by rewrite assign_items_keys.
    + intros k. rewrite assign_items_keys. apply Hk.
  - apply lookup_items_None in Hlk.
    unfold IsFull in Hfull. apply bool_decide_eq_false in Hfull.
    eapply (Inv_update s _ r b); try done; simpl.
    + rewrite length_app. simpl. lia.
    + rewrite fmap_app. simpl. apply NoDup_app. split_and!; [done| |].
      * intros k Hin ->%list_elem_of_singleton. done.
      * apply NoDup_singleton.
    + intros k. rewrite fmap_app, elem_of_app. simpl.
      intros [Hin| ->%list_elem_of_singleton]; [by apply Hk|].
      rewrite IndexOf_mod. symmetry. by apply mod_mod_pow2.
Qed.

(** ** The distribution of the items at a split *)

Definition goes_to_1 (mask : nat) (kv : K * V) : Prop := Nat.land (hash kv.1) mask ≠ 0.
Definition goes_to_0 (mask : nat) (kv : K * V) : Prop := Nat.land (hash kv.1) mask = 0.

#[local] Instance goes_to_1_dec mask kv : Decision (goes_to_1 mask kv).
Proof. unfold goes_to_1. apply _. Defined.
#[local] Instance goes_to_0_dec mask kv : Decision (goes_to_0 mask kv).
Proof. unfold goes_to_0. apply _. Defined.

Lemma Bucket_Insert_fresh bs d (a : list (K * V)) k v :
  length a < bs → k ∉ a.*1 →
  Bucket_Insert (mkBucket bs d a) k v = (true, mkBucket bs d (a ++ [(k, v)])).
Proof.
  intros Hlen Hk. unfold Bucket_Insert, IsFull. simpl.
  rewrite bool_decide_eq_false_2 by lia.
  apply lookup_items_None in Hk. by rewrite Hk.
Qed.

Lemma distribute_app mask bs d (l a0 a1 : list (K * V)) :
  NoDup (a0 ++ a1 ++ l).*1 → length (a0 ++ a1 ++ l) ≤ bs →
  distribute hash mask l (mkBucket bs d a0) (mkBucket bs d a1) =
  (mkBucket bs d (a0 ++ filter (goes_to_0 mask) l),
   mkBucket bs d (a1 ++ filter (goes_to_1 mask) l)).
Proof.
  unfold distribute.
  revert a0 a1. induction l as [|[k v] l IH]; intros a0 a1 Hnd Hlen.
  - simpl. by rewrite !app_nil_r.
  - assert ((k ∉ a0.*1) ∧ (k ∉ a1.*1)) as [Hk0 Hk1].
    { rewrite !fmap_app, fmap_cons in Hnd.
      apply NoDup_app in Hnd as (Hn0 & Hd0 & Hnd').
      apply NoDup_app in Hnd' as (Hn1 & Hd1 & _). split.
      - intros Hin. apply (Hd0 k Hin). apply elem_of_app. right. by left.
      - intros Hin. apply (Hd1 k Hin). by left. }
    assert (length a0 + length a1 < bs) as Hlt.
    { rewrite !length_app in Hlen. simpl in Hlen. lia. }
    cbn [foldl]. rewrite !filter_cons.
    destruct (decide (Nat.land (hash k) mask ≠ 0)) as [Hb|Hb].
    + rewrite (decide_False (P := goes_to_0 mask (k, v))) by done.
      rewrite (decide_True (P := goes_to_1 mask (k, v))) by done.
      rewrite Bucket_Insert_fresh by (done || lia). cbn [snd].
      rewrite IH, <-app_assoc; [done| |]; by rewrite <-app_assoc.
    + rewrite (decide_False (P := goes_to_1 mask (k, v))) by done.
      apply dec_stable in Hb.
      rewrite (decide_True (P := goes_to_0 mask (k, v))) by done.
      rewrite Bucket_Insert_fresh by (done || lia). cbn [snd].
      assert ((a0 ++ [(k, v)]) ++ a1 ++ l ≡ₚ a0 ++ a1 ++ (k, v) :: l) as Hp.
      { rewrite <-app_assoc. f_equiv. simpl. apply Permutation_middle. }
      rewrite IH, <-app_assoc; [done| |]; by rewrite Hp.
Qed.

Lemma distribute_spec mask bs d (l : list (K * V)) :
  NoDup l.*1 → length l ≤ bs →
  distribute hash mask l (mkBucket bs d []) (mkBucket bs d []) =
  (mkBucket bs d (filter (goes_to_0 mask) l),
   mkBucket bs d (filter (goes_to_1 mask) l)).
Proof. intros. by rewrite distribute_app. Qed.

(** ** The split keeps the invariant *)

Lemma bucket_ref_Some (s : t) i r :
  bucket_ref s i = Some r ↔ dir_ s !! i = Some (Some r).
Proof.
  unfold bucket_ref. destruct (dir_ s !! i) as [[r'|]|]; simpl; naive_solver.
Qed.

Lemma slot_ref (s : t) i :
  Inv s → i < length (dir_ s) →
  ∃ r, bucket_ref s i = Some r ∧ r < length (heap_ s).
Proof.
  intros Hinv Hi.
  destruct (inv_slot s Hinv i Hi) as (r & b & [Hr Hb]%bucket_at_Some & _).
  exists r. split; [done|]. by eapply lookup_lt_Some.
Qed.

(** The state after the split of the bucket [target] of depth [L], for a
    directory [dir1] of depth [gd1] that repeats the directory of [s]. *)
Lemma Inv_split (s : t) idx target tb dir1 gd1 nb :
  Inv s → idx < length (dir_ s) → bucket_at s idx = Some (target, tb) →
  length dir1 = 2 ^ gd1 → global_depth_ s ≤ gd1 → depth_ tb < gd1 →
  (∀ i, i < length dir1 → dir1 !! i = dir_ s !! (i mod 2 ^ global_depth_ s)) →
  let mask := Nat.shiftl 1 (depth_ tb) in
  Inv (mk (bucket_size_ s) gd1 nb
          (redirect mask target (length (heap_ s)) (S (length (heap_ s))) dir1)
          (heap_ s ++
             [mkBucket (bucket_size_ s) (depth_ tb + 1)
                       (filter (goes_to_0 mask) (list_ tb));
              mkBucket (bucket_size_ s) (depth_ tb + 1)
                       (filter (goes_to_1 mask) (list_ tb))])).
Proof.
  intros Hinv Hidx Hat Hlen1 Hgd HL Hdir1 mask.
  set (L := depth_ tb) in *. set (G := global_depth_ s) in *.
  set (r0 := length (heap_ s)). set (r1 := S (length (heap_ s))).
  set (b0 := mkBucket _ _ (filter (goes_to_0 mask) _)).
  set (b1 := mkBucket _ _ (filter (goes_to_1 mask) _)).
  set (s' := mk _ _ _ _ _).
  pose proof (inv_length s Hinv) as Hlen. fold G in Hlen.
  destruct (inv_slot s Hinv idx Hidx)
    as (rt & bt & Hat' & HdL & Hagt & Hkt & Hst & Hlt & Hnt).
  rewrite Hat in Hat'. injection Hat' as <- <-. fold L in HdL, Hagt, Hkt.
  assert (∀ j, j < length dir1 → j mod 2 ^ G < length (dir_ s)) as Hmod.
  { intros j _. rewrite Hlen. apply Nat.mod_upper_bound, Nat.pow_nonzero. lia. }
  (* the pointer in the slot [j] of the new directory *)
  assert (∀ j rj, j < length dir1 → bucket_ref s (j mod 2 ^ G) = Some rj →
    bucket_ref s' j =
      Some (if decide (rj = target)
            then (if decide (Nat.land j mask ≠ 0) then r1 else r0)
            else rj)) as Hnew.
  { intros j rj Hj Hrj. apply bucket_ref_Some in Hrj.
    unfold bucket_ref, s'. simpl. rewrite redirect_lookup, Hdir1, Hrj by done.
    simpl. destruct (decide (rj = target)) as [->|Hne].
    - rewrite decide_True by done. by destruct (decide (Nat.land j mask ≠ 0)).
    - rewrite decide_False by congruence. done. }
  (* the slots of the old directory that point to [target] *)
  assert (∀ j rj, j < length dir1 → bucket_ref s (j mod 2 ^ G) = Some rj →
    rj = target ↔ j mod 2 ^ L = idx mod 2 ^ L) as Htarget.
  { intros j rj Hj Hrj. rewrite <-(mod_mod_pow2 j L G) by done.
    rewrite <-(Hagt _ (Hmod j Hj)), Hrj. naive_solver. }
  assert (length (dir_ s') = length dir1) as Hlen' by apply redirect_length.
  constructor; [by rewrite Hlen'|].
  rewrite Hlen'. intros i Hi.
  destruct (slot_ref s (i mod 2 ^ G) Hinv (Hmod i Hi)) as (ri & Hri & Hri_lt).
  pose proof (Hnew i ri Hi Hri) as Hi_new.
  destruct (decide (ri = target)) as [->|Hne].
  - (* the slot pointed to the split bucket *)
    pose proof (proj1 (Htarget i target Hi Hri) eq_refl) as Hi_idx.
    set (bit := decide (Nat.land i mask ≠ 0)) in *.
    exists (if bit then r1 else r0), (if bit then b1 else b0).
    split_and!.
    + apply bucket_at_Some. split; [done|]. simpl.
      destruct bit; unfold r0, r1.
      * by rewrite lookup_app_r, Nat.sub_succ_l, Nat.sub_diag by lia.
      * by rewrite lookup_app_r, Nat.sub_diag by lia.
    + destruct bit; simpl; lia.
    + intros j Hj. rewrite Hlen' in Hj.
      destruct (slot_ref s (j mod 2 ^ G) Hinv (Hmod j Hj)) as (rj & Hrj & Hrj_lt).
      rewrite (Hnew j rj Hj Hrj).
      pose proof (Htarget j rj Hj Hrj) as Hj_t.
      replace (depth_ (if bit then b1 else b0)) with (S L)
        by (destruct bit; simpl; lia).
      rewrite mod_pow2_succ_eq, Hi_idx, <-Hj_t.
      assert (Nat.testbit j L = Nat.testbit i L ↔
              (Nat.land j mask ≠ 0 ↔ Nat.land i mask ≠ 0)) as ->.
      { unfold mask. rewrite !land_bit_nonzero.
        destruct (Nat.testbit j L), (Nat.testbit i L); intuition congruence. }
      destruct (decide (rj = target)) as [->|Hnej].
      * destruct (decide (Nat.land j mask ≠ 0)), bit; unfold r0, r1;
          split; try (intros [= ?]; lia); intuition; try lia.
      * destruct bit; unfold r0, r1; split; try (intros [= ?]; lia);
          intuition.
    + intros k Hk.
      replace (depth_ (if bit then b1 else b0)) with (S L)
        by (destruct bit; simpl; lia).
      assert (k ∈ (list_ tb).*1 ∧
              (Nat.land (hash k) mask ≠ 0 ↔ Nat.land i mask ≠ 0)) as [Hk_in Hk_bit].
      { destruct bit as [Hb|Hb]; simpl in Hk;
          apply list_elem_of_fmap in Hk as ([k' v'] & -> & [Hg Hin]%list_elem_of_filter);
          (split; [by eapply elem_of_keys|]); unfold goes_to_1, goes_to_0 in Hg;
          simpl in *; intuition. }
      apply mod_pow2_succ_eq. split.
      * rewrite Hi_idx. by apply Hkt.
      * unfold mask in Hk_bit. rewrite !land_bit_nonzero in Hk_bit.
        destruct (Nat.testbit (hash k) L), (Nat.testbit i L); intuition congruence.
    + by destruct bit.
    + destruct bit; simpl; (etrans; [apply length_filter|lia]).
    + destruct bit; simpl;
        (eapply sublist_NoDup; [done|]; apply fmap_sublist, sublist_filter).
  - (* the slot pointed to another bucket *)
    destruct (inv_slot s Hinv _ (Hmod i Hi))
      as (ri' & bi & [Hri' Hbi]%bucket_at_Some & Hdi & Hagi & Hki & Hsi & Hli & Hni).
    assert (ri' = ri) as -> by congruence.
    exists ri, bi. split_and!; try done.
    + apply bucket_at_Some. split; [done|]. simpl. by apply lookup_app_l_Some.
    + simpl. lia.
    + intros j Hj. rewrite Hlen' in Hj.
      destruct (slot_ref s (j mod 2 ^ G) Hinv (Hmod j Hj)) as (rj & Hrj & Hrj_lt).
      rewrite (Hnew j rj Hj Hrj).
      rewrite <-(mod_mod_pow2 j (depth_ bi) G), <-(mod_mod_pow2 i (depth_ bi) G)
        by done.
      rewrite <-(Hagi _ (Hmod j Hj)), Hrj.
      destruct (decide (rj = target)) as [->|Hnej].
      * destruct (decide (Nat.land j mask ≠ 0)); unfold r0, r1;
          split; intros [= ?]; try lia; congruence.
      * done.
    + intros k Hk. rewrite (Hki k Hk). by apply mod_mod_pow2.
Qed.

(** The result of [split] in closed form. *)
Definition split_of (s : t) (target : nat) (tb : Bucket) : t :=
  let mask := Nat.shiftl 1 (depth_ tb) in
  let l0 := filter (goes_to_0 mask) (list_ tb) in
  let l1 := filter (goes_to_1 mask) (list_ tb) in
  mk (bucket_size_ s)
     (if decide (global_depth_ s = depth_ tb)
      then global_depth_ s + 1 else global_depth_ s)
     (if bool_decide (l1 ≠ []) && bool_decide (l0 ≠ [])
      then num_buckets_ s + 1 else num_buckets_ s)
     (redirect mask target (length (heap_ s)) (S (length (heap_ s)))
        (if decide (global_depth_ s = depth_ tb)
         then dir_ s ++ dir_ s else dir_ s))
     (heap_ s ++ [mkBucket (bucket_size_ s) (depth_ tb + 1) l0;
                  mkBucket (bucket_size_ s) (depth_ tb + 1) l1]).

Lemma split_eq (s : t) key target tb :
  Inv s → bucket_at s (IndexOf hash s key) = Some (target, tb) →
  split hash s key = Some (split_of s target tb).
Proof.
  intros Hinv Hat. unfold split. rewrite Hat. simpl.
  pose proof (IndexOf_lt s key Hinv) as Hlt.
  destruct (inv_slot s Hinv _ Hlt) as (r' & b' & Hat' & Hd & _ & Hk & Hsz & Hlen & Hnd).
  rewrite Hat in Hat'. injection Hat' as <- <-.
  unfold GetDepth, GetItems. rewrite distribute_spec by (done || lia).
  unfold split_of. rewrite double_dir_app.
  by destruct (decide (global_depth_ s = depth_ tb)).
Qed.

Lemma split_of_Inv (s : t) idx target tb :
  Inv s → idx < length (dir_ s) → bucket_at s idx = Some (target, tb) →
  Inv (split_of s target tb).
Proof.
  intros Hinv Hidx Hat.
  destruct (inv_slot s Hinv _ Hidx) as (r' & b' & Hat' & Hd & _).
  rewrite Hat in Hat'. injection Hat' as <- <-.
  pose proof (inv_length s Hinv) as Hlen.
  unfold split_of. eapply Inv_split; try done.
  - destruct (decide _); [|done].
    rewrite length_app, Hlen, Nat.add_1_r, Nat.pow_succ_r'. lia.
  - destruct (decide _); lia.
  - destruct (decide _); lia.
  - intros i Hi. destruct (decide _) as [Heq|Hne].
    + rewrite length_app, Hlen in Hi.
      destruct (decide (i < 2 ^ global_depth_ s)) as [Hlt|Hge].
      * rewrite lookup_app_l, Nat.mod_small by lia. done.
      * rewrite lookup_app_r, Hlen by lia. f_equal.
        replace (i mod 2 ^ global_depth_ s)
          with ((i - 2 ^ global_depth_ s + 1 * 2 ^ global_depth_ s)
                  mod 2 ^ global_depth_ s) by (f_equal; lia).
        rewrite Nat.Div0.mod_add. symmetry. apply Nat.mod_small. lia.
    + rewrite Hlen in Hi. by rewrite Nat.mod_small.
Qed.

Lemma split_Inv (s s' : t) key : Inv s → split hash s key = Some s' → Inv s'.
Proof.
  intros Hinv Hs.
  destruct (bucket_at s (IndexOf hash s key)) as [[target tb]|] eqn:Hat.
  - rewrite (split_eq s key target tb) in Hs by done. injection Hs as <-.
    eapply split_of_Inv; [done| |done]. by apply IndexOf_lt.
  - unfold split in Hs. by rewrite Hat in Hs.
Qed.

Lemma Insert_Inv fuel (s s' : t) key value :
  Inv s → Insert hash fuel s key value = Some s' → Inv s'.
Proof.
  revert s. induction fuel as [|fuel IH]; intros s Hinv; simpl;
    destruct (bucket_at s (IndexOf hash s key)) as [[r b]|] eqn:Hat; try done;
    simpl; destruct (IsFull b) eqn:Hfull; try done;
    try (by eapply store_Inv).
  destruct (split hash s key) as [s1|] eqn:Hs; [|done]. simpl.
  apply IH. by eapply split_Inv.
Qed.

Lemma exec_Inv fuel (s s' : t) o : Inv s → exec hash fuel s o = Some s' → Inv s'.
Proof.
  intros Hinv. destruct o as [key value|key|key]; simpl.
  - by apply Insert_Inv.
  - destruct (Find hash s key); simpl; [by intros [= <-] | done].
  - destruct (Remove hash s key) as [[res s1]|] eqn:Hr; simpl; [|done].
    intros [= <-]. by eapply Remove_Inv.
Qed.

Lemma run_Inv fuel (s s' : t) ops : Inv s → run hash fuel s ops = Some s' → Inv s'.
Proof.
  revert s. induction ops as [|o ops IH]; intros s Hinv; simpl.
  - by intros [= <-].
  - destruct (exec hash fuel s o) as [s1|] eqn:He; simpl; [|done].
    apply IH. by eapply exec_Inv.
Qed.

(** ** Counting the slots of a bucket *)

Lemma length_filter_iff {A} (P Q : A → Prop)
    `{!∀ x, Decision (P x), !∀ x, Decision (Q x)} (l : list A) :
  (∀ x, x ∈ l → P x ↔ Q x) → length (filter P l) = length (filter Q l).
Proof.
  induction l as [|a l IH]; intros Hiff; [done|].
  assert (length (filter P l) = length (filter Q l)) as Hl.
  { apply IH. intros x Hx. apply Hiff. by right. }
  pose proof (Hiff a (list_elem_of_here a l)) as Ha.
  destruct (decide (P a)).
  - rewrite !filter_cons_True by tauto. simpl. by rewrite Hl.
  - rewrite !filter_cons_False by tauto. done.
Qed.

Lemma length_filter_shift (P : nat → Prop) `{!∀ x, Decision (P x)} a n :
  length (filter P (seq a n)) = length (filter (λ j, P (a + j)) (seq 0 n)).
Proof.
  revert a. induction n as [|n IH]; intros a; [done|].
  rewrite !seq_S, !filter_app, !length_app, IH. f_equal. simpl.
  rewrite !filter_cons, !filter_nil. by destruct (decide (P (a + n))).
Qed.

Lemma count_residue L G id :
  L ≤ G → id < 2 ^ L →
  length (filter (λ j, j mod 2 ^ L = id) (seq 0 (2 ^ G))) = 2 ^ (G - L).
Proof.
  intros HLG Hid. induction HLG as [|G HLG IH].
  - rewrite Nat.sub_diag. simpl.
    rewrite (length_filter_iff _ (λ j, j = id)).
    + assert (∀ a n, length (filter (λ j, j = id) (seq a n)) =
                     if decide (a ≤ id < a + n) then 1 else 0) as Hone.
      { intros a n. revert a. induction n as [|n IHn]; intros a.
        - simpl. by rewrite decide_False by lia.
        - simpl. rewrite filter_cons.
          destruct (decide (a = id)) as [->|Hne]; simpl; rewrite IHn;
            repeat case_decide; lia. }
      rewrite Hone. by rewrite decide_True by lia.
    + intros j Hj%elem_of_seq. by rewrite Nat.mod_small by lia.
  - replace (S G - L) with (S (G - L)) by lia.
    rewrite !Nat.pow_succ_r'.
    replace (2 * 2 ^ G) with (2 ^ G + 2 ^ G) by lia.
    rewrite seq_app, filter_app, length_app, IH. simpl.
    rewrite length_filter_shift.
    rewrite (length_filter_iff _ (λ j, j mod 2 ^ L = id)); [rewrite IH; lia|].
    intros j _.
    replace (2 ^ G) with (2 ^ (G - L) * 2 ^ L)
      by (rewrite <-Nat.pow_add_r; f_equal; lia).
    by rewrite Nat.add_comm, Nat.Div0.mod_add.
Qed.

(** The slots of the directory that hold the pointer [r]. *)
Definition slots_of (s : t) (r : nat) : list nat :=
  filter (λ j, bucket_ref s j = Some r) (seq 0 (length (dir_ s))).

Lemma slots_of_length (s : t) i r b :
  Inv s → i < length (dir_ s) → bucket_at s i = Some (r, b) →
  length (slots_of s r) = 2 ^ (global_depth_ s - depth_ b).
Proof.
  intros Hinv Hi Hat.
  destruct (inv_slot s Hinv i Hi) as (r' & b' & Hat' & Hd & Hag & _).
  rewrite Hat in Hat'. injection Hat' as <- <-.
  unfold slots_of. rewrite (inv_length s Hinv).
  rewrite <-(count_residue (depth_ b) _ (i mod 2 ^ depth_ b)); [|done|].
  - apply length_filter_iff. intros j Hj%elem_of_seq. apply Hag.
    rewrite (inv_length s Hinv). lia.
  - apply Nat.mod_upper_bound, Nat.pow_nonzero. lia.
Qed.

(** ** The bucket of the key after a split *)

(** The items of the split bucket that go where the key goes. *)
Definition key_side (mask : nat) (key : K) (l : list (K * V)) : list (K * V) :=
  if decide (Nat.land (hash key) mask ≠ 0)
  then filter (goes_to_1 mask) l else filter (goes_to_0 mask) l.

Lemma dir1_lookup (s : t) L i :
  Inv s →
  i < length (if decide (global_depth_ s = L) then dir_ s ++ dir_ s else dir_ s) →
  (if decide (global_depth_ s = L) then dir_ s ++ dir_ s else dir_ s) !! i
  = dir_ s !! (i mod 2 ^ global_depth_ s).
Proof.
  intros Hinv Hi. pose proof (inv_length s Hinv) as Hlen.
  destruct (decide _) as [Heq|Hne].
  - rewrite length_app, Hlen in Hi.
    destruct (decide (i < 2 ^ global_depth_ s)) as [Hlt|Hge].
    + rewrite lookup_app_l, Nat.mod_small by lia. done.
    + rewrite lookup_app_r, Hlen by lia. f_equal.
      replace (i mod 2 ^ global_depth_ s)
        with ((i - 2 ^ global_depth_ s + 1 * 2 ^ global_depth_ s)
                mod 2 ^ global_depth_ s) by (f_equal; lia).
      rewrite Nat.Div0.mod_add. symmetry. apply Nat.mod_small. lia.
  - rewrite Hlen in Hi. by rewrite Nat.mod_small.
Qed.

Lemma split_of_dir (s : t) target tb :
  dir_ (split_of s target tb) =
  redirect (Nat.shiftl 1 (depth_ tb)) target (length (heap_ s)) (S (length (heap_ s)))
    (if decide (global_depth_ s = depth_ tb) then dir_ s ++ dir_ s else dir_ s).
Proof. done. Qed.

Lemma split_of_heap (s : t) target tb :
  heap_ (split_of s target tb) =
  heap_ s ++
    [mkBucket (bucket_size_ s) (depth_ tb + 1)
       (filter (goes_to_0 (Nat.shiftl 1 (depth_ tb))) (list_ tb));
     mkBucket (bucket_size_ s) (depth_ tb + 1)
       (filter (goes_to_1 (Nat.shiftl 1 (depth_ tb))) (list_ tb))].
Proof. done. Qed.

Lemma split_of_depth (s : t) target tb :
  global_depth_ (split_of s target tb) =
  if decide (global_depth_ s = depth_ tb)
  then global_depth_ s + 1 else global_depth_ s.
Proof. done. Qed.

Lemma split_of_bucket_at (s : t) key target tb :
  Inv s → bucket_at s (IndexOf hash s key) = Some (target, tb) →
  ∃ r,
    bucket_at (split_of s target tb) (IndexOf hash (split_of s target tb) key)
    = Some (r, mkBucket (bucket_size_ s) (depth_ tb + 1)
                 (key_side (Nat.shiftl 1 (depth_ tb)) key (list_ tb))).
Proof.
  intros Hinv Hat.
  pose proof (IndexOf_lt s key Hinv) as Hlt.
  assert (Inv (split_of s target tb)) as Hinv1 by by eapply split_of_Inv.
  pose proof (IndexOf_lt _ key Hinv1) as Hlt1.
  destruct (inv_slot s Hinv _ Hlt) as (r' & b' & Hat' & Hd & _).
  rewrite Hat in Hat'. injection Hat' as <- <-.
  apply bucket_at_Some in Hat as [Hr Hb]. apply bucket_ref_Some in Hr.
  pose proof (split_of_depth s target tb) as Hgd.
  assert (global_depth_ s ≤ global_depth_ (split_of s target tb) ∧
          depth_ tb < global_depth_ (split_of s target tb)) as [HG HL].
  { rewrite Hgd. destruct (decide _); lia. }
  set (idx1 := IndexOf hash (split_of s target tb) key) in *.
  assert (idx1 mod 2 ^ global_depth_ s = IndexOf hash s key) as Hidx.
  { unfold idx1. rewrite !IndexOf_mod. by apply mod_mod_pow2. }
  assert (Nat.land idx1 (Nat.shiftl 1 (depth_ tb)) ≠ 0 ↔
          Nat.land (hash key) (Nat.shiftl 1 (depth_ tb)) ≠ 0) as Hbit.
  { rewrite !land_bit_nonzero.
    rewrite (mod_pow2_bit idx1 (hash key) (global_depth_ (split_of s target tb)));
      [done| |done].
    unfold idx1. rewrite IndexOf_mod. apply Nat.Div0.mod_mod. }
  assert (bucket_ref (split_of s target tb) idx1 =
          Some (if decide (Nat.land (hash key) (Nat.shiftl 1 (depth_ tb)) ≠ 0)
                then S (length (heap_ s)) else length (heap_ s))) as Hnew.
  { unfold bucket_ref. rewrite split_of_dir.
    rewrite split_of_dir, redirect_length in Hlt1.
    rewrite redirect_lookup, (dir1_lookup s _ _ Hinv Hlt1), Hidx, Hr. simpl.
    rewrite decide_True by done.
    destruct (decide (Nat.land (hash key) _ ≠ 0)) as [Hk|Hk].
    - by rewrite decide_True by (by apply Hbit).
    - by rewrite decide_False by (by rewrite Hbit). }
  unfold key_side.
  destruct (decide (Nat.land (hash key) (Nat.shiftl 1 (depth_ tb)) ≠ 0)) as [Hk|Hk].
  - exists (S (length (heap_ s))). apply bucket_at_Some. split; [done|].
    rewrite split_of_heap.
    by rewrite lookup_app_r, Nat.sub_succ_l, Nat.sub_diag by lia.
  - exists (length (heap_ s)). apply bucket_at_Some. split; [done|].
    rewrite split_of_heap.
    by rewrite lookup_app_r, Nat.sub_diag by lia.
Qed.

(** ** [Find] after [Insert] *)

Lemma store_Find (s s' : t) key value r b :
  bucket_at s (IndexOf hash s key) = Some (r, b) → IsFull b = false →
  store hash s key value = Some s' →
  Find hash s' key = Some (Some value).
Proof.
  intros Hat Hfull. unfold store. rewrite Hat. simpl. intros [= <-].
  unfold Find. change (IndexOf hash (mk _ _ _ _ _) key) with (IndexOf hash s key).
  apply bucket_at_Some in Hat as [Hr Hb].
  set (b' := match lookup_items key (GetItems b) with Some _ => _ | None => _ end).
  assert (bucket_at (mk (bucket_size_ s) (global_depth_ s) (num_buckets_ s)
                        (dir_ s) (<[r := b']> (heap_ s))) (IndexOf hash s key)
          = Some (r, b')) as ->.
  { apply bucket_at_Some. split; [done|]. simpl.
    apply list_lookup_insert_eq. by eapply lookup_lt_Some. }
  simpl. f_equal. unfold Bucket_Find, b', GetItems, Bucket_Insert.
  rewrite Hfull.
  destruct (lookup_items key (list_ b)) as [v|] eqn:Hlk; simpl.
  - apply lookup_items_assign. by rewrite Hlk.
  - by apply lookup_items_app_None.
Qed.

Lemma Insert_Find fuel (s s' : t) key value :
  Insert hash fuel s key value = Some s' → Find hash s' key = Some (Some value).
Proof.
  revert s. induction fuel as [|fuel IH]; intros s; simpl;
    destruct (bucket_at s (IndexOf hash s key)) as [[r b]|] eqn:Hat; try done;
    simpl; destruct (IsFull b) eqn:Hfull; try done;
    try (by eapply store_Find).
  destruct (split hash s key) as [s1|]; [|done]. simpl. apply IH.
Qed.

Lemma Insert_fuel_mono n m (s s' : t) key value :
  n ≤ m → Insert hash n s key value = Some s' → Insert hash m s key value = Some s'.
Proof.
  revert m s. induction n as [|n IH]; intros m s Hle; simpl;
    destruct (bucket_at s (IndexOf hash s key)) as [[r b]|] eqn:Hat; try done;
    simpl; destruct (IsFull b) eqn:Hfull; try done;
    destruct m as [|m]; simpl; rewrite ?Hat; simpl; rewrite ?Hfull; try done;
    try lia.
  destruct (split hash s key) as [s1|]; [|done]. simpl. apply IH. lia.
Qed.

(** ** The loop of [Insert] *)

Lemma elem_of_key_side L key (l : list (K * V)) kv :
  kv ∈ key_side (Nat.shiftl 1 L) key l ↔
  kv ∈ l ∧ Nat.testbit (hash kv.1) L = Nat.testbit (hash key) L.
Proof.
  unfold key_side.
  destruct (decide (Nat.land (hash key) (Nat.shiftl 1 L) ≠ 0)) as [Hk|Hk];
    rewrite list_elem_of_filter; unfold goes_to_1, goes_to_0;
    [|apply dec_stable in Hk];
    rewrite ?land_bit_nonzero in *; rewrite ?land_bit in *.
  - rewrite Hk. intuition.
  - destruct (Nat.testbit (hash key) L) eqn:Hb.
    { pose proof (pow2_pos L). lia. }
    destruct (Nat.testbit (hash kv.1) L) eqn:Hb'.
    + pose proof (pow2_pos L). intuition (try lia; congruence).
    + intuition.
Qed.

Lemma key_side_sublist mask key (l : list (K * V)) :
  key_side mask key l `sublist_of` l.
Proof. unfold key_side. destruct (decide _); apply sublist_filter. Qed.

Lemma Insert_step fuel (s : t) key value r b :
  Inv s → bucket_at s (IndexOf hash s key) = Some (r, b) → IsFull b = true →
  Insert hash (S fuel) s key value = Insert hash fuel (split_of s r b) key value.
Proof.
  intros Hinv Hat Hfull. simpl. rewrite Hat. simpl. rewrite Hfull.
  by rewrite (split_eq s key r b).
Qed.

Lemma Insert_not_full fuel (s : t) key value r b :
  bucket_at s (IndexOf hash s key) = Some (r, b) → IsFull b = false →
  Insert hash fuel s key value = store hash s key value.
Proof. intros Hat Hfull. destruct fuel; simpl; rewrite Hat; simpl; by rewrite Hfull. Qed.

Lemma store_is_Some (s : t) key value r b :
  bucket_at s (IndexOf hash s key) = Some (r, b) →
  is_Some (store hash s key value).
Proof. intros Hat. unfold store. rewrite Hat. simpl. by eexists. Qed.

(** The keys of the bucket of [key] agree with [key] below the local depth. *)
Lemma bucket_keys_agree (s : t) key r b k d :
  Inv s → bucket_at s (IndexOf hash s key) = Some (r, b) →
  k ∈ (list_ b).*1 → d < depth_ b →
  Nat.testbit (hash k) d = Nat.testbit (hash key) d.
Proof.
  intros Hinv Hat Hk Hd.
  pose proof (IndexOf_lt s key Hinv) as Hlt.
  destruct (inv_slot s Hinv _ Hlt) as (r' & b' & Hat' & HdG & _ & Hkeys & _).
  rewrite Hat in Hat'. injection Hat' as <- <-.
  apply (mod_pow2_bit _ _ (depth_ b)); [|done].
  rewrite (Hkeys k Hk), IndexOf_mod. by apply mod_mod_pow2.
Qed.

Lemma filter_all {A} (P : A → Prop) `{!∀ x, Decision (P x)} (l : list A) :
  (∀ x, x ∈ l → P x) → filter P l = l.
Proof.
  induction l as [|a l IH]; intros Hall; [done|].
  rewrite filter_cons_True by (apply Hall; by left).
  f_equal. apply IH. intros x Hx. apply Hall. by right.
Qed.

(** [Insert] does not return when the bucket of the key is full of keys
    with the hash of the key. *)
Lemma Insert_diverges fuel (s : t) key value r b :
  Inv s → bucket_at s (IndexOf hash s key) = Some (r, b) →
  IsFull b = true → (∀ k, k ∈ (list_ b).*1 → hash k = hash key) →
  Insert hash fuel s key value = None.
Proof.
  revert s r b. induction fuel as [|fuel IH]; intros s r b Hinv Hat Hfull Hkeys.
  - simpl. rewrite Hat. simpl. by rewrite Hfull.
  - rewrite (Insert_step fuel s key value r b) by done.
    destruct (split_of_bucket_at s key r b Hinv Hat) as (r1 & Hat1).
    set (b1 := mkBucket _ _ _) in Hat1.
    assert (Inv (split_of s r b)) as Hinv1.
    { eapply split_of_Inv; [done| |done]. by apply IndexOf_lt. }
    assert (list_ b1 = list_ b) as Hl.
    { unfold b1, key_side. simpl.
      destruct (decide _) as [Hkey|Hkey]; apply filter_all; intros [k v] Hin;
        unfold goes_to_1, goes_to_0; simpl;
        rewrite (Hkeys k) by (by eapply elem_of_keys); [done|].
      by apply dec_stable in Hkey. }
    apply (IH _ r1 b1); try done.
    + pose proof (IndexOf_lt s key Hinv) as Hlt.
      destruct (inv_slot s Hinv _ Hlt) as (r' & b' & Hat' & _ & _ & _ & Hsz & _).
      rewrite Hat in Hat'. injection Hat' as <- <-.
      unfold IsFull in *. apply bool_decide_eq_true in Hfull.
      apply bool_decide_eq_true. rewrite Hl. simpl. lia.
    + by rewrite Hl.
Qed.

Lemma exec_fuel_mono n m (s s' : t) o :
  n ≤ m → exec hash n s o = Some s' → exec hash m s o = Some s'.
Proof. destruct o; simpl; [by apply Insert_fuel_mono | done..]. Qed.

Lemma run_fuel_mono n m (s s' : t) ops :
  n ≤ m → run hash n s ops = Some s' → run hash m s ops = Some s'.
Proof.
  intros Hle. revert s. induction ops as [|o ops IH]; intros s; simpl; [done|].
  destruct (exec hash n s o) as [s1|] eqn:He; simpl; [|done].
  rewrite (exec_fuel_mono n m s s1 o Hle He). simpl. apply IH.
Qed.





End facts.

(** ** Claim C5 *)

(** C5. After every sequence of [Insert], [Find] and [Remove] on a fresh
    table, the directory has [2 ^ G] slots; every slot [i] points to a bucket
    of local depth [L ≤ G]; the slots that point to this bucket are exactly
    those that agree with [i] on the low [L] bits (the low-bit identifier of
    the bucket), and there are exactly [2 ^ (G - L)] of them.  The doubling of
    a directory of [c] slots yields [2 c] slots, where the slots [i] and
    [c + i] hold what the slot [i] held. *)
Theorem directory_invariant {K V : Type} `{EqDecision K} (hash : K → nat)
    (bucket_size fuel : nat) (ops : list (op K V)) (s : t K V)
    (Hrun : run hash fuel (init bucket_size) ops = Some s) :
  length (dir_ s) = 2 ^ GetGlobalDepth s ∧
  (∀ i, i < length (dir_ s) →
     ∃ r b,
       bucket_at s i = Some (r, b) ∧
       GetLocalDepth s i = Some (depth_ b) ∧
       depth_ b ≤ GetGlobalDepth s ∧
       (∀ j, j < length (dir_ s) →
          bucket_ref s j = Some r ↔ j mod 2 ^ depth_ b = i mod 2 ^ depth_ b) ∧
       length (slots_of s r) = 2 ^ (GetGlobalDepth s - depth_ b)) ∧
  (∀ (dir : list (option nat)) i, i < length dir →
     length (double_dir dir) = 2 * length dir ∧
     double_dir dir !! i = dir !! i ∧
     double_dir dir !! (length dir + i) = dir !! i).
Proof.
  assert (Inv hash s) as Hinv.
  { eapply run_Inv; [apply Inv_init | done]. }
  split_and!.
  - apply (inv_length hash s Hinv).
  - intros i Hi.
    destruct (inv_slot hash s Hinv i Hi) as (r & b & Hat & Hd & Hag & _).
    exists r, b. split_and!; try done.
    + unfold GetLocalDepth. by rewrite Hat.
    + by eapply slots_of_length.
  - intros dir i Hi. rewrite double_dir_app, length_app. split_and!.
    + lia.
    + by rewrite lookup_app_l.
    + rewrite lookup_app_r by lia. f_equal. lia.
Qed.

Lemma directory_invariant_witness :
  ∃ s, scenario_S4 5 = Some s ∧
    length (dir_ s) = 2 ^ GetGlobalDepth s ∧
    (∀ i, i < length (dir_ s) →
       ∃ r b,
         bucket_at s i = Some (r, b) ∧
         GetLocalDepth s i = Some (depth_ b) ∧
         depth_ b ≤ GetGlobalDepth s ∧
         (∀ j, j < length (dir_ s) →
            bucket_ref s j = Some r ↔ j mod 2 ^ depth_ b = i mod 2 ^ depth_ b) ∧
         length (slots_of s r) = 2 ^ (GetGlobalDepth s - depth_ b)) ∧
    (∀ (dir : list (option nat)) i, i < length dir →
       length (double_dir dir) = 2 * length dir ∧
       double_dir dir !! i = dir !! i ∧
       double_dir dir !! (length dir + i) = dir !! i).
Proof.
  eexists. split; [vm_compute; reflexivity|].
  apply (directory_invariant hash_int 2 5
           [OpInsert 1 10; OpInsert 5 50; OpInsert 9 90]%Z).
  vm_compute. reflexivity.
Defined.

(** ** Claim C6 *)

(** A table of bucket size 1 that holds the key 1. *)
Definition table_one : t Z Z :=
  mk 1 0 1 [Some 0] [mkBucket 1 0 [(1, 10)]]%Z.

(** C6. The table with buckets of capacity 1 that results from
    [Insert(1, 10)] does not survive [Insert(1, 20)]: the bucket of the key
    is full (of the key itself), every split leaves it full, and no number
    of iterations of the loop of [Insert] suffices.  So no [Find(1)] follows
    that could return 20. *)
Theorem upsert_bucket_size_one_diverges :
  (∀ fuel, Insert hash_int fuel (init 1) 1%Z 10%Z = Some table_one) ∧
  (∀ fuel, Insert hash_int fuel table_one 1%Z 20%Z = None).
Proof.
  split.
  - intros fuel. by destruct fuel.
  - intros fuel.
    apply (Insert_diverges hash_int fuel table_one 1%Z 20%Z 0
             (mkBucket 1 0 [(1, 10)]%Z)); try done.
    + apply (Insert_Inv hash_int 0 (init 1) table_one 1%Z 10%Z); [|done].
      apply Inv_init.
    + intros k Hk. simpl in Hk. apply list_elem_of_singleton in Hk. by subst.
Qed.

(** ** Claim C7 *)

(** The table of scenario S4 after the three calls. *)
Definition table_S4 : t Z Z :=
  Eval vm_compute in default (init 2) (scenario_S4 3).

Lemma scenario_S4_fuel fuel s : scenario_S4 fuel = Some s → s = table_S4.
Proof.
  intros Hs. unfold scenario_S4 in Hs.
  destruct (decide (fuel ≤ 3)) as [Hle|Hgt].
  - apply (run_fuel_mono hash_int fuel 3) in Hs; [|done].
    vm_compute in Hs. by injection Hs.
  - assert (scenario_S4 3 = Some table_S4) as H3 by (vm_compute; reflexivity).
    apply (run_fuel_mono hash_int 3 fuel) in H3; [|lia].
    unfold scenario_S4 in H3. congruence.
Qed.

(** C7, as stated, fails: whatever the number of iterations allowed to the
    loop of [Insert], scenario S4 does not end with global depth 1. *)
Lemma scenario_S4_depth_not_1 :
  ¬ ∃ fuel s, scenario_S4 fuel = Some s ∧ GetGlobalDepth s = 1.
Proof. intros (fuel & s & ->%scenario_S4_fuel & Hd). vm_compute in Hd. lia. Qed.

(** C7, amended. With bucket size 2 and [std::hash<int>] the identity, the
    calls [Insert(1, 10)], [Insert(5, 50)] leave the global depth at 0; the
    third call [Insert(9, 90)] needs three iterations of the split loop, each
    doubling the directory (1, 5 and 9 agree on their two low bits); then
    [GetGlobalDepth()] is 3, the directory has 8 slots, and [Find] returns
    the values of the three keys. *)
Theorem scenario_S4_result :
  (∀ s, run hash_int 0 (init 2) [OpInsert 1 10; OpInsert 5 50]%Z = Some s →
        GetGlobalDepth s = 0) ∧
  is_Some (run hash_int 0 (init 2) [OpInsert 1 10; OpInsert 5 50]%Z) ∧
  (∀ fuel, fuel < 3 → scenario_S4 fuel = None) ∧
  (∀ fuel, 3 ≤ fuel → scenario_S4 fuel = Some table_S4) ∧
  GetGlobalDepth table_S4 = 3 ∧
  length (dir_ table_S4) = 8 ∧
  Find hash_int table_S4 1%Z = Some (Some 10%Z) ∧
  Find hash_int table_S4 5%Z = Some (Some 50%Z) ∧
  Find hash_int table_S4 9%Z = Some (Some 90%Z).
Proof.
  split_and!.
  - intros s Hs. vm_compute in Hs. injection Hs as <-. done.
  - vm_compute. by eexists.
  - intros fuel Hlt.
    destruct fuel as [|[|[|fuel]]]; try lia; vm_compute; reflexivity.
  - intros fuel Hle.
    apply (run_fuel_mono hash_int 3 fuel); [done|]. vm_compute. reflexivity.
  - vm_compute. reflexivity.
  - vm_compute. reflexivity.
  - vm_compute. reflexivity.
  - vm_compute. reflexivity.
  - vm_compute. reflexivity.
Qed.

(** ** Claim C10 *)




End EHTFacts.

(** * Properties of the buffer pool manager *)

Module BPMFacts.
Import BPM.

(** ** Frames *)

Definition valid_frame (s : t) (f : Z) : Prop := (0 ≤ f < Z.of_nat (pool_size_ s))%Z.

(** The invariant of the pool, up to the frames in [hole].  The pool is
    smaller than [2 ^ 31] frames (the replacer compares frame ids as [int]);
    the replacer is consistent and sized as the pool; the free list holds
    valid frames, each once, that the replacer does not know and that are not
    pinned; the frames that the replacer knows are valid; pin counts are not
    negative; outside the hole, a valid frame that is not free is known to
    the replacer and is evictable exactly when its pin count is 0; and the
    page table sends a page id to a frame in use that holds the page. *)
Record inv_gen (hole : Z → Prop) (s : t) : Prop := {
  inv_small : (N.of_nat (pool_size_ s) < 2 ^ 31)%N;
  inv_pages : length (pages_ s) = pool_size_ s;
  inv_replacer_size : LRUK.replacer_size_ (replacer_ s) = N.of_nat (pool_size_ s);
  inv_replacer : LRUKFacts.wf (replacer_ s);
  inv_free_nodup : NoDup (free_list_ s);
  inv_free : ∀ f, f ∈ free_list_ s →
    valid_frame s f ∧ LRUK.count (replacer_ s) f = 0%N ∧
    pin_count_ (page_at s f) = 0%Z;
  inv_accessed : ∀ f, LRUK.count (replacer_ s) f ≠ 0%N → valid_frame s f;
  inv_used : ∀ f, valid_frame s f → (f ∉ free_list_ s) → ¬ hole f →
    LRUK.count (replacer_ s) f ≠ 0%N;
  inv_pin : ∀ f, valid_frame s f → (0 ≤ pin_count_ (page_at s f))%Z;
  inv_evictable : ∀ f, valid_frame s f → (f ∉ free_list_ s) → ¬ hole f →
    (LRUK.evictable (replacer_ s) f = true ↔ pin_count_ (page_at s f) = 0%Z);
  inv_table : ∀ page_id f, page_table_ s !! page_id = Some f → ¬ hole f →
    valid_frame s f ∧ (f ∉ free_list_ s) ∧ page_id_ (page_at s f) = page_id
}.

(** The invariant of the pool between two calls. *)
Definition inv (s : t) : Prop := inv_gen (λ _, False) s.

Lemma inv_gen_weaken (hole : Z → Prop) (s : t) : inv s → inv_gen hole s.
Proof.
  intros [H1 H2 H3 H4 H5 H6 H7 H8 H9 H10 H11].
  constructor; try done.
  - intros f ? ? _. apply H8; tauto.
  - intros f ? ? _. apply H10; tauto.
  - intros pid f ? _. apply H11; tauto.
Qed.

Lemma get_set_page (pages : list Page) (f g : Z) (p : Page) :
  (0 ≤ f)%Z → (0 ≤ g)%Z → Z.to_nat f < length pages →
  <[Z.to_nat f := p]> pages !!! Z.to_nat g =
  if decide (g = f) then p else pages !!! Z.to_nat g.
Proof.
  intros Hf Hg Hlt. destruct (decide (g = f)) as [->|Hne].
  - by apply list_lookup_total_insert_eq.
  - apply list_lookup_total_insert_ne. lia.
Qed.

Lemma all_pinned_true (s : t) :
  length (pages_ s) = pool_size_ s →
  all_pinned s = true ↔ ∀ f, valid_frame s f → pin_count_ (page_at s f) ≠ 0%Z.
Proof.
  intros Hlen. unfold all_pinned. rewrite forallb_forall. split.
  - intros Hall f [Hf0 Hf]. unfold page_at.
    assert (Z.to_nat f < length (pages_ s)) as Hlt by lia.
    destruct (lookup_lt_is_Some_2 _ _ Hlt) as [p Hp].
    rewrite (list_lookup_total_correct _ _ _ Hp).
    assert (In p (pages_ s)) as Hin.
    { apply list_elem_of_In. by eapply list_elem_of_lookup_2. }
    specialize (Hall p Hin). apply negb_true_iff in Hall. lia.
  - intros Hall p Hin. apply list_elem_of_In in Hin.
    apply list_elem_of_lookup in Hin as [i Hi].
    pose proof (lookup_lt_Some _ _ _ Hi) as Hlt.
    specialize (Hall (Z.of_nat i)). unfold page_at, valid_frame in Hall.
    rewrite Nat2Z.id, (list_lookup_total_correct _ _ _ Hi) in Hall.
    apply negb_true_iff, Z.eqb_neq. apply Hall. lia.
Qed.

Lemma all_pinned_false (s : t) :
  length (pages_ s) = pool_size_ s →
  all_pinned s = false ↔ ∃ f, valid_frame s f ∧ pin_count_ (page_at s f) = 0%Z.
Proof.
  intros Hlen. split.
  - intros Hall. unfold all_pinned in Hall.
    assert (∃ p, p ∈ pages_ s ∧ pin_count_ p = 0%Z) as (p & Hin & Hp).
    { clear Hlen. induction (pages_ s) as [|p l IH]; [done|]. simpl in Hall.
      apply andb_false_iff in Hall as [Hp|Hl].
      - exists p. split; [by left|]. apply negb_false_iff in Hp. lia.
      - destruct (IH Hl) as (q & Hq & Hq0). exists q. split; [by right|done]. }
    apply list_elem_of_lookup in Hin as [i Hi].
    pose proof (lookup_lt_Some _ _ _ Hi) as Hlt.
    exists (Z.of_nat i). unfold page_at, valid_frame.
    rewrite Nat2Z.id, (list_lookup_total_correct _ _ _ Hi). split; [lia|done].
  - intros (f & Hf & Hp). destruct (all_pinned s) eqn:Hall; [|done].
    pose proof (proj1 (all_pinned_true s Hlen) Hall f Hf) as Hne. done.
Qed.

Lemma inv_init pool_size replacer_k :
  (N.of_nat pool_size < 2 ^ 31)%N → inv (init pool_size replacer_k).
Proof.
  intros Hsmall.
  assert (∀ f, LRUK.count (LRUK.init (N.of_nat pool_size) replacer_k) f = 0%N)
    as Hcount.
  { intros f. unfold LRUK.count. simpl. by rewrite lookup_empty. }
  assert (∀ f : Z, f ∈ Z.of_nat <$> seq 0 pool_size ↔
                   (0 ≤ f < Z.of_nat pool_size)%Z) as Hfree.
  { intros f. rewrite list_elem_of_fmap. split.
    - intros (i & -> & Hi%elem_of_seq). lia.
    - intros Hf. exists (Z.to_nat f). rewrite elem_of_seq. lia. }
  assert (∀ f, (0 ≤ f < Z.of_nat pool_size)%Z →
               page_at (init pool_size replacer_k) f = fresh_page) as Hpage.
  { intros f Hf. unfold page_at. simpl. apply list_lookup_total_correct.
    apply lookup_replicate. split; [done|lia]. }
  constructor.
  - done.
  - apply length_replicate.
  - done.
  - apply LRUKFacts.wf_init.
  - apply NoDup_fmap_2; [apply Nat2Z.inj' | apply NoDup_seq].
  - intros f Hf%Hfree. split_and!; [done|apply Hcount|by rewrite Hpage].
  - intros f Hf. exfalso. apply Hf, Hcount.
  - intros f Hf Hnin _. exfalso. apply Hnin. by apply Hfree.
  - intros f Hf. by rewrite Hpage.
  - intros f Hf Hnin _. exfalso. apply Hnin. by apply Hfree.
  - intros page_id f Hf. simpl in Hf. by rewrite lookup_empty in Hf.
Qed.

(** The number of evictable frames of a pool stays below [2 ^ 31]. *)
Lemma length_valid_frames (n : nat) (l : list Z) :
  NoDup l → (∀ x, x ∈ l → (0 ≤ x < Z.of_nat n)%Z) → length l ≤ n.
Proof.
  intros Hnd Hvalid.
  assert (NoDup (Z.to_nat <$> l)) as Hnd'.
  { apply NoDup_fmap_2_strong; [|done].
    intros x y Hx%Hvalid Hy%Hvalid. lia. }
  rewrite <-(length_fmap Z.to_nat l).
  assert (length (Z.to_nat <$> l) ≤ length (seq 0 n)) as Hle;
    [|by rewrite length_seq in Hle].
  apply submseteq_length, NoDup_submseteq; [done|].
  intros i (x & -> & Hx%Hvalid)%list_elem_of_fmap. apply elem_of_seq. lia.
Qed.

Lemma curr_size_small hole (s : t) :
  inv_gen hole s → (LRUK.curr_size_ (replacer_ s) + 1 < 2 ^ 64)%N.
Proof.
  intros Hinv. pose proof (inv_replacer hole s Hinv) as Hwf.
  rewrite (LRUKFacts.wf_curr_size _ Hwf).
  assert (LRUKFacts.nevict (LRUK.evictable (replacer_ s))
            (LRUK.history_list_ (replacer_ s) ++ LRUK.cache_list_ (replacer_ s))
          ≤ pool_size_ s) as Hle.
  { etrans; [apply List.filter_length_le|].
    apply (length_valid_frames _ _ (LRUKFacts.wf_nodup _ Hwf)).
    intros x Hx. apply (inv_accessed hole s Hinv).
    by apply (LRUKFacts.wf_listed _ Hwf). }
  pose proof (inv_small hole s Hinv). lia.
Qed.

Lemma page_at_set (s : t) f g p fl tb r n d :
  length (pages_ s) = pool_size_ s → valid_frame s f → (0 ≤ g)%Z →
  page_at (mk (pool_size_ s) (set_page s f p) fl tb r n d) g =
  if decide (g = f) then p else page_at s g.
Proof.
  intros Hlen [Hf0 Hf] Hg. unfold page_at, set_page. simpl.
  apply get_set_page; lia.
Qed.

(** [RecordAccess] followed by [SetEvictable(false)] on a valid frame. *)
Lemma touch_spec hole (s : t) f :
  inv_gen hole s → valid_frame s f →
  (LRUK.count (replacer_ s) f + 1 < 2 ^ 64)%N →
  ∃ r',
    touch (replacer_ s) f = Ok r' ∧ LRUKFacts.wf r' ∧
    LRUK.replacer_size_ r' = LRUK.replacer_size_ (replacer_ s) ∧
    LRUK.count r' f = (LRUK.count (replacer_ s) f + 1)%N ∧
    LRUK.evictable r' f = false ∧
    ∀ g, g ≠ f → LRUK.count r' g = LRUK.count (replacer_ s) g ∧
                 LRUK.evictable r' g = LRUK.evictable (replacer_ s) g.
Proof.
  intros Hinv [Hf0 Hf] Hcount. unfold touch.
  pose proof (inv_small _ _ Hinv) as Hsmall.
  pose proof (inv_replacer_size _ _ Hinv) as Hsize.
  pose proof (inv_replacer _ _ Hinv) as Hwf.
  destruct (LRUKFacts.RecordAccess_Ok (replacer_ s) f) as [r1 Hr1]; [lia..|].
  rewrite Hr1. simpl.
  pose proof (LRUKFacts.RecordAccess_wf _ _ _ Hwf Hcount Hr1) as Hwf1.
  apply LRUKFacts.RecordAccess_effect in Hr1 as Hr1'.
  destruct Hr1' as (Hs1 & Hc1 & Hco1 & He1).
  rewrite LRUKFacts.size_t_inc_small in Hc1 by done.
  destruct (LRUKFacts.SetEvictable_Ok r1 f false) as [r2 Hr2]; [lia..|].
  apply LRUKFacts.SetEvictable_effect in Hr2 as Hr2'.
  destruct Hr2' as (Hs2 & Hc2 & He2 & _ & Heo2).
  exists r2. split_and!; try done.
  - apply (LRUKFacts.SetEvictable_wf r1 f false); [done| |done].
    assert (LRUK.curr_size_ r1 = LRUK.curr_size_ (replacer_ s)) as ->.
    { revert Hr1. unfold LRUK.RecordAccess. destruct (_ >? _)%Z; [done|].
      repeat case_match; by intros [= <-]. }
    by eapply curr_size_small.
  - congruence.
  - by rewrite Hc2.
  - apply He2. rewrite Hc1. lia.
  - intros g Hg. rewrite Hc2, Heo2, He1 by done. split; [by apply Hco1|done].
Qed.

(** The frame [f], valid and not free, receives the page [p'] and the
    replacer changes for [f] only. *)
Lemma inv_frame (s : t) f p' r' table' next' disk' :
  inv_gen (λ g, g = f) s → valid_frame s f → (f ∉ free_list_ s) →
  LRUKFacts.wf r' →
  LRUK.replacer_size_ r' = LRUK.replacer_size_ (replacer_ s) →
  (∀ g, g ≠ f → LRUK.count r' g = LRUK.count (replacer_ s) g ∧
                LRUK.evictable r' g = LRUK.evictable (replacer_ s) g) →
  LRUK.count r' f ≠ 0%N → (0 ≤ pin_count_ p')%Z →
  (LRUK.evictable r' f = true ↔ pin_count_ p' = 0%Z) →
  (∀ pid g, table' !! pid = Some g →
     (g = f ∧ page_id_ p' = pid) ∨ (g ≠ f ∧ page_table_ s !! pid = Some g)) →
  inv (mk (pool_size_ s) (set_page s f p') (free_list_ s) table' r' next' disk').
Proof.
  intros Hinv Hf Hnfree Hwf Hsize Hother Hcount Hpin Hev Htable.
  pose proof (inv_pages _ _ Hinv) as Hlen.
  assert (∀ g, valid_frame s g →
    page_at (mk (pool_size_ s) (set_page s f p') (free_list_ s) table' r' next' disk') g
    = if decide (g = f) then p' else page_at s g) as Hpage.
  { intros g [Hg0 Hg]. by apply page_at_set. }
  constructor; simpl.
  - apply (inv_small _ _ Hinv).
  - unfold set_page. by rewrite length_insert.
  - rewrite Hsize. apply (inv_replacer_size _ _ Hinv).
  - done.
  - apply (inv_free_nodup _ _ Hinv).
  - intros g Hg. destruct (inv_free _ _ Hinv g Hg) as (Hv & Hc & Hp).
    assert (g ≠ f) as Hne by (by intros ->).
    rewrite (Hpage g Hv), decide_False by done.
    destruct (Hother g Hne) as [-> _]. done.
  - intros g Hg. destruct (decide (g = f)) as [->|Hne]; [done|].
    apply (inv_accessed _ _ Hinv). by destruct (Hother g Hne) as [<- _].
  - intros g Hv Hnf _. destruct (decide (g = f)) as [->|Hne]; [done|].
    destruct (Hother g Hne) as [-> _]. by apply (inv_used _ _ Hinv).
  - intros g Hv. rewrite (Hpage g Hv). case_decide; [done|].
    by apply (inv_pin _ _ Hinv).
  - intros g Hv Hnf _. rewrite (Hpage g Hv).
    destruct (decide (g = f)) as [->|Hne]; [done|].
    destruct (Hother g Hne) as [_ ->]. by apply (inv_evictable _ _ Hinv).
  - intros pid g Hg _. destruct (Htable pid g Hg) as [[-> Hp]|[Hne Hg']].
    + rewrite (Hpage f Hf), decide_True by done. done.
    + destruct (inv_table _ _ Hinv pid g Hg' Hne) as (Hv & Hnf & Hp).
      rewrite (Hpage g Hv), decide_False by done. done.
Qed.

(** ** The choice of the frame *)

(** How [take_frame] got the frame [f], and the pool [s1] it leaves: either
    [f] was the back of the free list, and only the free list changed; or the
    free list was empty and the replacer evicted [f], whose page was written
    back to the disk if it was dirty, whose buffer was zeroed and dirty flag
    cleared, and whose page id left the page table. *)
Definition taken (s : t) (f : Z) (s1 : t) : Prop :=
  (∃ l, free_list_ s = l ++ [f] ∧
     s1 = mk (pool_size_ s) (pages_ s) l (page_table_ s) (replacer_ s)
             (next_page_id_ s) (disk_ s)) ∨
  (free_list_ s = [] ∧
   ∃ r1, LRUK.Evict (replacer_ s) = Some (f, r1) ∧
     let p := page_at s f in
     s1 = mk (pool_size_ s)
             (set_page s f (mkPage zero_data (page_id_ p) (pin_count_ p) false))
             [] (delete (page_id_ p) (page_table_ s)) r1 (next_page_id_ s)
             (if is_dirty_ p then <[page_id_ p := data_ p]> (disk_ s)
              else disk_ s)).

Lemma take_frame_taken (s : t) f s1 : take_frame s = Some (f, s1) → taken s f s1.
Proof.
  unfold take_frame, taken.
  destruct (last (free_list_ s)) as [f'|] eqn:Hlast.
  - intros [= -> <-]. left. apply last_Some in Hlast as [l Hl].
    exists l. split; [done|]. by rewrite Hl, removelast_last.
  - apply last_None in Hlast.
    destruct (LRUK.Evict (replacer_ s)) as [[f' r1]|] eqn:Hev; [|done].
    intros [= -> <-]. right. split; [done|]. exists r1. split; [done|].
    simpl. by rewrite Hlast.
Qed.

(** The pool after [take_frame]: the invariant holds but for the frame
    taken, which is valid, not free, not pinned, unknown to the replacer and
    to the page table. *)
Lemma take_frame_spec (s : t) :
  inv s → all_pinned s = false →
  ∃ f s1,
    take_frame s = Some (f, s1) ∧
    inv_gen (λ g, g = f) s1 ∧
    valid_frame s1 f ∧ (f ∉ free_list_ s1) ∧
    LRUK.count (replacer_ s1) f = 0%N ∧
    pin_count_ (page_at s f) = 0%Z ∧ pin_count_ (page_at s1 f) = 0%Z ∧
    (∀ pid, page_table_ s1 !! pid ≠ Some f) ∧
    pool_size_ s1 = pool_size_ s.
Proof.
  intros Hinv Hall.
  pose proof (inv_pages _ _ Hinv) as Hlen.
  apply all_pinned_false in Hall as (g0 & Hg0 & Hpin0); [|done].
  unfold take_frame. destruct (last (free_list_ s)) as [f|] eqn:Hlast.
  - apply last_Some in Hlast as [l Hl].
    pose proof (inv_free_nodup _ _ Hinv) as Hnd. rewrite Hl in Hnd.
    apply NoDup_app in Hnd as (Hndl & Hdisj & _).
    assert (f ∉ l) as Hfl.
    { intros Hin. apply (Hdisj f Hin). by left. }
    assert (f ∈ free_list_ s) as Hfin.
    { rewrite Hl. apply elem_of_app. right. by left. }
    destruct (inv_free _ _ Hinv f Hfin) as (Hv & Hc & Hp).
    assert (∀ g, g ∈ free_list_ s ↔ g ∈ l ∨ g = f) as Hfree.
    { intros g. rewrite Hl, elem_of_app, list_elem_of_singleton. done. }
    rewrite Hl, removelast_last.
    eexists f, _. split; [done|]. split_and!; try done.
    + constructor; simpl; try apply Hinv.
      * done.
      * intros g Hg. apply (inv_free _ _ Hinv). apply Hfree. by left.
      * intros g Hv' Hnl Hne. apply (inv_used _ _ Hinv); [done| |tauto].
        rewrite Hfree. tauto.
      * intros g Hv' Hnl Hne. apply (inv_evictable _ _ Hinv); [done| |tauto].
        rewrite Hfree. tauto.
      * intros pid g Hg Hne.
        destruct (inv_table _ _ Hinv pid g Hg) as (Hv' & Hnf & Hp'); [tauto|].
        split_and!; try done. rewrite Hfree in Hnf. tauto.
    + intros pid Hpid.
      destruct (inv_table _ _ Hinv pid f Hpid) as (_ & Hnf & _); [tauto|]. done.
  - apply last_None in Hlast.
    pose proof (inv_replacer _ _ Hinv) as Hwf.
    assert (LRUK.evictable (replacer_ s) g0 = true) as Hev0.
    { assert (g0 ∉ free_list_ s) as Hnf0
        by (rewrite Hlast; apply not_elem_of_nil).
      by apply (proj2 (inv_evictable _ _ Hinv g0 Hg0 Hnf0 (λ x, x))). }
    destruct (LRUK.Evict (replacer_ s)) as [[f r1]|] eqn:Hev.
    2:{ pose proof (proj1 (LRUKFacts.Evict_None _ Hwf) Hev g0). congruence. }
    pose proof (LRUKFacts.Evict_wf _ _ _ Hwf Hev) as Hwf1.
    pose proof (LRUKFacts.Evict_size _ _ _ Hev) as Hsize1.
    destruct (LRUKFacts.Evict_Some _ _ _ Hwf Hev) as (Hvict & Hc1 & He1 & _ & _ & Hoth).
    assert (LRUK.evictable (replacer_ s) f = true) as Hevf.
    { destruct Hvict as [Hv|[_ Hv]]; by eapply LRUKFacts.victim_evictable. }
    assert (valid_frame s f) as Hv.
    { apply (inv_accessed _ _ Hinv). by apply (LRUKFacts.wf_evictable _ Hwf). }
    assert (f ∉ free_list_ s) as Hnf by (rewrite Hlast; apply not_elem_of_nil).
    assert (pin_count_ (page_at s f) = 0%Z) as Hpf.
    { by apply (proj1 (inv_evictable _ _ Hinv f Hv Hnf (λ x, x))). }
    set (p' := mkPage zero_data _ _ false).
    set (s1 := mk _ _ _ _ _ _ _).
    assert (∀ g, valid_frame s g →
              page_at s1 g = if decide (g = f) then p' else page_at s g) as Hpage.
    { intros g [Hg0' Hg]. unfold s1. by apply page_at_set. }
    exists f, s1. split; [done|]. split_and!; try done.
    + constructor; simpl; try apply Hinv.
      * unfold set_page. by rewrite length_insert.
      * rewrite Hsize1. apply Hinv.
      * done.
      * intros g Hg. by rewrite Hlast in Hg; apply elem_of_nil in Hg.
      * intros g Hg. destruct (decide (g = f)) as [->|Hne]; [done|].
        apply (inv_accessed _ _ Hinv). by destruct (Hoth g Hne) as [<- _].
      * intros g Hvg _ Hne. destruct (Hoth g Hne) as [-> _].
        apply (inv_used _ _ Hinv); [done| |tauto].
        rewrite Hlast. apply not_elem_of_nil.
      * intros g Hvg. rewrite (Hpage g Hvg). case_decide; [by subst; simpl; lia|].
        by apply (inv_pin _ _ Hinv).
      * intros g Hvg _ Hne. rewrite (Hpage g Hvg), decide_False by done.
        destruct (Hoth g Hne) as (_ & -> & _).
        apply (inv_evictable _ _ Hinv); [done| |tauto].
        rewrite Hlast. apply not_elem_of_nil.
      * intros pid g Hg Hne. apply lookup_delete_Some in Hg as [Hpid Hg].
        destruct (inv_table _ _ Hinv pid g Hg) as (Hvg & Hnfg & Hpg); [tauto|].
        rewrite (Hpage g Hvg), decide_False by done. done.
    + rewrite (Hpage f Hv), decide_True by done. done.
    + intros pid Hpid. unfold s1 in Hpid. simpl in Hpid.
      apply lookup_delete_Some in Hpid as [Hpid Hg].
      destruct (inv_table _ _ Hinv pid f Hg) as (_ & _ & Hp); [tauto|].
      congruence.
Qed.

Lemma taken_same (s : t) f s1 :
  taken s f s1 →
  pool_size_ s1 = pool_size_ s ∧ next_page_id_ s1 = next_page_id_ s.
Proof. by intros [(l & _ & ->)|(_ & r1 & _ & ->)]. Qed.

Lemma taken_other (s : t) f s1 g :
  inv s → valid_frame s f → valid_frame s g → g ≠ f → taken s f s1 →
  page_at s1 g = page_at s g.
Proof.
  intros Hinv Hf Hg Hne [(l & _ & ->)|(_ & r1 & _ & ->)]; [done|].
  destruct Hg as [Hg0 Hg].
  rewrite page_at_set, decide_False; try done. apply Hinv.
Qed.

Lemma all_pinned_pos (s : t) :
  inv s →
  all_pinned s = true ↔ ∀ f, valid_frame s f → (0 < pin_count_ (page_at s f))%Z.
Proof.
  intros Hinv. rewrite all_pinned_true by apply Hinv.
  split; intros H f Hf; specialize (H f Hf);
    pose proof (inv_pin _ _ Hinv f Hf); lia.
Qed.

(** ** [NewPgImp] and [FetchPgImp] *)

(** The page installed in the frame taken. *)
Lemma install_inv (s1 : t) f page_id r data dirty next' :
  inv_gen (λ g, g = f) s1 → valid_frame s1 f → (f ∉ free_list_ s1) →
  (∀ pid, page_table_ s1 !! pid ≠ Some f) →
  LRUKFacts.wf r →
  LRUK.replacer_size_ r = LRUK.replacer_size_ (replacer_ s1) →
  LRUK.count r f ≠ 0%N → LRUK.evictable r f = false →
  (∀ g, g ≠ f → LRUK.count r g = LRUK.count (replacer_ s1) g ∧
                LRUK.evictable r g = LRUK.evictable (replacer_ s1) g) →
  inv (mk (pool_size_ s1) (set_page s1 f (mkPage data page_id 1 dirty))
          (free_list_ s1) (<[page_id := f]> (page_table_ s1)) r next' (disk_ s1)).
Proof.
  intros Hinv Hv Hnf Hnt Hwf Hsize Hc He Hoth.
  apply inv_frame; try done.
  - simpl. rewrite He. split; [done|lia].
  - intros pid g Hg. apply lookup_insert_Some in Hg as [[<- <-]|[Hne Hg]].
    + by left.
    + right. split; [|done]. intros ->. by apply (Hnt pid).
Qed.

Lemma NewPgImp_ok (s : t) :
  inv s → all_pinned s = false →
  ∃ f s1 s',
    NewPgImp s = Ok (Some (next_page_id_ s, f), s') ∧ inv s' ∧
    take_frame s = Some (f, s1) ∧ valid_frame s f ∧
    pin_count_ (page_at s f) = 0%Z ∧
    page_at s' f = mkPage (data_ (page_at s1 f)) (next_page_id_ s) 1
                          (is_dirty_ (page_at s1 f)) ∧
    (∀ g, valid_frame s g → g ≠ f → page_at s' g = page_at s g) ∧
    page_table_ s' = <[next_page_id_ s := f]> (page_table_ s1) ∧
    free_list_ s' = free_list_ s1 ∧ disk_ s' = disk_ s1 ∧
    next_page_id_ s' = int32_inc (next_page_id_ s) ∧
    pool_size_ s' = pool_size_ s.
Proof.
  intros Hinv Hall. unfold NewPgImp. rewrite Hall.
  destruct (take_frame_spec s Hinv Hall)
    as (f & s1 & Htake & Hinv1 & Hv1 & Hnf1 & Hc1 & Hp & Hp1 & Hnt & Hpool).
  rewrite Htake.
  pose proof (take_frame_taken _ _ _ Htake) as Htaken.
  destruct (taken_same _ _ _ Htaken) as [_ Hnext].
  assert (valid_frame s f) as Hv by (unfold valid_frame in *; by rewrite <-Hpool).
  destruct (touch_spec _ s1 f Hinv1 Hv1) as (r & Hr & Hwf & Hsize & Hc & He & Hoth).
  { rewrite Hc1. lia. }
  rewrite Hr. simpl. rewrite Hnext.
  eexists f, s1, _. split; [done|].
  pose proof (inv_pages _ _ Hinv1) as Hlen1.
  split_and!; try done.
  - apply install_inv; try done. rewrite Hc, Hc1. lia.
  - destruct Hv1. by rewrite page_at_set, decide_True.
  - intros g Hg Hne.
    rewrite <-(taken_other s f s1 g) by done.
    destruct Hg. by rewrite page_at_set, decide_False.
Qed.

Lemma FetchPgImp_miss_ok (s : t) page_id :
  inv s → page_table_ s !! page_id = None → all_pinned s = false →
  ∃ f s1 s',
    FetchPgImp s page_id = Ok (Some f, s') ∧ inv s' ∧
    take_frame s = Some (f, s1) ∧ valid_frame s f ∧
    pin_count_ (page_at s f) = 0%Z ∧
    page_at s' f = mkPage (ReadPage (disk_ s1) page_id) page_id 1
                          (is_dirty_ (page_at s1 f)) ∧
    (∀ g, valid_frame s g → g ≠ f → page_at s' g = page_at s g) ∧
    page_table_ s' = <[page_id := f]> (page_table_ s1) ∧
    free_list_ s' = free_list_ s1 ∧ disk_ s' = disk_ s1 ∧
    next_page_id_ s' = next_page_id_ s ∧
    pool_size_ s' = pool_size_ s.
Proof.
  intros Hinv Hmiss Hall. unfold FetchPgImp. rewrite Hmiss, Hall.
  destruct (take_frame_spec s Hinv Hall)
    as (f & s1 & Htake & Hinv1 & Hv1 & Hnf1 & Hc1 & Hp & Hp1 & Hnt & Hpool).
  rewrite Htake.
  pose proof (take_frame_taken _ _ _ Htake) as Htaken.
  destruct (taken_same _ _ _ Htaken) as [_ Hnext].
  assert (valid_frame s f) as Hv by (unfold valid_frame in *; by rewrite <-Hpool).
  destruct (touch_spec _ s1 f Hinv1 Hv1) as (r & Hr & Hwf & Hsize & Hc & He & Hoth).
  { rewrite Hc1. lia. }
  rewrite Hr. simpl.
  eexists f, s1, _. split; [done|].
  pose proof (inv_pages _ _ Hinv1) as Hlen1.
  split_and!; try done.
  - apply install_inv; try done. rewrite Hc, Hc1. lia.
  - destruct Hv1. by rewrite page_at_set, decide_True.
  - intros g Hg Hne.
    rewrite <-(taken_other s f s1 g) by done.
    destruct Hg. by rewrite page_at_set, decide_False.
Qed.

Lemma FetchPgImp_hit_ok (s : t) page_id f :
  inv s → page_table_ s !! page_id = Some f →
  (LRUK.count (replacer_ s) f + 1 < 2 ^ 64)%N →
  ∃ s',
    FetchPgImp s page_id = Ok (Some f, s') ∧ inv s' ∧
    page_at s' f = mkPage (data_ (page_at s f)) (page_id_ (page_at s f))
                          (pin_count_ (page_at s f) + 1)
                          (is_dirty_ (page_at s f)) ∧
    (∀ g, valid_frame s g → g ≠ f → page_at s' g = page_at s g) ∧
    page_table_ s' = page_table_ s ∧ free_list_ s' = free_list_ s ∧
    disk_ s' = disk_ s ∧ next_page_id_ s' = next_page_id_ s.
Proof.
  intros Hinv Hhit Hcount. unfold FetchPgImp. rewrite Hhit.
  destruct (inv_table _ _ Hinv page_id f Hhit) as (Hv & Hnf & Hpid); [tauto|].
  destruct (touch_spec _ s f Hinv Hv Hcount) as (r & Hr & Hwf & Hsize & Hc & He & Hoth).
  rewrite Hr. simpl. eexists. split; [done|].
  pose proof (inv_pages _ _ Hinv) as Hlen.
  pose proof (inv_pin _ _ Hinv f Hv) as Hpin.
  split_and!; try done.
  - apply inv_frame; try done.
    + by apply inv_gen_weaken.
    + rewrite Hc. lia.
    + simpl. lia.
    + simpl. rewrite He. split; [done|lia].
    + intros pid g Hg. destruct (decide (g = f)) as [->|Hne]; [left|by right].
      split; [done|]. simpl.
      by destruct (inv_table _ _ Hinv pid f Hg) as (_ & _ & ->); [tauto|].
  - destruct Hv. by rewrite page_at_set, decide_True.
  - intros g [] Hne. by rewrite page_at_set, decide_False.
Qed.

(** ** [UnpinPgImp] *)

Lemma UnpinPgImp_ok (s : t) page_id is_dirty f :
  inv s → page_table_ s !! page_id = Some f → page_id ≠ INVALID_PAGE_ID →
  (0 < pin_count_ (page_at s f))%Z →
  ∃ s',
    UnpinPgImp s page_id is_dirty = Ok (true, s') ∧ inv s' ∧
    page_at s' f = mkPage (data_ (page_at s f)) (page_id_ (page_at s f))
                          (pin_count_ (page_at s f) - 1)
                          (is_dirty || is_dirty_ (page_at s f)) ∧
    (∀ g, valid_frame s g → g ≠ f → page_at s' g = page_at s g) ∧
    (LRUK.evictable (replacer_ s') f = true ↔ pin_count_ (page_at s f) = 1%Z) ∧
    (pin_count_ (page_at s f) ≠ 1%Z → replacer_ s' = replacer_ s) ∧
    (∀ g, g ≠ f →
       LRUK.evictable (replacer_ s') g = LRUK.evictable (replacer_ s) g) ∧
    (∀ g, LRUK.count (replacer_ s') g = LRUK.count (replacer_ s) g) ∧
    page_table_ s' = page_table_ s ∧ free_list_ s' = free_list_ s ∧
    disk_ s' = disk_ s ∧ next_page_id_ s' = next_page_id_ s ∧
    pool_size_ s' = pool_size_ s.
Proof.
  intros Hinv Hhit Hvalid Hpin. unfold UnpinPgImp. rewrite Hhit.
  destruct (inv_table _ _ Hinv page_id f Hhit) as (Hv & Hnf & Hpid); [tauto|].
  pose proof (inv_pages _ _ Hinv) as Hlen.
  pose proof (inv_small _ _ Hinv) as Hsmall.
  pose proof (inv_replacer_size _ _ Hinv) as Hsize.
  pose proof (inv_replacer _ _ Hinv) as Hwf.
  assert (LRUK.count (replacer_ s) f ≠ 0%N) as Hcount
    by (apply (inv_used _ _ Hinv); tauto).
  assert (LRUK.evictable (replacer_ s) f = false) as Hev.
  { destruct (LRUK.evictable (replacer_ s) f) eqn:He; [|done].
    apply (inv_evictable _ _ Hinv) in He; [lia|done|done|tauto]. }
  assert ((if is_dirty then is_dirty else is_dirty_ (page_at s f))
          = is_dirty || is_dirty_ (page_at s f)) as -> by by destruct is_dirty.
  rewrite (proj2 (Z.eqb_neq _ _)) by done.
  rewrite (proj2 (Z.leb_gt _ _)) by done. simpl.
  destruct (Z.eqb_spec (pin_count_ (page_at s f) - 1) 0) as [Hz|Hz].
  - destruct (LRUKFacts.SetEvictable_Ok (replacer_ s) f true) as [r Hr];
      [destruct Hv; lia..|].
    rewrite Hr. simpl.
    apply LRUKFacts.SetEvictable_effect in Hr as Hr'.
    destruct Hr' as (Hs & Hc & He & _ & Heo).
    eexists. split; [done|]. split_and!; try done.
    + apply inv_frame; try done.
      * by apply inv_gen_weaken.
      * apply (LRUKFacts.SetEvictable_wf (replacer_ s) f true); [done| |done].
        by eapply curr_size_small.
      * intros g Hg. by rewrite Hc, Heo.
      * by rewrite Hc.
      * simpl. lia.
      * simpl. by rewrite He.
      * intros pid g Hg. destruct (decide (g = f)) as [->|Hne]; [left|by right].
        split; [done|]. simpl.
        by destruct (inv_table _ _ Hinv pid f Hg) as (_ & _ & ->); [tauto|].
    + destruct Hv. by rewrite page_at_set, decide_True.
    + intros g [] Hne. by rewrite page_at_set, decide_False.
    + simpl. rewrite He by done. split; [lia|done].
    + lia.
  - eexists. split; [done|]. split_and!; try done.
    + apply inv_frame; try done.
      * by apply inv_gen_weaken.
      * simpl. lia.
      * simpl. rewrite Hev. split; [done|lia].
      * intros pid g Hg. destruct (decide (g = f)) as [->|Hne]; [left|by right].
        split; [done|]. simpl.
        by destruct (inv_table _ _ Hinv pid f Hg) as (_ & _ & ->); [tauto|].
    + destruct Hv. by rewrite page_at_set, decide_True.
    + intros g [] Hne. by rewrite page_at_set, decide_False.
    + simpl. rewrite Hev. split; [done|lia].
Qed.

Lemma UnpinPgImp_false (s : t) page_id is_dirty :
  (page_id = INVALID_PAGE_ID ∨ page_table_ s !! page_id = None ∨
   ∃ f, page_table_ s !! page_id = Some f ∧ (pin_count_ (page_at s f) ≤ 0)%Z) →
  UnpinPgImp s page_id is_dirty = Ok (false, s).
Proof.
  unfold UnpinPgImp. intros [->|[->|(f & -> & Hpin)]]; [by case_match|done|].
  case_match; [done|]. by rewrite (proj2 (Z.leb_le _ _)).
Qed.

(** ** [FlushPgImp] and [DeletePgImp] keep the invariant *)

Lemma FlushPgImp_inv (s : t) page_id : inv s → inv (FlushPgImp s page_id).2.
Proof.
  intros Hinv. unfold FlushPgImp.
  destruct (page_table_ s !! page_id) as [f|] eqn:Hhit; [|done].
  case_match; [done|]. simpl.
  destruct (inv_table _ _ Hinv page_id f Hhit) as (Hv & Hnf & Hpid); [tauto|].
  apply inv_frame; try done.
  - by apply inv_gen_weaken.
  - apply Hinv.
  - apply (inv_used _ _ Hinv); tauto.
  - simpl. by apply (inv_pin _ _ Hinv).
  - simpl. apply (inv_evictable _ _ Hinv); tauto.
  - intros pid g Hg. destruct (decide (g = f)) as [->|Hne]; [left|by right].
    split; [done|]. simpl.
    by destruct (inv_table _ _ Hinv pid f Hg) as (_ & _ & ->); [tauto|].
Qed.

Lemma DeletePgImp_inv (s : t) page_id :
  inv s → ∃ res s', DeletePgImp s page_id = Ok (res, s') ∧ inv s'.
Proof.
  intros Hinv. unfold DeletePgImp.
  destruct (page_table_ s !! page_id) as [f|] eqn:Hhit; [|by eexists _, _].
  case_match; [by eexists _, _|].
  destruct (Z.ltb_spec 0 (pin_count_ (page_at s f))) as [Hpin|Hpin];
    [by eexists _, _|].
  destruct (inv_table _ _ Hinv page_id f Hhit) as (Hv & Hnf & Hpid); [tauto|].
  pose proof (inv_pages _ _ Hinv) as Hlen.
  pose proof (inv_small _ _ Hinv) as Hsmall.
  pose proof (inv_replacer_size _ _ Hinv) as Hsize.
  pose proof (inv_replacer _ _ Hinv) as Hwf.
  pose proof (inv_pin _ _ Hinv f Hv) as Hpin0.
  assert (LRUK.evictable (replacer_ s) f = true) as Hev
    by (apply (inv_evictable _ _ Hinv); [done|done|tauto|lia]).
  destruct (LRUKFacts.Remove_Ok (replacer_ s) f) as [r Hr]; [destruct Hv; lia..|].
  rewrite Hr. simpl. eexists _, _. split; [done|].
  pose proof (LRUKFacts.Remove_wf _ _ _ Hwf (or_introl Hev) Hr) as Hwf'.
  destruct (LRUKFacts.Remove_effect _ _ _ Hwf Hr) as (Hs & Hc & He & Hoth).
  set (p' := mkPage zero_data INVALID_PAGE_ID 0 false).
  assert (∀ g fl tb n d, valid_frame s g →
    page_at (mk (pool_size_ s) (set_page s f p') fl tb r n d) g
    = if decide (g = f) then p' else page_at s g) as Hpage.
  { intros g fl tb n d [Hg0 Hg]. by apply page_at_set. }
  constructor; simpl.
  - done.
  - unfold set_page. by rewrite length_insert.
  - by rewrite Hs.
  - done.
  - apply NoDup_cons. split; [done|apply Hinv].
  - intros g [->|Hg]%elem_of_cons.
    + split; [done|]. split; [done|]. by rewrite Hpage, decide_True.
    + destruct (inv_free _ _ Hinv g Hg) as (Hvg & Hcg & Hpg).
      assert (g ≠ f) as Hne by (by intros ->).
      destruct (Hoth g Hne) as [-> _].
      by rewrite Hpage, decide_False.
  - intros g Hg. destruct (decide (g = f)) as [->|Hne]; [done|].
    destruct (Hoth g Hne) as [Hcg _]. rewrite Hcg in Hg.
    by apply (inv_accessed _ _ Hinv).
  - intros g Hvg [Hne Hnfg]%not_elem_of_cons _.
    destruct (Hoth g Hne) as [-> _]. apply (inv_used _ _ Hinv); tauto.
  - intros g Hvg. rewrite Hpage by done. case_decide; [done|].
    by apply (inv_pin _ _ Hinv).
  - intros g Hvg [Hne Hnfg]%not_elem_of_cons _.
    destruct (Hoth g Hne) as [_ ->]. rewrite Hpage, decide_False by done.
    apply (inv_evictable _ _ Hinv); tauto.
  - intros pid g [Hne Hg]%lookup_delete_Some _.
    destruct (inv_table _ _ Hinv pid g Hg) as (Hvg & Hnfg & Hpg); [tauto|].
    assert (g ≠ f) as Hgf by (intros ->; congruence).
    split; [done|]. split; [by apply not_elem_of_cons|].
    by rewrite Hpage, decide_False.
Qed.

(** ** Claim C3 *)

(** The pool [s'] after the page [page_id] went into the frame [f] chosen by
    [take_frame]: the frame holds [page_id] with pin count 1 and the bytes
    [data_of s1], where [s1] is the pool that [take_frame] left; no other
    frame changed, and the page table of [s1] now also sends [page_id] to
    [f]. *)
Definition loaded (s : t) (f page_id : Z) (data_of : t → page_data) (s' : t)
    : Prop :=
  ∃ s1, taken s f s1 ∧
    page_at s' f = mkPage (data_of s1) page_id 1 (is_dirty_ (page_at s1 f)) ∧
    (∀ g, valid_frame s g → g ≠ f → page_at s' g = page_at s g) ∧
    page_table_ s' = <[page_id := f]> (page_table_ s1) ∧
    free_list_ s' = free_list_ s1 ∧ disk_ s' = disk_ s1.

Lemma int32_inc_small (n : Z) : (n < 2 ^ 31 - 1)%Z → int32_inc n = (n + 1)%Z.
Proof. intros Hn. unfold int32_inc. by rewrite (proj2 (Z.eqb_neq _ _)) by lia. Qed.

(** C3. For every pool that satisfies the invariant, [NewPgImp] does not
    throw and keeps the invariant.  It returns no page exactly when every
    frame has a positive pin count, and then changes nothing.  Otherwise the
    page id returned is the value of the counter [next_page_id_], which goes
    up by one (below [2 ^ 31 - 1]); the frame had pin count 0 and now holds
    the new page id with pin count 1, and the page table sends the page id to
    it.  The frame is the back of the free list when that list is not empty,
    and else the frame that the replacer evicts: the old page is written to
    the disk if dirty, the dirty flag cleared, the bytes zeroed and the old
    page id removed from the page table (see [taken]).  [FetchPgImp] of a
    page that is not resident chooses and prepares its frame the same way,
    and reads the page from the disk. *)
Theorem new_page_spec (s : t) (Hinv : inv s) :
  (∃ res s', NewPgImp s = Ok (res, s') ∧ inv s' ∧
     (res = None ↔ ∀ f, valid_frame s f → (0 < pin_count_ (page_at s f))%Z) ∧
     (res = None → s' = s) ∧
     ∀ page_id f, res = Some (page_id, f) →
       page_id = next_page_id_ s ∧
       next_page_id_ s' = int32_inc (next_page_id_ s) ∧
       ((next_page_id_ s < 2 ^ 31 - 1)%Z →
        next_page_id_ s' = (next_page_id_ s + 1)%Z) ∧
       valid_frame s f ∧ pin_count_ (page_at s f) = 0%Z ∧
       page_id_ (page_at s' f) = page_id ∧
       pin_count_ (page_at s' f) = 1%Z ∧
       page_table_ s' !! page_id = Some f ∧
       loaded s f page_id (λ s1, data_ (page_at s1 f)) s') ∧
  (∀ page_id, page_table_ s !! page_id = None →
   ∃ res s', FetchPgImp s page_id = Ok (res, s') ∧ inv s' ∧
     (res = None ↔ ∀ f, valid_frame s f → (0 < pin_count_ (page_at s f))%Z) ∧
     (res = None → s' = s) ∧
     ∀ f, res = Some f →
       next_page_id_ s' = next_page_id_ s ∧
       valid_frame s f ∧ pin_count_ (page_at s f) = 0%Z ∧
       page_id_ (page_at s' f) = page_id ∧
       pin_count_ (page_at s' f) = 1%Z ∧
       page_table_ s' !! page_id = Some f ∧
       loaded s f page_id (λ s1, ReadPage (disk_ s1) page_id) s').
Proof.
  split.
  - destruct (all_pinned s) eqn:Hall.
    + exists None, s. unfold NewPgImp. rewrite Hall.
      split_and!; try done. by rewrite <-all_pinned_pos.
    + destruct (NewPgImp_ok s Hinv Hall)
        as (f & s1 & s' & -> & Hinv' & Htake & Hv & Hp & Hpage & Hoth & Htb
            & Hfl & Hd & Hn & _).
      exists (Some (next_page_id_ s, f)), s'. split_and!; try done.
      * split; [done|]. rewrite <-all_pinned_pos by done. congruence.
      * intros page_id f' [= <- <-]. split_and!; try done.
        -- intros Hlt. by rewrite Hn, int32_inc_small.
        -- by rewrite Hpage.
        -- by rewrite Hpage.
        -- by rewrite Htb, lookup_insert_eq.
        -- exists s1. split_and!; try done. by apply take_frame_taken.
  - intros page_id Hmiss. destruct (all_pinned s) eqn:Hall.
    + exists None, s. unfold FetchPgImp. rewrite Hmiss, Hall.
      split_and!; try done. by rewrite <-all_pinned_pos.
    + destruct (FetchPgImp_miss_ok s page_id Hinv Hmiss Hall)
        as (f & s1 & s' & -> & Hinv' & Htake & Hv & Hp & Hpage & Hoth & Htb
            & Hfl & Hd & Hn & _).
      exists (Some f), s'. split_and!; try done.
      * split; [done|]. rewrite <-all_pinned_pos by done. congruence.
      * intros f' [= <-]. split_and!; try done.
        -- by rewrite Hpage.
        -- by rewrite Hpage.
        -- by rewrite Htb, lookup_insert_eq.
        -- exists s1. split_and!; try done. by apply take_frame_taken.
Qed.

Lemma new_page_spec_witness :
  inv (init 2 2) ∧
  ∃ res s', NewPgImp (init 2 2) = Ok (res, s') ∧ inv s' ∧
            fst <$> res = Some 0%Z.
Proof.
  assert (inv (init 2 2)) as Hinv by (by apply inv_init).
  split; [done|].
  destruct (new_page_spec (init 2 2) Hinv) as [(res & s' & H & Hinv' & Hnone & _ & Hsome) _].
  exists res, s'. split_and!; [done..|].
  destruct res as [[page_id f]|].
  - by destruct (Hsome page_id f eq_refl) as (-> & _).
  - destruct Hnone as [Hnone _]. specialize (Hnone eq_refl 0%Z).
    vm_compute in Hnone. by destruct Hnone.
Defined.

(** ** Claim C4 *)

(** C4. For every pool that satisfies the invariant, [UnpinPgImp] does not
    throw and keeps the invariant.  It returns [true] exactly when the page
    id is valid and resident in a frame with a positive pin count; when it
    returns [false] the pool is unchanged.  On success the pin count of the
    frame goes down by one, the dirty flag becomes the disjunction of the
    argument and the old flag, the frame was not evictable and is evictable
    afterwards exactly when the new pin count is 0, and nothing else
    changes. *)
Theorem unpin_page_spec (s : t) (page_id : Z) (is_dirty : bool) (Hinv : inv s) :
  ∃ res s', UnpinPgImp s page_id is_dirty = Ok (res, s') ∧ inv s' ∧
    (res = true ↔
       page_id ≠ INVALID_PAGE_ID ∧
       ∃ f, page_table_ s !! page_id = Some f ∧
            (0 < pin_count_ (page_at s f))%Z) ∧
    (res = false → s' = s) ∧
    ∀ f, res = true → page_table_ s !! page_id = Some f →
      pin_count_ (page_at s' f) = (pin_count_ (page_at s f) - 1)%Z ∧
      is_dirty_ (page_at s' f) = is_dirty || is_dirty_ (page_at s f) ∧
      data_ (page_at s' f) = data_ (page_at s f) ∧
      page_id_ (page_at s' f) = page_id_ (page_at s f) ∧
      LRUK.evictable (replacer_ s) f = false ∧
      (LRUK.evictable (replacer_ s') f = true ↔
         pin_count_ (page_at s' f) = 0%Z) ∧
      (∀ g, g ≠ f →
         LRUK.evictable (replacer_ s') g = LRUK.evictable (replacer_ s) g) ∧
      (∀ g, valid_frame s g → g ≠ f → page_at s' g = page_at s g) ∧
      page_table_ s' = page_table_ s ∧ free_list_ s' = free_list_ s ∧
      disk_ s' = disk_ s ∧ next_page_id_ s' = next_page_id_ s.
Proof.
  assert (∀ f, page_table_ s !! page_id = Some f →
            LRUK.evictable (replacer_ s) f = true →
            pin_count_ (page_at s f) = 0%Z) as Hevict.
  { intros f Hhit He.
    destruct (inv_table _ _ Hinv page_id f Hhit) as (Hv & Hnf & _); [tauto|].
    apply (inv_evictable _ _ Hinv) in He; [done|done|done|tauto]. }
  destruct (decide (page_id = INVALID_PAGE_ID)) as [Hinvalid|Hvalid].
  { exists false, s. rewrite UnpinPgImp_false by by left.
    split_and!; try done. split; [done|]. by intros [? _]. }
  destruct (page_table_ s !! page_id) as [f|] eqn:Hhit.
  2: { exists false, s. rewrite UnpinPgImp_false by (right; by left).
       split_and!; try done. split; [done|]. by intros (_ & f & ? & _). }
  destruct (Z.le_gt_cases (pin_count_ (page_at s f)) 0) as [Hpin|Hpin].
  { exists false, s. rewrite UnpinPgImp_false by (right; right; by exists f).
    split_and!; try done. split; [done|].
    intros (_ & f' & [= <-] & ?). lia. }
  destruct (UnpinPgImp_ok s page_id is_dirty f Hinv Hhit Hvalid)
    as (s' & -> & Hinv' & Hpage & Hoth & Hev & _ & Hevo & _ & Htb & Hfl & Hd
        & Hn & _); [lia|].
  exists true, s'. split_and!; try done.
  - split; [|done]. intros _. split; [done|]. exists f. split; [done|lia].
  - intros f' _ [= <-].
    rewrite Hpage. simpl. split_and!; try done.
    + destruct (LRUK.evictable (replacer_ s) f) eqn:He; [|done].
      specialize (Hevict f eq_refl He). lia.
    + rewrite Hev. lia.
Qed.

(** A pool of two frames after one [NewPgImp]: page 0 is pinned once. *)
Definition pool_one : t :=
  match NewPgImp (init 2 2) with
  | Ok (_, s) => s
  | Throw => init 2 2
  end.

Lemma pool_one_inv : inv pool_one.
Proof.
  assert (inv (init 2 2)) as Hinv by (by apply inv_init).
  unfold pool_one. destruct (all_pinned (init 2 2)) eqn:Hall; [done|].
  by destruct (NewPgImp_ok _ Hinv Hall) as (f & s1 & s' & -> & Hinv' & _).
Qed.

Lemma unpin_page_spec_witness :
  inv pool_one ∧
  ∃ s', UnpinPgImp pool_one 0 true = Ok (true, s') ∧ inv s' ∧
        UnpinPgImp s' 0 false = Ok (false, s').
Proof.
  split; [apply pool_one_inv|].
  destruct (unpin_page_spec pool_one 0 true pool_one_inv)
    as (res & s' & H & Hinv' & Hres & _ & Hok).
  assert (page_table_ pool_one !! 0%Z = Some 1%Z) as Hhit by (by vm_compute).
  assert (res = true) as ->.
  { apply Hres. split; [done|]. exists 1%Z. split; [done|]. by vm_compute. }
  exists s'. split_and!; [done..|].
  destruct (Hok 1%Z eq_refl Hhit) as (Hpin & _ & _ & _ & _ & _ & _ & _ & Htb & _).
  apply UnpinPgImp_false. right. right. exists 1%Z. rewrite Htb.
  split; [done|]. rewrite Hpin. by vm_compute.
Defined.

End BPMFacts.

(** * Properties of the B+-tree *)

Module BPTFacts.
Import BPT.

(** ** The binary search returns *)

Lemma search_is_Some (fuel : nat) a key (l r : Z) :
  (0 ≤ l)%Z → Z.to_nat (r - l) ≤ fuel → is_Some (search fuel a key l r).
Proof.
  revert l r. induction fuel as [|fuel IH]; intros l r Hl Hfuel; simpl.
  - destruct (Z.ltb_spec l r); [lia|done].
  - destruct (Z.ltb_spec l r) as [Hlt|]; [|done].
    assert ((l + r) ÷ 2 = (l + r) / 2)%Z as -> by (apply Z.quot_div_nonneg; lia).
    unfold entry. rewrite (proj2 (Z.ltb_ge _ _)) by (apply Z.div_pos; lia).
    assert (l ≤ (l + r) / 2)%Z by (apply Z.div_le_lower_bound; lia).
    assert ((l + r) / 2 < r)%Z by (apply Z.div_lt_upper_bound; lia).
    simpl. case_match; apply IH; lia.
Qed.

Lemma Leaf_KeyIndex_is_Some n key : is_Some (Leaf_KeyIndex n key).
Proof.
  unfold Leaf_KeyIndex. case_match; [done|].
  apply search_is_Some; lia.
Qed.

Lemma Internal_KeyIndex_is_Some n key : is_Some (Internal_KeyIndex n key).
Proof.
  unfold Internal_KeyIndex. case_match; [done|].
  apply search_is_Some; lia.
Qed.

(** ** More fuel does not change a result *)

(** [m'] returns what [m] returns, whenever [m] returns. *)
Definition refines {A : Type} (m m' : M A) : Prop :=
  ∀ s r, m s = Some r → m' s = Some r.

Lemma refines_refl {A : Type} (m : M A) : refines m m.
Proof. by intros s r. Qed.

Lemma refines_bind {A B : Type} (m m' : M A) (k k' : A → M B) :
  refines m m' → (∀ a, refines (k a) (k' a)) → refines (bind m k) (bind m' k').
Proof.
  intros Hm Hk s r. unfold bind.
  destruct (m s) as [[a s1]|] eqn:Hms; [|done].
  rewrite (Hm _ _ Hms). apply Hk.
Qed.

Lemma refines_fail {A : Type} (m : M A) : refines (lift None) m.
Proof. by intros s r. Qed.

#[local] Hint Resolve refines_refl refines_fail : core.

Lemma descend_mono (fuel fuel' : nat) key op page :
  fuel ≤ fuel' → refines (descend fuel key op page) (descend fuel' key op page).
Proof.
  revert fuel' page. induction fuel as [|fuel IH]; intros fuel' page Hle.
  - destruct fuel'; [done|]. simpl.
    apply refines_bind; [done|]. intros node. by destruct (IsLeafPage node).
  - destruct fuel'; [lia|]. simpl.
    apply refines_bind; [done|]. intros node.
    destruct (IsLeafPage node); [done|].
    do 4 (apply refines_bind; [done|]; intros ?).
    apply refines_bind; [done|]. intros _. apply IH. lia.
Qed.

Lemma FindLeafPage_mono (fuel fuel' : nat) key op :
  fuel ≤ fuel' → refines (FindLeafPage fuel key op) (FindLeafPage fuel' key op).
Proof.
  intros Hle. unfold FindLeafPage.
  apply refines_bind; [done|]. intros s. destruct (IsEmpty s); [done|].
  do 2 (apply refines_bind; [done|]; intros ?).
  apply refines_bind; [|done]. by apply descend_mono.
Qed.

Lemma InsertInParent_mono (fuel fuel' : nat) leaf_page key brother_page :
  fuel ≤ fuel' →
  refines (InsertInParent fuel leaf_page key brother_page)
          (InsertInParent fuel' leaf_page key brother_page).
Proof.
  revert fuel' leaf_page key brother_page.
  induction fuel as [|fuel IH]; intros fuel' leaf_page key brother_page Hle.
  - destruct fuel'; [done|]. simpl.
    do 2 (apply refines_bind; [done|]; intros ?).
    case_match; [done|].
    do 2 (apply refines_bind; [done|]; intros ?).
    by case_match.
  - destruct fuel'; [lia|]. simpl.
    do 2 (apply refines_bind; [done|]; intros ?).
    case_match; [done|].
    do 2 (apply refines_bind; [done|]; intros ?).
    case_match; [done|].
    do 5 (apply refines_bind; [done|]; intros ?).
    apply refines_bind; [|done]. apply IH. lia.
Qed.

Lemma find_or_start_mono (fuel1 fuel1' fuel2 fuel2' : nat) key :
  fuel1 ≤ fuel1' → fuel2 ≤ fuel2' →
  refines (find_or_start fuel1 fuel2 key) (find_or_start fuel1' fuel2' key).
Proof.
  revert fuel1'. induction fuel1 as [|fuel1 IH]; intros fuel1' Hle1 Hle2.
  - destruct fuel1'; simpl.
    + apply refines_bind; [by apply FindLeafPage_mono|]. by intros [?|].
    + apply refines_bind; [by apply FindLeafPage_mono|]. by intros [?|].
  - destruct fuel1'; [lia|]. simpl.
    apply refines_bind; [by apply FindLeafPage_mono|]. intros [?|]; [done|].
    do 2 (apply refines_bind; [done|]; intros ?).
    apply IH; [lia|done].
Qed.

Lemma Insert_mono (fuel fuel' : nat) key value :
  fuel ≤ fuel' → refines (Insert fuel key value) (Insert fuel' key value).
Proof.
  intros Hle. unfold Insert.
  apply refines_bind; [by apply find_or_start_mono|]. intros leaf_page.
  do 3 (apply refines_bind; [done|]; intros ?).
  case_match; [done|].
  do 2 (apply refines_bind; [done|]; intros ?).
  apply refines_bind; [|done].
  case_match; [|done].
  do 5 (apply refines_bind; [done|]; intros ?).
  apply refines_bind; [|done]. by apply InsertInParent_mono.
Qed.

Lemma Inserts_mono (fuel fuel' : nat) keys :
  fuel ≤ fuel' → refines (Inserts fuel keys) (Inserts fuel' keys).
Proof.
  intros Hle. induction keys as [|key keys IH]; simpl; [done|].
  apply refines_bind; [by apply Insert_mono|]. by intros _.
Qed.

(** ** Claim C1 *)

(** The tree at the end of scenario S5, called with a transaction. *)
Definition tree_S5 : t :=
  Eval vm_compute in
    match scenario_S5 1 (Some []) with
    | Some (_, s) => s
    | None => init 3 3 None
    end.

(** The pages of the tree at the end of scenario S5: the root holds the key
    3 and has two internal pages as children, which hold the keys 2 and 4;
    the leaves hold 1; 2; 3; and 4, 5. *)
Definition shape_S5 : list (nat * bool * list Z) :=
  [(0, false, [3%Z]); (1, false, [2%Z]); (2, true, [1%Z]); (2, true, [2%Z]);
   (1, false, [4%Z]); (2, true, [3%Z]); (2, true, [4%Z; 5%Z])].

Lemma scenario_S5_fuel (fuel : nat) (transaction : option (list Z)) r :
  transaction = None ∨ transaction = Some [] →
  scenario_S5 fuel transaction = Some r →
  shape 3 r.2 0 (root_page_id_ r.2) = shape_S5.
Proof.
  intros Htr Hr.
  apply (Inserts_mono fuel (S fuel)) in Hr as Hr'; [|lia].
  assert (Inserts (S fuel) [1; 2; 3; 4; 5]%Z (init 3 3 transaction)
          = scenario_S5 1 transaction) as Heq.
  { destruct (scenario_S5 1 transaction) as [r1|] eqn:H1.
    - apply (Inserts_mono 1 (S fuel)) in H1; [done|lia].
    - by destruct Htr as [-> | ->]; vm_compute in H1. }
  rewrite Heq in Hr'.
  destruct Htr as [-> | ->]; vm_compute in Hr'; by injection Hr' as <-.
Qed.

(** C1, as stated, fails: the root that scenario S5 leaves does not have the
    two leaves [1, 2] and [3, 4, 5] as its children, whatever the fuel given
    to the loops and whether or not the calls pass a transaction. *)
Lemma scenario_S5_not_two_leaves :
  ¬ ∃ fuel transaction s,
      (transaction = None ∨ transaction = Some []) ∧
      scenario_S5 fuel transaction = Some (tt, s) ∧
      shape 3 s 0 (root_page_id_ s)
      = [(0, false, [3%Z]); (1, true, [1%Z; 2%Z]); (1, true, [3%Z; 4%Z; 5%Z])].
Proof.
  intros (fuel & transaction & s & Htr & Hs & Hshape).
  apply scenario_S5_fuel in Hs; [|done].
  change (shape 3 s 0 (root_page_id_ s) = shape_S5) in Hs.
  rewrite Hshape in Hs. discriminate Hs.
Qed.

(** C1, amended.  With [leaf_max_size = 3] and [internal_max_size = 3], the
    inserts of 1, 2, 3, 4, 5, each called with a transaction whose page set
    is empty, return (one unit of fuel is enough) and leave a tree of three
    levels: a leaf splits as soon as it holds 3 entries, its first entry
    stays and the two others move, so that the fifth insert finds the root
    full and splits it.  The root is an internal page with the keys [_, 3];
    its two children are internal pages with the keys [_, 2] and [_, 4]; the
    leaves are [1], [2], [3] and [4, 5], chained in this order.  Then
    [GetValue(4)], called with the transaction, returns [true] with the value
    of 4, and [GetValue(6)] returns [false]. *)
Theorem scenario_S5_result :
  (∀ fuel, 1 ≤ fuel → scenario_S5 fuel (Some []) = Some (tt, tree_S5)) ∧
  shape 3 tree_S5 0 (root_page_id_ tree_S5) = shape_S5 ∧
  chain 5 tree_S5 0 = [[1]; [2]; [3]; [4; 5]]%Z ∧
  fst <$> GetValue 2 4 tree_S5 = Some (Some 40%Z) ∧
  fst <$> GetValue 2 6 tree_S5 = Some None.
Proof.
  split_and!.
  - intros fuel Hle. apply (Inserts_mono 1 fuel); [done|].
    vm_compute. reflexivity.
  - vm_compute. reflexivity.
  - vm_compute. reflexivity.
  - vm_compute. reflexivity.
  - vm_compute. reflexivity.
Qed.

(** ** Claim C8 *)

#[local] Arguments INVALID_PAGE_ID : simpl never.

(** [Delete] changes the size and the entries of a page only. *)
Lemma Leaf_Delete_header n key b n' :
  Leaf_Delete n key = Some (b, n') →
  page_type_ n' = page_type_ n ∧ page_id_ n' = page_id_ n.
Proof.
  unfold Leaf_Delete. intros H.
  destruct (Leaf_KeyIndex n key) as [index|]; [|done]. simpl in H.
  destruct (if (index >=? size_ n)%Z then _ else _) as [[]|]; simpl in H;
    [by injection H as _ <-| |done].
  destruct (shift_down _ _ _); simpl in H; [|done]. by injection H as _ <-.
Qed.

Lemma Internal_Delete_header n key b n' :
  Internal_Delete n key = Some (b, n') →
  page_type_ n' = page_type_ n ∧ page_id_ n' = page_id_ n.
Proof.
  unfold Internal_Delete. intros H.
  destruct (Internal_KeyIndex n key) as [index|]; [|done]. simpl in H.
  destruct (if (index >=? size_ n)%Z then _ else _) as [[]|]; simpl in H;
    [by injection H as _ <-| |done].
  destruct (shift_down _ _ _); simpl in H; [|done]. by injection H as _ <-.
Qed.

Lemma descend_leaf (fuel : nat) key op page s p :
  pool_ s !! page = Some p → IsLeafPage (node_ p) = true →
  descend fuel key op page s = Some (page, s).
Proof.
  intros Hp Hleaf.
  destruct fuel; simpl; unfold bind, get_node; rewrite Hp; simpl; by rewrite Hleaf.
Qed.

Lemma pop_back_app (s : t) l back :
  transaction_ s = Some (l ++ [back]) →
  pop_back s = Some (tt, set_transaction (Some l) s).
Proof.
  intros Htr. unfold pop_back. rewrite Htr. simpl.
  rewrite decide_False by (by destruct l).
  by rewrite removelast_last.
Qed.

(** [DeleteEntry] empties the root, a leaf. *)
Lemma DeleteEntry_root_leaf (fuel : nat) (s : t) page key p n' l back :
  page ≠ INVALID_PAGE_ID →
  pool_ s !! page = Some p →
  pin_count_ p = 1%Z →
  transaction_ s = Some (l ++ [back]) →
  IsLeafPage (node_ p) = true →
  page_id_ (node_ p) = root_page_id_ s →
  Leaf_Delete (node_ p) key = Some (true, n') →
  size_ n' = 0%Z →
  DeleteEntry fuel page key s
  = Some (tt, mk INVALID_PAGE_ID (leaf_max_size_ s) (internal_max_size_ s)
                 (delete page (pool_ s)) (next_id_ s) (Some l)).
Proof.
  intros Hne%Z.eqb_neq Hp Hpin Htr Hleaf Hid Hdel Hsize.
  destruct (Leaf_Delete_header _ _ _ _ Hdel) as [Hty' Hid'].
  assert (IsLeafPage n' = true) as Hleaf'
    by (unfold IsLeafPage in *; by rewrite Hty').
  destruct s as [root lmax imax pool next tr]. simpl in *. subst tr.
  assert (DeleteEntry fuel page key = DeleteEntry 0 page key ∨ ∃ f, fuel = S f) as [->|[f ->]]
    by (destruct fuel; eauto).
  all: simpl; unfold bind, get_node, call, gets; simpl; rewrite Hp; simpl;
    rewrite Hleaf; simpl; rewrite Hp; simpl; rewrite Hdel; simpl;
    rewrite lookup_insert_eq; simpl; rewrite Hid', Hid, Z.eqb_refl; simpl;
    rewrite Hleaf', Hsize; simpl;
    erewrite pop_back_app by done; simpl;
    unfold UnpinPage, DeletePage; simpl.
  all: rewrite lookup_insert_eq; simpl; rewrite Hne, Hpin; simpl;
    rewrite lookup_insert_eq; simpl;
    unfold ret, set_pool; simpl; by rewrite !delete_insert_eq.
Qed.

(** [DeleteEntry] leaves one child to the root, an internal page. *)
Lemma DeleteEntry_root_internal (fuel : nat) (s : t) page key p n' l back :
  page ≠ INVALID_PAGE_ID →
  pool_ s !! page = Some p →
  pin_count_ p = 1%Z →
  transaction_ s = Some (l ++ [back]) →
  IsLeafPage (node_ p) = false →
  IsRootPage (node_ p) = true →
  page_id_ (node_ p) = root_page_id_ s →
  Internal_Delete (node_ p) key = Some (true, n') →
  size_ n' = 1%Z →
  DeleteEntry fuel page key s
  = Some (tt, mk (nth 0 (array_ n') (0, 0)%Z).2
                 (leaf_max_size_ s) (internal_max_size_ s)
                 (delete page (pool_ s)) (next_id_ s) (Some l)).
Proof.
  intros Hne%Z.eqb_neq Hp Hpin Htr Hleaf Hint Hid Hdel Hsize.
  destruct (Internal_Delete_header _ _ _ _ Hdel) as [Hty' Hid'].
  assert (IsLeafPage n' = false) as Hleaf'
    by (unfold IsLeafPage in *; by rewrite Hty').
  assert (IsRootPage n' = true) as Hint'
    by (unfold IsRootPage in *; by rewrite Hty').
  destruct s as [root lmax imax pool next tr]. simpl in *. subst tr.
  assert (DeleteEntry fuel page key = DeleteEntry 0 page key ∨ ∃ f, fuel = S f)
    as [->|[f ->]] by (destruct fuel; eauto).
  all: simpl; unfold bind, get_node, call, gets; simpl; rewrite Hp; simpl;
    rewrite Hleaf; simpl; rewrite Hp; simpl; rewrite Hdel; simpl;
    rewrite lookup_insert_eq; simpl; rewrite Hid', Hid, Z.eqb_refl; simpl;
    rewrite Hleaf', Hint', Hsize; simpl;
    erewrite pop_back_app by done; simpl;
    unfold UnpinPage, DeletePage; simpl.
  all: rewrite lookup_insert_eq; simpl; rewrite Hne, Hpin; simpl;
    rewrite lookup_insert_eq; simpl;
    unfold ret, set_pool; simpl; by rewrite !delete_insert_eq.
Qed.

(** The root is a leaf and [Remove] takes its last key. *)
Lemma Remove_last_key (fuel : nat) (s : t) (key : Z) (p : Page) (n' : BPlusTreePage) :
  root_page_id_ s ≠ INVALID_PAGE_ID →
  pool_ s !! root_page_id_ s = Some p →
  pin_count_ p = 0%Z →
  transaction_ s = Some [] →
  IsLeafPage (node_ p) = true →
  page_id_ (node_ p) = root_page_id_ s →
  Leaf_Delete (node_ p) key = Some (true, n') →
  size_ n' = 0%Z →
  Remove fuel key s
  = Some (tt, mk INVALID_PAGE_ID (leaf_max_size_ s) (internal_max_size_ s)
                 (delete (root_page_id_ s) (pool_ s)) (next_id_ s) (Some [])).
Proof.
  intros Hroot Hp Hpin Htr Hleaf Hid Hdel Hsize.
  destruct s as [root lmax imax pool next tr]. simpl in *. subst tr.
  unfold Remove, bind, gets, IsEmpty. simpl.
  rewrite (proj2 (Z.eqb_neq _ _)) by done.
  unfold FindLeafPage, bind, gets, IsEmpty. simpl.
  rewrite (proj2 (Z.eqb_neq _ _)) by done.
  unfold FetchPage at 1. simpl. rewrite Hp. simpl.
  rewrite descend_leaf with (p := mkPage (pin_count_ p + 1) (node_ p));
    [|simpl; by rewrite lookup_insert_eq|done].
  unfold ret. simpl.
  erewrite (DeleteEntry_root_leaf fuel _ root key _ n' [] root);
    [|done|simpl; by rewrite lookup_insert_eq|simpl; lia|done..].
  simpl. by rewrite delete_insert_eq.
Qed.

(** The tree after the inserts of 1, 2, 3, called with a transaction. *)
Definition tree_S123 : t :=
  Eval vm_compute in
    match Inserts 1 [1; 2; 3]%Z (init 3 3 (Some [])) with
    | Some (_, s) => s
    | None => init 3 3 None
    end.

(** C8. When [Remove] takes the last key of a root that is a leaf (the page
    not pinned by anyone else, the call given a transaction with an empty
    page set), the root page id becomes [INVALID_PAGE_ID], so that the tree
    is empty, and the page of the old root leaves the buffer pool.  When
    [DeleteEntry] takes a key from the root, an internal page pinned by this
    call only, and leaves it with size 1, the root page id becomes the one
    child left, [ValueAt(0)], and the page of the old root leaves the buffer
    pool.  The second case arises in a call of [Remove]: after the inserts of
    1, 2, 3 into a tree with maximal sizes 3, whose root has the leaves [1]
    and [2, 3] as children, [Remove(1)] merges the two leaves, takes the key
    2 out of the root, and makes the leaf that is left the root. *)
Theorem root_deletion :
  (∀ (fuel : nat) (s : t) (key : Z) (p : Page) (n' : BPlusTreePage),
     root_page_id_ s ≠ INVALID_PAGE_ID →
     pool_ s !! root_page_id_ s = Some p →
     pin_count_ p = 0%Z →
     transaction_ s = Some [] →
     IsLeafPage (node_ p) = true →
     page_id_ (node_ p) = root_page_id_ s →
     Leaf_Delete (node_ p) key = Some (true, n') →
     size_ n' = 0%Z →
     ∃ s', Remove fuel key s = Some (tt, s') ∧
           IsEmpty s' = true ∧
           root_page_id_ s' = INVALID_PAGE_ID ∧
           pool_ s' = delete (root_page_id_ s) (pool_ s) ∧
           transaction_ s' = Some []) ∧
  (∀ (fuel : nat) (s : t) (page key : Z) (p : Page) (n' : BPlusTreePage)
     (page_set : list Z) (back : Z),
     page ≠ INVALID_PAGE_ID →
     pool_ s !! page = Some p →
     pin_count_ p = 1%Z →
     transaction_ s = Some (page_set ++ [back]) →
     IsLeafPage (node_ p) = false →
     IsRootPage (node_ p) = true →
     page_id_ (node_ p) = root_page_id_ s →
     Internal_Delete (node_ p) key = Some (true, n') →
     size_ n' = 1%Z →
     ∃ s' child, DeleteEntry fuel page key s = Some (tt, s') ∧
           ValueAt n' 0 = Some child ∧
           root_page_id_ s' = child ∧
           pool_ s' = delete page (pool_ s) ∧
           transaction_ s' = Some page_set) ∧
  (Inserts 1 [1; 2; 3]%Z (init 3 3 (Some [])) = Some (tt, tree_S123) ∧
   shape 2 tree_S123 0 (root_page_id_ tree_S123)
   = [(0, false, [2%Z]); (1, true, [1%Z]); (1, true, [2%Z; 3%Z])] ∧
   ∃ s', Remove 1 1 tree_S123 = Some (tt, s') ∧
         shape 2 s' 0 (root_page_id_ s') = [(0, true, [2%Z; 3%Z])] ∧
         pool_ s' !! root_page_id_ tree_S123 = None).
Proof.
  split_and!.
  - intros fuel s key p n' Hroot Hp Hpin Htr Hleaf Hid Hdel Hsize.
    eexists. split; [by eapply Remove_last_key|]. done.
  - intros fuel s page key p n' page_set back Hne Hp Hpin Htr Hleaf Hint Hid Hdel
           Hsize.
    eexists _, _. split; [by eapply DeleteEntry_root_internal|]. done.
  - by vm_compute.
  - by vm_compute.
  - destruct (Remove 1 1 tree_S123) as [[[] s']|] eqn:Hs';
      [|by vm_compute in Hs'].
    exists s'. split; [done|].
    vm_compute in Hs'. injection Hs' as <-. split; by vm_compute.
Qed.

(** A tree whose root is a leaf with the key 1. *)
Definition tree_one : t :=
  mk 0 3 3 {[ 0%Z := mkPage 0 (mkNode LEAF_PAGE 1 3 (-1) 0 (-1) [(1, 10)%Z]) ]} 1
     (Some []).

(** A tree in a call of [Remove]: the root, the page 2, is pinned and at the
    back of the page set; it holds the key 2 between the pages 0 and 1. *)
Definition tree_two : t :=
  mk 2 3 3
     {[ 2%Z := mkPage 1 (mkNode INTERNAL_PAGE 2 3 (-1) 2 0 [(0, 0); (2, 1)]%Z) ]}
     3 (Some [2%Z]).

Lemma root_deletion_witness :
  (∃ s', Remove 0 1 tree_one = Some (tt, s') ∧
         root_page_id_ s' = INVALID_PAGE_ID ∧ pool_ s' !! 0%Z = None) ∧
  (∃ s', DeleteEntry 0 2 2 tree_two = Some (tt, s') ∧
         root_page_id_ s' = 0%Z ∧ pool_ s' !! 2%Z = None).
Proof.
  destruct root_deletion as (Hleaf & Hinternal & _). split.
  - destruct (Hleaf 0 tree_one 1%Z
                (mkPage 0 (mkNode LEAF_PAGE 1 3 (-1) 0 (-1) [(1, 10)%Z]))
                (mkNode LEAF_PAGE 0 3 (-1) 0 (-1) [(1, 10)%Z]))
      as (s' & Hs' & _ & Hroot & Hpool & _); try done.
    exists s'. split; [done|]. split; [done|]. rewrite Hpool. by vm_compute.
  - destruct (Hinternal 0 tree_two 2%Z 2%Z
                (mkPage 1 (mkNode INTERNAL_PAGE 2 3 (-1) 2 0 [(0, 0); (2, 1)]%Z))
                (mkNode INTERNAL_PAGE 1 3 (-1) 2 0 [(0, 0); (2, 1)]%Z)
                [] 2%Z)
      as (s' & child & Hs' & Hchild & Hroot & Hpool & _); try done.
    exists s'. split; [done|]. split.
    + rewrite Hroot. vm_compute in Hchild. by injection Hchild as <-.
    + rewrite Hpool. by vm_compute.
Defined.

End BPTFacts.


(** * More properties of the LRU-K replacer *)

Module LRUKProps.
Import LRUK LRUKFacts.

Lemma evictable_pos (s : t) f :
  wf s → evictable s f = true → (0 < curr_size_ s < 2 ^ 64)%N.
Proof.
  intros Hwf Hev. pose proof (wf_bound _ Hwf). split; [|done].
  rewrite (wf_curr_size _ Hwf).
  assert (f ∈ history_list_ s ++ cache_list_ s) as Hin.
  { apply (wf_listed _ Hwf). by apply (wf_evictable _ Hwf). }
  pose proof (nevict_pos (evictable s) f _ Hin Hev). lia.
Qed.

Lemma RecordAccess_curr_size (s : t) f s' :
  RecordAccess s f = Ok s' → curr_size_ s' = curr_size_ s.
Proof.
  unfold RecordAccess. destruct (_ >? _)%Z; [done|].
  repeat case_match; by intros [= <-].
Qed.

Lemma SetEvictable_curr_size (s : t) f b s' :
  wf s → (curr_size_ s + 1 < 2 ^ 64)%N → SetEvictable s f b = Ok s' →
  curr_size_ s' =
    if bool_decide (count s f ≠ 0%N) && negb (bool_decide (evictable s f = b))
    then (if b then curr_size_ s + 1 else curr_size_ s - 1)%N
    else curr_size_ s.
Proof.
  intros Hwf Hbound. unfold SetEvictable. destruct (_ >? _)%Z; [done|].
  destruct (N.eqb_spec (count s f) 0) as [Hc|Hc].
  - intros [= <-]. by rewrite bool_decide_eq_false_2 by (by intros ?).
  - intros [= <-]. simpl. rewrite bool_decide_eq_true_2 by done. simpl.
    destruct (evictable s f) eqn:Hev, b; simpl; try done.
    + apply size_t_dec_pos. by eapply evictable_pos.
    + by apply size_t_inc_small.
Qed.

(** X1. On a replacer whose members are consistent, [Size()] is the number
    of frames that are in one of the two lists and evictable, and every member
    function keeps it so: [RecordAccess] does not change [Size()];
    [SetEvictable] changes it by one exactly when it changes the flag of a
    frame that has been accessed; [Evict] and the [Remove] of an evictable
    frame take one off. *)
Theorem size_counts_evictable (s : t) (Hwf : wf s) :
  Size s = N.of_nat (nevict (evictable s) (history_list_ s ++ cache_list_ s)) ∧
  (∀ f s', (count s f + 1 < 2 ^ 64)%N → RecordAccess s f = Ok s' →
     wf s' ∧ Size s' = Size s) ∧
  (∀ f b s', (Size s + 1 < 2 ^ 64)%N → SetEvictable s f b = Ok s' →
     wf s' ∧
     Size s' =
       if bool_decide (count s f ≠ 0%N) && negb (bool_decide (evictable s f = b))
       then (if b then Size s + 1 else Size s - 1)%N
       else Size s) ∧
  (∀ f s', Evict s = Some (f, s') →
     wf s' ∧ (0 < Size s)%N ∧ Size s' = (Size s - 1)%N) ∧
  (∀ f s', evictable s f = true → Remove s f = Ok s' →
     wf s' ∧ (0 < Size s)%N ∧ Size s' = (Size s - 1)%N).
Proof.
  unfold Size. split_and!.
  - apply (wf_curr_size _ Hwf).
  - intros f s' Hc Hs'. split; [by eapply RecordAccess_wf|].
    by eapply RecordAccess_curr_size.
  - intros f b s' Hc Hs'. split; [by eapply SetEvictable_wf|].
    by eapply SetEvictable_curr_size.
  - intros f s' Hs'. split; [by eapply Evict_wf|].
    destruct (Evict_Some s f s' Hwf Hs') as [Hv (_ & _ & _ & Hsize & _)].
    split; [|done].
    assert (evictable s f = true) as Hev
      by (destruct Hv as [Hv|[_ Hv]]; by eapply victim_evictable).
    by eapply evictable_pos.
  - intros f s' Hev Hs'. split; [eapply Remove_wf; eauto|].
    pose proof (evictable_pos s f Hwf Hev) as Hpos. split; [lia|].
    revert Hs'. unfold Remove. destruct (_ >? _)%Z; [done|].
    destruct (N.eqb_spec (count s f) 0) as [Hc|Hc].
    { by destruct (wf_evictable _ Hwf f Hev). }
    case_match. intros [= <-]. simpl. by apply size_t_dec_pos.
Qed.

Lemma size_counts_evictable_witness :
  wf replacer_one ∧
  Size replacer_one = 1%N ∧
  (∀ s', Evict replacer_one = Some (1%Z, s') → Size s' = 0%N).
Proof.
  split; [apply replacer_one_wf|].
  destruct (size_counts_evictable replacer_one replacer_one_wf)
    as (Hsize & _ & _ & Hevict & _).
  split; [by rewrite Hsize|].
  intros s' Hs'. by destruct (Hevict _ _ Hs') as (_ & _ & ->).
Defined.

Lemma nevict_erase_false ev f l :
  ev f = false → nevict ev (erase f l) = nevict ev l.
Proof.
  intros Hf. induction l as [|x l IH]; simpl; [done|].
  destruct (decide (x = f)) as [->|Hne].
  - by rewrite nevict_cons, Hf.
  - by rewrite !nevict_cons, IH.
Qed.

(** X2. [Remove] does not ask whether the frame is evictable.  On a frame
    that has been accessed and is not evictable, it returns without throwing,
    forgets the frame and still decrements [curr_size_]: the number of
    evictable frames is what it was, so [Size()] no longer is that number;
    from 0 it wraps around to [2 ^ 64 - 1]. *)
Theorem remove_non_evictable (s : t) (f : Z)
    (Hwf : wf s)
    (Hrange : (f ≤ int_of_size_t (replacer_size_ s))%Z)
    (Hcount : count s f ≠ 0%N)
    (Hev : evictable s f = false) :
  ∃ s', Remove s f = Ok s' ∧
    count s' f = 0%N ∧
    (f ∉ history_list_ s' ++ cache_list_ s') ∧
    nevict (evictable s') (history_list_ s' ++ cache_list_ s')
    = nevict (evictable s) (history_list_ s ++ cache_list_ s) ∧
    Size s' = size_t_dec (Size s) ∧
    Size s' ≠ Size s ∧
    (Size s = 0%N → Size s' = (2 ^ 64 - 1)%N) ∧
    ¬ wf s'.
Proof.
  pose proof (wf_nodup _ Hwf) as Hnd.
  apply NoDup_app in Hnd as (Hndh & Hdisj & Hndc).
  pose proof (proj2 (wf_listed _ Hwf f) Hcount) as Hin.
  pose proof (wf_bound _ Hwf) as Hbound.
  unfold Remove.
  assert ((f >? int_of_size_t (replacer_size_ s))%Z = false) as -> by lia.
  rewrite (proj2 (N.eqb_neq _ _)) by done.
  set (h := if (k_ s <=? count s f)%N then history_list_ s
            else erase f (history_list_ s)).
  set (c := if (k_ s <=? count s f)%N then erase f (cache_list_ s)
            else cache_list_ s).
  assert ((if (k_ s <=? count s f)%N
           then (history_list_ s, erase f (cache_list_ s))
           else (erase f (history_list_ s), cache_list_ s)) = (h, c)) as ->
    by (unfold h, c; by destruct (_ <=? _)%N).
  assert (f ∉ h ++ c) as Hnotin.
  { unfold h, c. destruct (N.leb_spec (k_ s) (count s f)) as [Hk|Hk].
    - intros [Hh|Hc]%elem_of_app.
      + pose proof (wf_history _ Hwf f Hh). lia.
      + apply elem_of_erase in Hc; [|done]. by destruct Hc.
    - intros [Hh|Hc]%elem_of_app.
      + apply elem_of_erase in Hh; [|done]. by destruct Hh.
      + pose proof (wf_cache _ Hwf f Hc). lia. }
  assert (nevict (evictable s) (h ++ c)
          = nevict (evictable s) (history_list_ s ++ cache_list_ s)) as Hsame.
  { unfold h, c. rewrite !nevict_app.
    destruct (_ <=? _)%N; by rewrite nevict_erase_false. }
  eexists. split; [done|].
  assert (size_t_dec (curr_size_ s) ≠ curr_size_ s) as Hne.
  { unfold size_t_dec. destruct (decide (curr_size_ s = 0%N)) as [->|Hpos]; [done|].
    replace (curr_size_ s + 2 ^ 64 - 1)%N with (curr_size_ s - 1 + 1 * 2 ^ 64)%N by lia.
    rewrite N.Div0.mod_add, N.mod_small by lia. lia. }
  assert (nevict (evictable (mk (replacer_size_ s) (k_ s) (size_t_dec (curr_size_ s))
                    (<[f := 0%N]> (access_count_ s))
                    (<[f := false]> (is_evictable_ s)) h c)) (h ++ c)
          = nevict (evictable s) (h ++ c)) as Hev'.
  { apply nevict_ext. intros g Hg. unfold evictable at 1. simpl.
    destruct (decide (g = f)) as [->|Hgf]; [by destruct Hnotin|].
    by rewrite lookup_insert_ne. }
  unfold Size. simpl. split_and!.
  - unfold count. simpl. by rewrite lookup_insert_eq.
  - done.
  - by rewrite Hev'.
  - done.
  - done.
  - by intros ->.
  - intros Hwf'. pose proof (wf_curr_size _ Hwf') as Hcs. simpl in Hcs.
    rewrite Hev', Hsame, <-(wf_curr_size _ Hwf) in Hcs. done.
Qed.

(** A frame accessed once and never made evictable. *)
Definition replacer_pinned : t := mk 3 2 0 {[1%Z := 1%N]} ∅ [1%Z] [].

Lemma replacer_pinned_wf : wf replacer_pinned.
Proof. apply (RecordAccess_wf (init 3 2) 1); [apply wf_init|done|done]. Qed.

Lemma remove_non_evictable_witness :
  ∃ s', Remove replacer_pinned 1 = Ok s' ∧ Size s' = (2 ^ 64 - 1)%N ∧ ¬ wf s'.
Proof.
  destruct (remove_non_evictable replacer_pinned 1 replacer_pinned_wf)
    as (s' & Hs' & _ & _ & _ & _ & _ & Hwrap & Hnwf); [done..|].
  exists s'. split; [done|]. split; [by apply Hwrap|done].
Defined.

(** X3. The history list is ordered by first access and the cache list by
    last access.  [RecordAccess] puts a frame at the front of the history
    list at its first access and leaves both lists alone until the frame has
    [k_] accesses; the access that brings the count to [k_] moves the frame to
    the front of the cache list, and so does every access after it. *)
Theorem record_access_order (s : t) (f : Z)
    (Hwf : wf s)
    (Hrange : (f ≤ int_of_size_t (replacer_size_ s))%Z)
    (Hcount : (count s f + 1 < 2 ^ 64)%N) :
  ∃ s', RecordAccess s f = Ok s' ∧
    count s' f = (count s f + 1)%N ∧
    ((count s f + 1 < k_ s)%N →
       history_list_ s' = (if decide (count s f = 0%N)
                           then f :: history_list_ s else history_list_ s) ∧
       cache_list_ s' = cache_list_ s) ∧
    ((count s f + 1 = k_ s)%N →
       history_list_ s' = erase f (history_list_ s) ∧
       cache_list_ s' = f :: cache_list_ s ∧ (f ∉ cache_list_ s)) ∧
    ((k_ s < count s f + 1)%N →
       history_list_ s' = history_list_ s ∧
       cache_list_ s' = f :: erase f (cache_list_ s) ∧ (f ∉ history_list_ s)).
Proof.
  pose proof (wf_nodup _ Hwf) as Hnd.
  apply NoDup_app in Hnd as (Hndh & Hdisj & Hndc).
  unfold RecordAccess.
  assert ((f >? int_of_size_t (replacer_size_ s))%Z = false) as -> by lia.
  rewrite size_t_inc_small by done.
  assert (f ∈ history_list_ s → (count s f < k_ s)%N) as Hh
    by apply (wf_history _ Hwf).
  assert (f ∈ cache_list_ s → (k_ s ≤ count s f)%N) as Hc
    by apply (wf_cache _ Hwf).
  assert (count s f ≠ 0%N → f ∈ history_list_ s ∨ f ∈ cache_list_ s) as Hl.
  { intros H. apply elem_of_app. by apply (wf_listed _ Hwf). }
  assert (f ∈ history_list_ s ∨ f ∈ cache_list_ s → count s f ≠ 0%N) as Hl'.
  { intros H. apply (wf_listed _ Hwf). by apply elem_of_app. }
  unfold listed.
  destruct (N.eqb_spec (count s f + 1) (k_ s)) as [Hk|Hk].
  - eexists. split; [done|]. simpl. split_and!; try lia.
    + unfold count. simpl. by rewrite lookup_insert_eq.
    + intros _. split_and!; [|done|intros ?%Hc; lia].
      case_bool_decide; [done|]. by rewrite erase_not_in.
  - destruct (N.ltb_spec (k_ s) (count s f + 1)) as [Hgt|Hle].
    + eexists. split; [done|]. simpl. split_and!; try lia.
      * unfold count. simpl. by rewrite lookup_insert_eq.
      * intros _. split_and!; [done| |intros ?%Hh; lia].
        case_bool_decide; [done|]. by rewrite erase_not_in.
    + case_bool_decide as Hin; simpl.
      * eexists. split; [done|]. simpl. split_and!; try lia.
        -- unfold count. simpl. by rewrite lookup_insert_eq.
        -- intros _. rewrite decide_False; [done|]. apply Hl'. by left.
      * eexists. split; [done|]. simpl. split_and!; try lia.
        -- unfold count. simpl. by rewrite lookup_insert_eq.
        -- intros _. rewrite decide_True; [done|].
           destruct (decide (count s f = 0%N)) as [|Hne]; [done|].
           destruct (Hl Hne) as [?|?%Hc]; [done|lia].
Qed.

Lemma record_access_order_witness :
  ∃ s', RecordAccess replacer_pinned 1 = Ok s' ∧
        history_list_ s' = [] ∧ cache_list_ s' = [1%Z].
Proof.
  destruct (record_access_order replacer_pinned 1 replacer_pinned_wf)
    as (s' & Hs' & _ & _ & Hk & _); [done..|].
  exists s'. split; [done|]. destruct Hk as (-> & -> & _); done.
Defined.


End LRUKProps.

(** * More properties of the extendible hash table *)

Module EHTProps.
Import EHT EHTFacts.

Section props.
Context {K V : Type} `{EqDecision K}.
Variable hash : K → nat.

Implicit Types (s : t K V) (b : Bucket K V) (l : list (K * V)).

(** ** Items of other keys *)

Lemma lookup_items_filter (P : K * V → Prop) `{!∀ x, Decision (P x)} key l :
  (∀ v, P (key, v)) → lookup_items key (filter P l) = lookup_items key l.
Proof.
  intros HP. induction l as [|[k v] l IH]; [done|].
  rewrite filter_cons. destruct (decide (P (k, v))) as [Hk|Hk]; simpl.
  - destruct (decide (k = key)); [done|apply IH].
  - destruct (decide (k = key)) as [->|]; [by destruct Hk|apply IH].
Qed.

Lemma lookup_items_key_side mask key l :
  lookup_items key (key_side hash mask key l) = lookup_items key l.
Proof.
  unfold key_side. destruct (decide _) as [Hk|Hk].
  - apply lookup_items_filter. intros v. done.
  - apply lookup_items_filter. intros v. unfold goes_to_0. simpl.
    by destruct (decide (Nat.land (hash key) mask = 0)).
Qed.

Lemma lookup_items_assign_ne key key' value l :
  key' ≠ key → lookup_items key' (assign_items key value l) = lookup_items key' l.
Proof.
  intros Hne. induction l as [|[k v] l IH]; simpl; [done|].
  destruct (decide (k = key)) as [->|Hk]; simpl.
  - by rewrite !decide_False by done.
  - destruct (decide (k = key')); [done|apply IH].
Qed.

Lemma lookup_items_app_ne key key' value l :
  key' ≠ key → lookup_items key' (l ++ [(key, value)]) = lookup_items key' l.
Proof.
  intros Hne. induction l as [|[k v] l IH]; simpl.
  - by rewrite decide_False by done.
  - destruct (decide (k = key')); [done|apply IH].
Qed.

Lemma lookup_items_erase_ne key key' l :
  key' ≠ key → lookup_items key' (erase_items key l) = lookup_items key' l.
Proof.
  intros Hne. induction l as [|[k v] l IH]; simpl; [done|].
  destruct (decide (k = key)) as [->|Hk]; simpl.
  - by rewrite decide_False by done.
  - destruct (decide (k = key')); [done|apply IH].
Qed.

Lemma lookup_items_erase key l :
  NoDup l.*1 → lookup_items key (erase_items key l) = None.
Proof.
  intros Hnd. apply (lookup_items_None hash).
  induction l as [|[k v] l IH]; simpl; [by intros ?%elem_of_nil|].
  apply NoDup_cons in Hnd as [Hk Hnd].
  destruct (decide (k = key)) as [->|Hne]; [done|].
  simpl. apply not_elem_of_cons. split; [done|by apply IH].
Qed.

(** The bucket of a key, in a table that satisfies the invariant. *)
Lemma bucket_of (s : t K V) key :
  Inv hash s → ∃ r b, bucket_at s (IndexOf hash s key) = Some (r, b) ∧
                      NoDup (list_ b).*1 ∧ length (list_ b) ≤ size_ b.
Proof.
  intros Hinv. pose proof (IndexOf_lt hash s key Hinv) as Hlt.
  destruct (inv_slot hash s Hinv _ Hlt) as (r & b & Hat & _ & _ & _ & _ & Hlen & Hnd).
  by exists r, b.
Qed.

(** A split moves no item out of the reach of [Find]. *)
Lemma split_of_Find (s : t K V) key target tb key' :
  Inv hash s → bucket_at s (IndexOf hash s key) = Some (target, tb) →
  Find hash (split_of hash s target tb) key' = Find hash s key'.
Proof.
  intros Hinv Hat.
  destruct (bucket_of s key' Hinv) as (r' & b' & Hat' & _).
  destruct (decide (r' = target)) as [->|Hne].
  - assert (b' = tb) as ->.
    { apply bucket_at_Some in Hat as [_ Hb], Hat' as [_ Hb']. congruence. }
    destruct (split_of_bucket_at hash s key' target tb Hinv Hat') as [r Hr].
    unfold Find. rewrite Hr, Hat'. simpl. f_equal.
    unfold Bucket_Find. simpl. apply lookup_items_key_side.
  - unfold Find. rewrite Hat'. simpl.
    assert (bucket_at (split_of hash s target tb)
              (IndexOf hash (split_of hash s target tb) key') = Some (r', b')) as ->;
      [|done].
    pose proof (IndexOf_lt hash s key' Hinv) as Hlt.
    assert (Inv hash (split_of hash s target tb)) as Hinv1
      by (eapply split_of_Inv; [done| |done]; by apply IndexOf_lt).
    pose proof (IndexOf_lt hash _ key' Hinv1) as Hlt1.
    apply bucket_at_Some in Hat' as [Hr Hb].
    apply bucket_at_Some. split.
    + unfold bucket_ref in *. rewrite split_of_dir.
      rewrite split_of_dir, redirect_length in Hlt1.
      rewrite redirect_lookup, (dir1_lookup hash s _ _ Hinv Hlt1).
      assert (IndexOf hash (split_of hash s target tb) key' mod 2 ^ global_depth_ s
              = IndexOf hash s key') as ->.
      { rewrite !IndexOf_mod. apply mod_mod_pow2. rewrite split_of_depth.
        destruct (decide _); lia. }
      destruct (dir_ s !! IndexOf hash s key') as [[p|]|] eqn:Hd; simpl in *;
        try done.
      injection Hr as ->. rewrite decide_False; [done|]. by intros [= ->].
    + rewrite split_of_heap. apply lookup_app_l_Some. done.
Qed.

Lemma store_Find_other (s s' : t K V) key value r b key' :
  bucket_at s (IndexOf hash s key) = Some (r, b) → IsFull b = false →
  store hash s key value = Some s' → key' ≠ key →
  Find hash s' key' = Find hash s key'.
Proof.
  intros Hat Hfull Hs' Hne. unfold store in Hs'. rewrite Hat in Hs'. simpl in Hs'.
  injection Hs' as <-. apply bucket_at_Some in Hat as [Hr Hb].
  unfold Find, bucket_at.
  change (IndexOf hash (mk _ _ _ _ _) key') with (IndexOf hash s key').
  change (bucket_ref (mk _ _ _ _ _) (IndexOf hash s key'))
    with (bucket_ref s (IndexOf hash s key')).
  destruct (bucket_ref s (IndexOf hash s key')) as [r'|]; simpl; [|done].
  destruct (decide (r' = r)) as [->|Hr'].
  - rewrite list_lookup_insert_eq by (by eapply lookup_lt_Some).
    rewrite Hb. simpl. f_equal. unfold Bucket_Find, GetItems, Bucket_Insert.
    rewrite Hfull.
    destruct (lookup_items key (list_ b)) as [v|] eqn:Hlk; simpl.
    + by apply lookup_items_assign_ne.
    + by apply lookup_items_app_ne.
  - by rewrite list_lookup_insert_ne by done.
Qed.

Lemma Insert_Find_other fuel (s s' : t K V) key value key' :
  Inv hash s → Insert hash fuel s key value = Some s' → key' ≠ key →
  Find hash s' key' = Find hash s key'.
Proof.
  revert s. induction fuel as [|fuel IH]; intros s Hinv Hs' Hne.
  - destruct (bucket_of s key Hinv) as (r & b & Hat & _).
    simpl in Hs'. rewrite Hat in Hs'. simpl in Hs'.
    destruct (IsFull b) eqn:Hfull; [done|]. by eapply store_Find_other.
  - destruct (bucket_of s key Hinv) as (r & b & Hat & _).
    destruct (IsFull b) eqn:Hfull.
    + rewrite (Insert_step hash fuel s key value r b) in Hs' by done.
      rewrite (IH (split_of hash s r b)); [by eapply split_of_Find| |done|done].
      eapply split_of_Inv; [done| |done]. by apply IndexOf_lt.
    + rewrite (Insert_not_full hash _ s key value r b) in Hs' by done.
      by eapply store_Find_other.
Qed.

Lemma Find_init bucket_size key :
  Find hash (init bucket_size : t K V) key = Some None.
Proof.
  unfold Find, IndexOf. simpl. by rewrite Nat.land_0_r.
Qed.

(** ** [Remove] *)

Lemma Remove_Find (s s' : t K V) key res :
  Inv hash s → Remove hash s key = Some (res, s') →
  Find hash s' key = Some None ∧
  (res = true ↔ ∃ v, Find hash s key = Some (Some v)) ∧
  (∀ key', key' ≠ key → Find hash s' key' = Find hash s key').
Proof.
  intros Hinv Hs'.
  destruct (bucket_of s key Hinv) as (r & b & Hat & Hnd & _).
  unfold Remove in Hs'. rewrite Hat in Hs'. simpl in Hs'.
  destruct (Bucket_Remove b key) as [res' b'] eqn:Hrem.
  injection Hs' as -> <-.
  apply bucket_at_Some in Hat as [Hr Hb].
  assert (lookup_items key (list_ b') = None ∧
          (res = true ↔ ∃ v, lookup_items key (list_ b) = Some v) ∧
          ∀ key', key' ≠ key →
            lookup_items key' (list_ b') = lookup_items key' (list_ b))
    as (Hgone & Hres & Hoth).
  { revert Hrem. unfold Bucket_Remove.
    destruct (list_ b) as [|kv l] eqn:Hl.
    - intros [= <- <-]. rewrite Hl. split_and!; [done| |done].
      split; [done|]. by intros [v ?].
    - rewrite <-Hl in Hnd |- *.
      destruct (lookup_items key (list_ b)) as [v|] eqn:Hlk.
      + intros [= <- <-]. cbn [list_]. split_and!.
        * by apply lookup_items_erase.
        * split; [by exists v|done].
        * intros key' Hne. by apply lookup_items_erase_ne.
      + intros [= <- <-]. split_and!; [done| |done].
        split; [done|]. by intros [v ?]. }
  assert (∀ k, ∃ r' b0,
            bucket_ref s (IndexOf hash s k) = Some r' ∧ heap_ s !! r' = Some b0 ∧
            Find hash s k = Some (lookup_items k (list_ b0))) as Hfind.
  { intros k. destruct (bucket_of s k Hinv) as (r' & b0 & Hat' & _).
    exists r', b0. unfold Find. rewrite Hat'.
    apply bucket_at_Some in Hat' as [? ?]. done. }
  assert (∀ k r' b0, bucket_ref s (IndexOf hash s k) = Some r' →
            heap_ (mk (bucket_size_ s) (global_depth_ s) (num_buckets_ s)
                      (dir_ s) (<[r := b']> (heap_ s))) !! r' = Some b0 →
            Find hash (mk (bucket_size_ s) (global_depth_ s) (num_buckets_ s)
                          (dir_ s) (<[r := b']> (heap_ s))) k
            = Some (lookup_items k (list_ b0))) as Hfind'.
  { intros k r' b0 Hr' Hb0. unfold Find.
    assert (bucket_at (mk (bucket_size_ s) (global_depth_ s) (num_buckets_ s)
                          (dir_ s) (<[r := b']> (heap_ s)))
                      (IndexOf hash s k) = Some (r', b0)) as Hat'
      by (by apply bucket_at_Some).
    change (IndexOf hash (mk _ _ _ _ _) k) with (IndexOf hash s k).
    by rewrite Hat'. }
  assert (r < length (heap_ s)) as Hlt by (by eapply lookup_lt_Some).
  split_and!.
  - rewrite (Hfind' key r b'); [by rewrite Hgone|done|].
    simpl. by apply list_lookup_insert_eq.
  - rewrite Hres. unfold Find.
    assert (bucket_at s (IndexOf hash s key) = Some (r, b)) as ->
      by (by apply bucket_at_Some).
    simpl. unfold Bucket_Find. split; intros [v Hv]; exists v; congruence.
  - intros key' Hne.
    destruct (Hfind key') as (r' & b0 & Hr' & Hb0 & ->).
    destruct (decide (r' = r)) as [->|Hrr].
    + rewrite (Hfind' key' r b'); [|done|simpl; by apply list_lookup_insert_eq].
      rewrite Hoth by done. congruence.
    + by rewrite (Hfind' key' r' b0); [|done|simpl; by rewrite list_lookup_insert_ne].
Qed.

(** ** The table as a finite map *)

(** What a sequence of operations makes of the map [f] from keys to values:
    an insert binds the key, a remove unbinds it. *)
Definition denote_step (f : K → option V) (o : op K V) (k : K) : option V :=
  match o with
  | OpInsert key value => if decide (k = key) then Some value else f k
  | OpFind _ => f k
  | OpRemove key => if decide (k = key) then None else f k
  end.

Definition denote (ops : list (op K V)) : K → option V :=
  foldl denote_step (λ _, None) ops.

Lemma exec_denote fuel (s s' : t K V) o f :
  Inv hash s → (∀ k, Find hash s k = Some (f k)) →
  exec hash fuel s o = Some s' →
  ∀ k, Find hash s' k = Some (denote_step f o k).
Proof.
  intros Hinv Hf Hs' k. destruct o as [key value|key|key]; simpl in *.
  - destruct (decide (k = key)) as [->|Hne].
    + by eapply Insert_Find.
    + rewrite <-Hf. by eapply Insert_Find_other.
  - destruct (Find hash s key); simpl in Hs'; [|done]. injection Hs' as <-. apply Hf.
  - destruct (Remove hash s key) as [[res s1]|] eqn:Hrem; simpl in Hs'; [|done].
    injection Hs' as ->.
    destruct (Remove_Find s s' key res Hinv Hrem) as (Hgone & _ & Hoth).
    destruct (decide (k = key)) as [->|Hne]; [done|].
    rewrite <-Hf. by apply Hoth.
Qed.

Lemma run_denote fuel (s s' : t K V) ops f :
  Inv hash s → (∀ k, Find hash s k = Some (f k)) →
  run hash fuel s ops = Some s' →
  ∀ k, Find hash s' k = Some (foldl denote_step f ops k).
Proof.
  revert s f. induction ops as [|o ops IH]; intros s f Hinv Hf Hs'; simpl in *.
  - injection Hs' as <-. done.
  - destruct (exec hash fuel s o) as [s1|] eqn:Hexec; simpl in Hs'; [|done].
    apply (IH s1); [by eapply exec_Inv| |done].
    by eapply exec_denote.
Qed.

End props.

(** X4. In a table that satisfies the directory invariant, an [Insert] that
    returns binds the key to the value and changes the result of [Find] for
    no other key, whatever splits it went through. *)
Theorem insert_then_find {K V : Type} `{EqDecision K} (hash : K → nat)
    (fuel : nat) (s s' : t K V) (key : K) (value : V)
    (Hinv : Inv hash s)
    (Hinsert : Insert hash fuel s key value = Some s') :
  Find hash s' key = Some (Some value) ∧
  ∀ key', key' ≠ key → Find hash s' key' = Find hash s key'.
Proof.
  split.
  - by eapply Insert_Find.
  - intros key' Hne. by eapply Insert_Find_other.
Qed.

(** The table of scenario S4 before its last insert: the keys 1 and 5 fill
    the one bucket. *)
Definition table_two : t Z Z :=
  mk 2 0 1 [Some 0] [mkBucket 2 0 [(1, 10); (5, 50)]%Z].

Lemma table_two_Inv : Inv hash_int table_two.
Proof.
  apply (run_Inv hash_int 0 (init 2) table_two [OpInsert 1 10; OpInsert 5 50]%Z);
    [apply Inv_init|done].
Qed.

Lemma insert_then_find_witness :
  ∃ s', Insert hash_int 3 table_two 9%Z 90%Z = Some s' ∧
        Find hash_int s' 9%Z = Some (Some 90%Z) ∧
        Find hash_int s' 1%Z = Some (Some 10%Z) ∧
        Find hash_int s' 5%Z = Some (Some 50%Z).
Proof.
  destruct (Insert hash_int 3 table_two 9%Z 90%Z) as [s'|] eqn:Hs';
    [|by vm_compute in Hs'].
  destruct (insert_then_find hash_int 3 table_two s' 9%Z 90%Z table_two_Inv Hs')
    as [Hkey Hother].
  exists s'. split; [done|]. split; [done|].
  split; rewrite Hother by done; by vm_compute.
Defined.

(** X5. [Remove] returns [true] exactly when [Find] would have found the
    key; afterwards [Find] does not find the key, and finds every other key
    as before.  [Remove] never merges buckets: the directory, the global depth
    and the bucket count stay as they are. *)
Theorem remove_then_find {K V : Type} `{EqDecision K} (hash : K → nat)
    (s s' : t K V) (key : K) (res : bool)
    (Hinv : Inv hash s)
    (Hremove : Remove hash s key = Some (res, s')) :
  (res = true ↔ ∃ v, Find hash s key = Some (Some v)) ∧
  Find hash s' key = Some None ∧
  (∀ key', key' ≠ key → Find hash s' key' = Find hash s key') ∧
  dir_ s' = dir_ s ∧ GetGlobalDepth s' = GetGlobalDepth s ∧
  GetNumBuckets s' = GetNumBuckets s.
Proof.
  destruct (Remove_Find hash s s' key res Hinv Hremove) as (Hgone & Hres & Hoth).
  split_and!; try done.
  all: unfold Remove in Hremove;
    destruct (bucket_at s (IndexOf hash s key)) as [[r b]|]; [|done];
    simpl in Hremove; destruct (Bucket_Remove b key);
    by injection Hremove as _ <-.
Qed.

Lemma remove_then_find_witness :
  ∃ s', Remove hash_int table_two 5%Z = Some (true, s') ∧
        Find hash_int s' 5%Z = Some None ∧
        Find hash_int s' 1%Z = Some (Some 10%Z).
Proof.
  destruct (Remove hash_int table_two 5%Z) as [[res s']|] eqn:Hs';
    [|by vm_compute in Hs'].
  destruct (remove_then_find hash_int table_two s' 5%Z res table_two_Inv Hs')
    as (Hres & Hgone & Hother & _).
  assert (res = true) as -> by (apply Hres; exists 50%Z; by vm_compute).
  exists s'. split; [done|]. split; [done|].
  rewrite Hother by done. by vm_compute.
Defined.

(** X6. The table is a finite map.  After any sequence of [Insert], [Find]
    and [Remove] on a new table, each of which returned, [Find] returns for
    every key the value of its last [Insert], unless a [Remove] of the key
    came after it; it finds no key that was never inserted. *)
Theorem table_is_a_map {K V : Type} `{EqDecision K} (hash : K → nat)
    (bucket_size fuel : nat) (ops : list (op K V)) (s : t K V)
    (Hrun : run hash fuel (init bucket_size) ops = Some s) :
  ∀ key, Find hash s key = Some (denote ops key).
Proof.
  apply (run_denote hash fuel (init bucket_size) s ops).
  - apply Inv_init.
  - intros k. apply Find_init.
  - done.
Qed.

Lemma table_is_a_map_witness :
  ∃ s, run hash_int 3 (init 2)
         [OpInsert 1 10; OpInsert 5 50; OpRemove 1; OpInsert 5 51; OpInsert 9 90]%Z
       = Some s ∧
       Find hash_int s 1%Z = Some None ∧
       Find hash_int s 5%Z = Some (Some 51%Z) ∧
       Find hash_int s 9%Z = Some (Some 90%Z) ∧
       Find hash_int s 13%Z = Some None.
Proof.
  destruct (run hash_int 3 (init 2)
              [OpInsert 1 10; OpInsert 5 50; OpRemove 1; OpInsert 5 51;
               OpInsert 9 90]%Z) as [s|] eqn:Hs; [|by vm_compute in Hs].
  pose proof (table_is_a_map hash_int 2 3 _ s Hs) as Hmap.
  exists s. split; [done|]. by rewrite !Hmap.
Defined.

(** X7. [Insert] returns only when splitting can make room.  It returns at
    once, without a split, when the bucket of the key is not full.  If it
    returns from a full bucket, the bucket holds a key whose hash differs
    from the hash of the key inserted: when the bucket is full of keys with
    the hash of the key (as when the key itself fills a bucket of capacity
    1), no number of iterations of the [while] loop ends it. *)
Theorem insert_returns_only_if {K V : Type} `{EqDecision K} (hash : K → nat)
    (s : t K V) (key : K) (value : V) (r : nat) (b : Bucket K V)
    (Hinv : Inv hash s)
    (Hat : bucket_at s (IndexOf hash s key) = Some (r, b)) :
  (IsFull b = false → ∃ s', Insert hash 0 s key value = Some s') ∧
  ((∃ fuel s', Insert hash fuel s key value = Some s') →
   IsFull b = false ∨ ∃ k, k ∈ (list_ b).*1 ∧ hash k ≠ hash key) ∧
  (IsFull b = true → (∀ k, k ∈ (list_ b).*1 → hash k = hash key) →
   ∀ fuel, Insert hash fuel s key value = None).
Proof.
  split_and!.
  - intros Hfull. rewrite (Insert_not_full hash _ s key value r b) by done.
    by eapply store_is_Some.
  - intros (fuel & s' & Hs').
    destruct (IsFull b) eqn:Hfull; [|by left]. right.
    destruct (decide (Exists (λ k, hash k ≠ hash key) (list_ b).*1)) as [Hex|Hall].
    + apply Exists_exists in Hex as (k & Hk & Hne). by exists k.
    + apply not_Exists_Forall in Hall; [|apply _].
      rewrite (Insert_diverges hash fuel s key value r b) in Hs'; try done.
      intros k Hk. rewrite Forall_forall in Hall. specialize (Hall k Hk).
      simpl in Hall. by destruct (decide (hash k = hash key)).
  - intros Hfull Hkeys fuel. by apply (Insert_diverges hash fuel s key value r b).
Qed.

Lemma insert_returns_only_if_witness :
  (∃ s', Insert hash_int 0 (init 2) 3%Z 30%Z = Some s') ∧
  ¬ (∃ fuel s', Insert hash_int fuel table_one 1%Z 20%Z = Some s').
Proof.
  assert (Inv hash_int table_one) as Hinv.
  { apply (Insert_Inv hash_int 0 (init 1) table_one 1%Z 10%Z); [|done].
    apply Inv_init. }
  split.
  - destruct (insert_returns_only_if hash_int (init 2) 3%Z 30%Z 0
                (mkBucket 2 0 []) (Inv_init hash_int 2)) as [Hroom _]; [done|].
    exact (Hroom eq_refl).
  - intros Hret.
    destruct (insert_returns_only_if hash_int table_one 1%Z 20%Z 0
                (mkBucket 1 0 [(1, 10)]%Z) Hinv) as (_ & Honly & _); [done|].
    destruct (Honly Hret) as [Hfull|(k & Hk & Hne)]; [done|].
    simpl in Hk. apply list_elem_of_singleton in Hk. by subst.
Defined.

End EHTProps.

(** * More properties of the buffer pool manager *)

Module BPMProps.
Import BPM BPMFacts.

(** X8. [FetchPgImp] of a page that is in the pool returns its frame with
    one more pin and without any disk access: the bytes, the dirty flag, the
    disk, the page table and the free list are unchanged, no other frame
    changes, and the frame is not evictable afterwards. *)
Theorem fetch_resident_page (s : t) (page_id f : Z)
    (Hinv : inv s)
    (Hhit : page_table_ s !! page_id = Some f)
    (Hcount : (LRUK.count (replacer_ s) f + 1 < 2 ^ 64)%N) :
  ∃ s', FetchPgImp s page_id = Ok (Some f, s') ∧ inv s' ∧
    pin_count_ (page_at s' f) = (pin_count_ (page_at s f) + 1)%Z ∧
    data_ (page_at s' f) = data_ (page_at s f) ∧
    page_id_ (page_at s' f) = page_id ∧
    is_dirty_ (page_at s' f) = is_dirty_ (page_at s f) ∧
    LRUK.evictable (replacer_ s') f = false ∧
    (∀ g, valid_frame s g → g ≠ f → page_at s' g = page_at s g) ∧
    disk_ s' = disk_ s ∧ page_table_ s' = page_table_ s ∧
    free_list_ s' = free_list_ s ∧ next_page_id_ s' = next_page_id_ s.
Proof.
  destruct (FetchPgImp_hit_ok s page_id f Hinv Hhit Hcount)
    as (s' & Hs' & Hinv' & Hpage & Hoth & Htb & Hfl & Hd & Hn).
  destruct (inv_table _ _ Hinv page_id f Hhit) as (Hv & Hnf & Hpid); [tauto|].
  exists s'. rewrite Hpage. simpl. split_and!; try done.
  pose proof (inv_pin _ _ Hinv f Hv) as Hpin.
  destruct (LRUK.evictable (replacer_ s') f) eqn:Hev; [|done].
  assert (pool_size_ s' = pool_size_ s) as Hpool.
  { revert Hs'. unfold FetchPgImp. rewrite Hhit.
    destruct (touch _ _); simpl; [|done]. by intros [= <-]. }
  apply (inv_evictable _ _ Hinv') in Hev.
  - rewrite Hpage in Hev. simpl in Hev. lia.
  - unfold valid_frame in *. by rewrite Hpool.
  - by rewrite Hfl.
  - tauto.
Qed.

Lemma fetch_resident_page_witness :
  ∃ s', FetchPgImp pool_one 0 = Ok (Some 1%Z, s') ∧
        pin_count_ (page_at s' 1) = 2%Z ∧ disk_ s' = disk_ pool_one.
Proof.
  assert (page_table_ pool_one !! 0%Z = Some 1%Z) as Hhit by (by vm_compute).
  destruct (fetch_resident_page pool_one 0 1 pool_one_inv Hhit)
    as (s' & Hs' & _ & Hpin & _ & _ & _ & _ & _ & Hd & _); [by vm_compute|].
  exists s'. split; [done|]. split; [|done]. rewrite Hpin. by vm_compute.
Defined.

(** X9. [DeletePgImp] refuses a page that is pinned and changes nothing;
    it succeeds without effect on a page that is not in the pool.  For a page
    of the pool that is not pinned, it zeroes the frame, puts it at the front
    of the free list, and takes the page out of the page table and the frame
    out of the replacer; the disk is not written, even if the page was
    dirty. *)
Theorem delete_page_spec (s : t) (page_id : Z) (Hinv : inv s) :
  ∃ res s', DeletePgImp s page_id = Ok (res, s') ∧ inv s' ∧
    (res = false ↔
       page_id ≠ INVALID_PAGE_ID ∧
       ∃ f, page_table_ s !! page_id = Some f ∧
            (0 < pin_count_ (page_at s f))%Z) ∧
    (res = false → s' = s) ∧
    (page_id = INVALID_PAGE_ID ∨ page_table_ s !! page_id = None → s' = s) ∧
    disk_ s' = disk_ s ∧ next_page_id_ s' = next_page_id_ s ∧
    ∀ f, page_id ≠ INVALID_PAGE_ID → page_table_ s !! page_id = Some f →
         pin_count_ (page_at s f) = 0%Z →
      page_at s' f = mkPage zero_data INVALID_PAGE_ID 0 false ∧
      free_list_ s' = f :: free_list_ s ∧
      page_table_ s' = delete page_id (page_table_ s) ∧
      LRUK.count (replacer_ s') f = 0%N ∧
      LRUK.evictable (replacer_ s') f = false ∧
      (∀ g, valid_frame s g → g ≠ f → page_at s' g = page_at s g).
Proof.
  destruct (DeletePgImp_inv s page_id Hinv) as (res & s' & Hs' & Hinv').
  exists res, s'. split; [done|]. split; [done|].
  revert Hs'. unfold DeletePgImp.
  destruct (page_table_ s !! page_id) as [f|] eqn:Hhit.
  2: { intros [= <- <-]. split_and!; try done.
       split; [done|]. by intros (_ & f & ? & _). }
  destruct (Z.eqb_spec page_id INVALID_PAGE_ID) as [Hinvalid|Hvalid].
  { intros [= <- <-]. split_and!; try done. split; [done|]. by intros [? _]. }
  destruct (inv_table _ _ Hinv page_id f Hhit) as (Hv & Hnf & Hpid); [tauto|].
  pose proof (inv_pin _ _ Hinv f Hv) as Hpin0.
  pose proof (inv_pages _ _ Hinv) as Hlen.
  destruct (Z.ltb_spec 0 (pin_count_ (page_at s f))) as [Hpin|Hpin].
  { intros [= <- <-]. split_and!; try done.
    - split; [|done]. intros _. split; [done|]. by exists f.
    - intros f' _ [= <-] Hz. lia. }
  destruct (LRUK.Remove (replacer_ s) f) as [r|] eqn:Hr; simpl; [|done].
  intros [= <- <-]. simpl.
  destruct (LRUKFacts.Remove_effect _ _ _ (inv_replacer _ _ Hinv) Hr)
    as (_ & Hc & He & _).
  split_and!; try done.
  - split; [done|]. intros (_ & f' & [= <-] & ?). lia.
  - by intros [?|?].
  - intros f' _ [= <-] _. split_and!; try done.
    + destruct Hv. by rewrite page_at_set, decide_True.
    + intros g [] Hne. by rewrite page_at_set, decide_False.
Qed.

Lemma pool_unpinned_dirty :
  ∃ s, UnpinPgImp pool_one 0 true = Ok (true, s) ∧ inv s ∧
       page_table_ s !! 0%Z = Some 1%Z ∧
       pin_count_ (page_at s 1) = 0%Z ∧ is_dirty_ (page_at s 1) = true.
Proof.
  destruct (UnpinPgImp_ok pool_one 0 true 1 pool_one_inv)
    as (s & Hs & Hinv & Hpage & _ & _ & _ & _ & _ & Htb & _); try by vm_compute.
  exists s. rewrite Htb, Hpage. by vm_compute.
Qed.

Lemma delete_page_spec_witness :
  ∃ s s', inv s ∧ is_dirty_ (page_at s 1) = true ∧
          DeletePgImp s 0 = Ok (true, s') ∧
          disk_ s' = disk_ s ∧ page_table_ s' !! 0%Z = None ∧
          free_list_ s' = 1%Z :: free_list_ s.
Proof.
  destruct pool_unpinned_dirty as (s & _ & Hinv & Hhit & Hpin & Hdirty).
  destruct (delete_page_spec s 0 Hinv)
    as (res & s' & Hs' & _ & Hres & _ & _ & Hdisk & _ & Hfree).
  assert (res = true) as ->.
  { destruct res; [done|]. destruct (proj1 Hres eq_refl) as (_ & f & Hf & Hlt).
    rewrite Hhit in Hf. injection Hf as <-. lia. }
  destruct (Hfree 1%Z) as (_ & Hfl & Htb & _); [done..|].
  exists s, s'. split_and!; try done. rewrite Htb. apply lookup_delete_eq.
Defined.

(** X10. [FlushPgImp] returns [true] exactly for a valid page id of the page
    table; it then writes the bytes of the frame to the disk, so that reading
    the page id from the disk gives these bytes, and clears the dirty flag.
    It asks neither whether the page is dirty nor whether it is pinned, and
    changes no pin count, nor the page table, the free list or the
    replacer. *)
Theorem flush_page_spec (s : t) (page_id : Z) (Hinv : inv s) :
  inv (FlushPgImp s page_id).2 ∧
  ((FlushPgImp s page_id).1 = true ↔
     page_id ≠ INVALID_PAGE_ID ∧ ∃ f, page_table_ s !! page_id = Some f) ∧
  ((FlushPgImp s page_id).1 = false → (FlushPgImp s page_id).2 = s) ∧
  ∀ f, page_id ≠ INVALID_PAGE_ID → page_table_ s !! page_id = Some f →
    let s' := (FlushPgImp s page_id).2 in
    ReadPage (disk_ s') page_id = data_ (page_at s f) ∧
    (∀ other, other ≠ page_id → disk_ s' !! other = disk_ s !! other) ∧
    page_at s' f = mkPage (data_ (page_at s f)) page_id
                          (pin_count_ (page_at s f)) false ∧
    (∀ g, valid_frame s g → g ≠ f → page_at s' g = page_at s g) ∧
    page_table_ s' = page_table_ s ∧ free_list_ s' = free_list_ s ∧
    replacer_ s' = replacer_ s ∧ next_page_id_ s' = next_page_id_ s.
Proof.
  split; [by apply FlushPgImp_inv|].
  unfold FlushPgImp.
  destruct (page_table_ s !! page_id) as [f|] eqn:Hhit.
  2: { simpl. split_and!; try done. split; [done|]. by intros (_ & f & ?). }
  destruct (Z.eqb_spec page_id INVALID_PAGE_ID) as [Hinvalid|Hvalid].
  { simpl. split_and!; try done. split; [done|]. by intros [? _]. }
  destruct (inv_table _ _ Hinv page_id f Hhit) as (Hv & Hnf & Hpid); [tauto|].
  pose proof (inv_pages _ _ Hinv) as Hlen.
  simpl. split_and!; try done.
  - split; [|done]. intros _. split; [done|]. by exists f.
  - intros f' _ [= <-]. split_and!; try done.
    + unfold ReadPage, WritePage. by rewrite lookup_insert_eq.
    + intros other Hne. unfold WritePage. by rewrite lookup_insert_ne.
    + destruct Hv. rewrite page_at_set, decide_True by done. by rewrite Hpid.
    + intros g [] Hne. by rewrite page_at_set, decide_False.
Qed.

Lemma flush_page_spec_witness :
  ∃ s, inv s ∧ (FlushPgImp s 0).1 = true ∧
       ReadPage (disk_ (FlushPgImp s 0).2) 0 = data_ (page_at s 1) ∧
       is_dirty_ (page_at (FlushPgImp s 0).2 1) = false.
Proof.
  destruct pool_unpinned_dirty as (s & _ & Hinv & Hhit & Hpin & Hdirty).
  destruct (flush_page_spec s 0 Hinv) as (_ & Hres & _ & Hflush).
  destruct (Hflush 1%Z) as (Hread & _ & Hpage & _); [done..|].
  exists s. split_and!; try done.
  - apply Hres. split; [done|]. by exists 1%Z.
  - by rewrite Hpage.
Defined.

(** X11. A pinned page is never the victim.  Whatever [NewPgImp] or
    [FetchPgImp] returns, a frame whose pin count is positive is not the
    frame handed out for a new page or for a page read from the disk, and it
    keeps its page id, its bytes, its dirty flag and its pin count. *)
Theorem pinned_page_stays (s : t) (g : Z)
    (Hinv : inv s)
    (Hg : valid_frame s g)
    (Hpin : (0 < pin_count_ (page_at s g))%Z) :
  (∀ res s', NewPgImp s = Ok (res, s') →
     page_at s' g = page_at s g ∧ ∀ page_id, res ≠ Some (page_id, g)) ∧
  (∀ page_id res s', page_table_ s !! page_id = None →
     FetchPgImp s page_id = Ok (res, s') →
     page_at s' g = page_at s g ∧ res ≠ Some g).
Proof.
  split.
  - intros res s' Hs'. destruct (all_pinned s) eqn:Hall.
    + unfold NewPgImp in Hs'. rewrite Hall in Hs'. by injection Hs' as <- <-.
    + destruct (NewPgImp_ok s Hinv Hall)
        as (f & s1 & s'' & Hnew & _ & _ & _ & Hp & _ & Hoth & _).
      rewrite Hnew in Hs'. injection Hs' as <- <-.
      assert (g ≠ f) as Hne by (intros ->; lia).
      split; [by apply Hoth|]. by intros page_id [= _ ->].
  - intros page_id res s' Hmiss Hs'. destruct (all_pinned s) eqn:Hall.
    + unfold FetchPgImp in Hs'. rewrite Hmiss, Hall in Hs'.
      by injection Hs' as <- <-.
    + destruct (FetchPgImp_miss_ok s page_id Hinv Hmiss Hall)
        as (f & s1 & s'' & Hnew & _ & _ & _ & Hp & _ & Hoth & _).
      rewrite Hnew in Hs'. injection Hs' as <- <-.
      assert (g ≠ f) as Hne by (intros ->; lia).
      split; [by apply Hoth|]. by intros [= ->].
Qed.

Lemma pinned_page_stays_witness :
  ∃ res s', NewPgImp pool_one = Ok (res, s') ∧
    page_id_ (page_at s' 1) = 0%Z ∧ pin_count_ (page_at s' 1) = 1%Z.
Proof.
  destruct (NewPgImp pool_one) as [[res s']|] eqn:Hs'; [|by vm_compute in Hs'].
  assert (valid_frame pool_one 1) as Hv by (by vm_compute).
  destruct (pinned_page_stays pool_one 1 pool_one_inv Hv) as [Hnew _];
    [by vm_compute|].
  exists res, s'. split; [done|].
  destruct (Hnew res s' Hs') as [-> _]. by vm_compute.
Defined.

End BPMProps.

(** * More properties of the B+-tree pages *)

Module BPTProps.
Import BPT BPTFacts.

#[local] Open Scope Z_scope.

(** ** The entry array *)

(** The entry in the slot [i]; the slots that were never written hold
    zeroes. *)
Definition slot (a : list MappingType) (i : Z) : MappingType :=
  nth (Z.to_nat i) a (0, 0).

(** The entries of a page: its first [size_] slots. *)
Definition entries (n : BPlusTreePage) : list MappingType :=
  slot (array_ n) <$> seqZ 0 (size_ n).

Definition keys (n : BPlusTreePage) : list Z := (entries n).*1.

Lemma entry_slot a i : 0 ≤ i → entry a i = Some (slot a i).
Proof. intros Hi. unfold entry. by rewrite (proj2 (Z.ltb_ge _ _)). Qed.

Lemma store_slot a i e :
  0 ≤ i →
  ∃ a', store a i e = Some a' ∧
        ∀ j, 0 ≤ j → slot a' j = if decide (j = i) then e else slot a j.
Proof.
  intros Hi. unfold store. rewrite (proj2 (Z.ltb_ge _ _)) by done.
  eexists. split; [done|]. intros j Hj. unfold slot. rewrite !nth_lookup.
  unfold MappingType in *.
  destruct (decide (Z.to_nat i < length a)%nat) as [Hlt|Hge].
  - destruct (decide (j = i)) as [->|Hne].
    + by rewrite list_lookup_insert_eq.
    + by rewrite list_lookup_insert_ne by lia.
  - destruct (decide (j = i)) as [->|Hne].
    + rewrite app_assoc.
      rewrite lookup_app_r by (rewrite length_app, length_replicate; lia).
      rewrite length_app, length_replicate.
      by replace (Z.to_nat i - (length a + (Z.to_nat i - length a)))%nat
        with 0%nat by lia.
    + destruct (decide (Z.to_nat j < length a)%nat) as [Hj1|Hj1].
      * by rewrite lookup_app_l by done.
      * rewrite (lookup_ge_None_2 a) by lia. rewrite lookup_app_r by lia.
        destruct (decide (Z.to_nat j < Z.to_nat i)%nat).
        -- rewrite lookup_app_l by (rewrite length_replicate; lia).
           by rewrite lookup_replicate_2 by lia.
        -- rewrite lookup_app_r by (rewrite length_replicate; lia).
           rewrite length_replicate. rewrite lookup_ge_None_2; [done|]. simpl. lia.
Qed.

Lemma seqZ_snoc (m : Z) (len : nat) :
  seqZ m (Z.of_nat (S len)) = seqZ m (Z.of_nat len) ++ [m + Z.of_nat len].
Proof.
  replace (Z.of_nat (S len)) with (Z.of_nat len + 1) by lia.
  rewrite seqZ_app by lia. done.
Qed.

Lemma for_each_cons {A : Type} i l (body : Z → A → option A) a :
  for_each (i :: l) body a = body i a ≫= for_each l body.
Proof.
  unfold for_each. simpl. destruct (body i a) as [a1|]; simpl; [done|].
  induction l as [|j l IH]; simpl; [done|]. done.
Qed.

(** The loop [for (i = hi - 1; i >= lo; --i) array_[i + 1] = array_[i]]. *)
Lemma shift_up_slot a lo (len : nat) :
  0 ≤ lo →
  ∃ a', shift_up a lo (lo + Z.of_nat len) = Some a' ∧
        ∀ j, 0 ≤ j →
          slot a' j = if decide (lo < j ≤ lo + Z.of_nat len)
                      then slot a (j - 1) else slot a j.
Proof.
  intros Hlo. unfold shift_up.
  replace (lo + Z.of_nat len - lo) with (Z.of_nat len) by lia.
  revert a. induction len as [|len IH]; intros a.
  - exists a. split; [done|]. intros j Hj. by rewrite decide_False by lia.
  - rewrite seqZ_snoc, reverse_snoc, for_each_cons.
    rewrite entry_slot by lia. simpl.
    destruct (store_slot a (lo + Z.of_nat len + 1) (slot a (lo + Z.of_nat len)))
      as (a1 & -> & Ha1); [lia|]. simpl.
    destruct (IH a1) as (a' & -> & Ha'). exists a'. split; [done|].
    intros j Hj. rewrite Ha' by done.
    destruct (decide (lo < j ≤ lo + Z.of_nat len)) as [Hin|Hout].
    + rewrite decide_True by lia. rewrite Ha1 by lia. by rewrite decide_False by lia.
    + rewrite Ha1 by lia.
      destruct (decide (j = lo + Z.of_nat len + 1)) as [->|Hne].
      * rewrite decide_True by lia. f_equal. lia.
      * by rewrite decide_False by lia.
Qed.

(** The loop [for (i = lo; i < hi; ++i) array_[i - 1] = array_[i]]. *)
Lemma shift_down_slot a lo (len : nat) :
  1 ≤ lo →
  ∃ a', shift_down a lo (lo + Z.of_nat len) = Some a' ∧
        ∀ j, 0 ≤ j →
          slot a' j = if decide (lo - 1 ≤ j < lo - 1 + Z.of_nat len)
                      then slot a (j + 1) else slot a j.
Proof.
  intros Hlo. unfold shift_down.
  replace (lo + Z.of_nat len - lo) with (Z.of_nat len) by lia.
  revert a lo Hlo. induction len as [|len IH]; intros a lo Hlo.
  - exists a. split; [done|]. intros j Hj. by rewrite decide_False by lia.
  - replace (Z.of_nat (S len)) with (Z.succ (Z.of_nat len)) by lia.
    rewrite seqZ_cons by lia. rewrite for_each_cons.
    rewrite entry_slot by lia. simpl.
    destruct (store_slot a (lo - 1) (slot a lo)) as (a1 & -> & Ha1); [lia|]. simpl.
    replace (Z.pred (Z.succ (Z.of_nat len))) with (Z.of_nat len) by lia.
    destruct (IH a1 (Z.succ lo)) as (a' & -> & Ha'); [lia|].
    exists a'. split; [done|].
    intros j Hj. rewrite Ha' by done.
    repeat case_decide; rewrite ?Ha1 by lia; repeat case_decide;
      try lia; try done; f_equal; lia.
Qed.

(** ** Pages with increasing keys *)

(** The keys in the slots from [lo] on increase: a leaf page has its keys
    from the slot 0 on, an internal page from the slot 1 on. *)
Definition sorted_from (lo : Z) (n : BPlusTreePage) : Prop :=
  ∀ i j, lo ≤ i → i < j → j < size_ n →
         (slot (array_ n) i).1 < (slot (array_ n) j).1.

Lemma entries_length n : length (entries n) = Z.to_nat (size_ n).
Proof. unfold entries. by rewrite length_fmap, length_seqZ. Qed.

Lemma entries_lookup n (j : nat) :
  (j < Z.to_nat (size_ n))%nat →
  entries n !! j = Some (slot (array_ n) (Z.of_nat j)).
Proof.
  intros Hj. unfold entries. rewrite list_lookup_fmap.
  rewrite lookup_seqZ_lt by lia. done.
Qed.

Lemma elem_of_page_keys n k :
  k ∈ keys n ↔ ∃ j, 0 ≤ j < size_ n ∧ (slot (array_ n) j).1 = k.
Proof.
  unfold keys, entries. rewrite <-list_fmap_compose. rewrite list_elem_of_fmap.
  split.
  - intros (j & -> & Hj). apply elem_of_seqZ in Hj. exists j. split; [lia|done].
  - intros (j & Hj & <-). exists j. split; [done|]. apply elem_of_seqZ. lia.
Qed.


(** The binary search between [l] and [r] ends at the least index whose key
    is not less than [key]. *)
Lemma search_spec (fuel : nat) a key lo hi :
  (∀ i j, lo ≤ i → i < j → j < hi → (slot a i).1 < (slot a j).1) →
  0 ≤ lo →
  ∀ l r, lo ≤ l → l ≤ r → r ≤ hi → (Z.to_nat (r - l) ≤ fuel)%nat →
  (∀ j, lo ≤ j → j < l → (slot a j).1 < key) →
  (∀ j, r ≤ j → j < hi → key ≤ (slot a j).1) →
  ∃ i, search fuel a key l r = Some i ∧ l ≤ i ≤ r ∧
       (∀ j, lo ≤ j → j < i → (slot a j).1 < key) ∧
       (∀ j, i ≤ j → j < hi → key ≤ (slot a j).1).
Proof.
  intros Hsorted Hlo.
  assert (Hle : ∀ i j, lo ≤ i → i ≤ j → j < hi → (slot a i).1 ≤ (slot a j).1).
  { intros i j Hi Hij Hj. destruct (decide (i = j)) as [->|Hne]; [lia|].
    apply Z.lt_le_incl, Hsorted; lia. }
  induction fuel as [|fuel IH]; intros l r Hl Hlr Hr Hfuel Hbelow Habove.
  - assert (l = r) as -> by lia. exists r. simpl.
    rewrite Z.ltb_irrefl. destruct (r <? r) eqn:E; [lia|].
    split_and!; try done; lia.
  - simpl. destruct (l <? r) eqn:E.
    + apply Z.ltb_lt in E.
      assert (Hmid : l ≤ (l + r) ÷ 2 < r).
      { rewrite Z.quot_div_nonneg by lia.
        split; [apply Z.div_le_lower_bound|apply Z.div_lt_upper_bound]; lia. }
      rewrite entry_slot by lia. simpl.
      destruct (_ <? key) eqn:Ek.
      * apply Z.ltb_lt in Ek.
        destruct (IH ((l + r) ÷ 2 + 1) r) as (i & -> & Hi & Hb & Ha);
          try lia; try done.
        { intros j Hj1 Hj2.
          specialize (Hle j ((l + r) ÷ 2)). lia. }
        exists i. split_and!; try done; lia.
      * apply Z.ltb_ge in Ek.
        destruct (IH l ((l + r) ÷ 2)) as (i & -> & Hi & Hb & Ha);
          try lia; try done.
        { intros j Hj1 Hj2.
          specialize (Hle ((l + r) ÷ 2) j). lia. }
        exists i. split_and!; try done; lia.
    + apply Z.ltb_ge in E. assert (l = r) as -> by lia.
      exists r. split_and!; try done; lia.
Qed.

Lemma Leaf_KeyIndex_spec n key :
  0 ≤ size_ n → sorted_from 0 n →
  ∃ i, Leaf_KeyIndex n key = Some i ∧ 0 ≤ i ≤ size_ n ∧
       (∀ j, 0 ≤ j → j < i → (slot (array_ n) j).1 < key) ∧
       (∀ j, i ≤ j → j < size_ n → key ≤ (slot (array_ n) j).1).
Proof.
  intros Hsize Hsorted. unfold Leaf_KeyIndex.
  destruct (0 >=? size_ n) eqn:E.
  - assert (size_ n = 0) as Hz by lia. exists (size_ n).
    split_and!; try done; lia.
  - apply (search_spec _ _ _ 0 (size_ n)); try done; lia.
Qed.

Lemma Internal_KeyIndex_spec n key :
  1 ≤ size_ n → sorted_from 1 n →
  ∃ i, Internal_KeyIndex n key = Some i ∧ 1 ≤ i ≤ size_ n ∧
       (∀ j, 1 ≤ j → j < i → (slot (array_ n) j).1 < key) ∧
       (∀ j, i ≤ j → j < size_ n → key ≤ (slot (array_ n) j).1).
Proof.
  intros Hsize Hsorted. unfold Internal_KeyIndex.
  destruct (1 >=? size_ n) eqn:E.
  - assert (size_ n = 1) as Hz by lia. exists (size_ n).
    split_and!; try done; lia.
  - apply (search_spec _ _ _ 1 (size_ n)); try done; lia.
Qed.

(** X12. [KeyIndex] is a lower bound: on a page whose keys increase, it
    returns the least index whose key is not less than [key], and the size
    when every key is less; the keys before the index are less than [key],
    those from the index on are not.  A leaf page has its keys from the index
    0 on, an internal page from the index 1 on. *)
Theorem key_index_lower_bound (n : BPlusTreePage) (key : Z) :
  (0 ≤ size_ n → sorted_from 0 n →
   ∃ i, Leaf_KeyIndex n key = Some i ∧ 0 ≤ i ≤ size_ n ∧
        (∀ j, 0 ≤ j → j < i → (slot (array_ n) j).1 < key) ∧
        (∀ j, i ≤ j → j < size_ n → key ≤ (slot (array_ n) j).1)) ∧
  (1 ≤ size_ n → sorted_from 1 n →
   ∃ i, Internal_KeyIndex n key = Some i ∧ 1 ≤ i ≤ size_ n ∧
        (∀ j, 1 ≤ j → j < i → (slot (array_ n) j).1 < key) ∧
        (∀ j, i ≤ j → j < size_ n → key ≤ (slot (array_ n) j).1)).
Proof.
  split; [apply Leaf_KeyIndex_spec|apply Internal_KeyIndex_spec].
Qed.

Lemma entries_eq n (l : list MappingType) :
  length l = Z.to_nat (size_ n) →
  (∀ j : nat, (j < Z.to_nat (size_ n))%nat →
     l !! j = Some (slot (array_ n) (Z.of_nat j))) →
  entries n = l.
Proof.
  intros Hlen Hl. apply list_eq. intros j.
  destruct (decide (j < Z.to_nat (size_ n))%nat) as [Hj|Hj].
  - by rewrite entries_lookup, Hl.
  - rewrite !lookup_ge_None_2; [done|lia|rewrite entries_length; lia].
Qed.

(** ** Insertion into a leaf page *)

Lemma Leaf_Insert_dup n map i :
  0 ≤ i → i < size_ n → (slot (array_ n) i).1 = map.1 →
  Leaf_Insert n map i = Some (false, n).
Proof.
  intros Hi Hlt Hk. unfold Leaf_Insert.
  rewrite (proj2 (Z.ltb_lt _ _)) by done. rewrite entry_slot by done. simpl.
  by rewrite Hk, Z.eqb_refl.
Qed.

Lemma Leaf_Insert_new n map i :
  0 ≤ i → i ≤ size_ n → (i < size_ n → (slot (array_ n) i).1 ≠ map.1) →
  ∃ a', Leaf_Insert n map i = Some (true, IncreaseSize 1 (set_array a' n)) ∧
        ∀ j, 0 ≤ j →
          slot a' j = if decide (j < i) then slot (array_ n) j
                      else if decide (j = i) then map
                      else if decide (j ≤ size_ n) then slot (array_ n) (j - 1)
                      else slot (array_ n) j.
Proof.
  intros Hi Hle Hne. unfold Leaf_Insert.
  assert ((if i <? size_ n
           then entry (array_ n) i ≫= λ e, Some (map.1 =? e.1)
           else Some false) = Some false) as ->.
  { destruct (i <? size_ n) eqn:E; [|done]. apply Z.ltb_lt in E.
    rewrite entry_slot by done. simpl. f_equal. apply Z.eqb_neq.
    intros Heq. by apply Hne. }
  simpl.
  destruct (shift_up_slot (array_ n) i (Z.to_nat (size_ n - i))) as (a1 & Ha1 & Hs1);
    [done|].
  replace (i + Z.of_nat (Z.to_nat (size_ n - i))) with (size_ n) in Ha1, Hs1 by lia.
  rewrite Ha1. simpl.
  destruct (store_slot a1 i map) as (a2 & -> & Hs2); [done|]. simpl.
  exists a2. split; [done|]. intros j Hj. rewrite Hs2, Hs1 by done.
  repeat case_decide; try lia; done.
Qed.

Lemma Leaf_Insert_entries n map i a' :
  0 ≤ i → i ≤ size_ n →
  (∀ j, 0 ≤ j →
     slot a' j = if decide (j < i) then slot (array_ n) j
                 else if decide (j = i) then map
                 else if decide (j ≤ size_ n) then slot (array_ n) (j - 1)
                 else slot (array_ n) j) →
  entries (IncreaseSize 1 (set_array a' n))
  = take (Z.to_nat i) (entries n) ++ map :: drop (Z.to_nat i) (entries n).
Proof.
  intros Hi Hle Hs. apply entries_eq; simpl.
  - rewrite length_app, length_take. simpl. rewrite length_drop, entries_length. lia.
  - intros j Hj. rewrite Hs by lia.
    destruct (decide (Z.of_nat j < i)) as [Hlt|Hge].
    + rewrite lookup_app_l by (rewrite length_take, entries_length; lia).
      rewrite lookup_take_lt by lia. apply entries_lookup. lia.
    + rewrite lookup_app_r by (rewrite length_take, entries_length; lia).
      rewrite length_take, entries_length.
      replace (Z.to_nat i `min` Z.to_nat (size_ n))%nat with (Z.to_nat i) by lia.
      destruct (decide (Z.of_nat j = i)) as [Heq|Hne].
      * by replace (j - Z.to_nat i)%nat with 0%nat by lia.
      * rewrite decide_True by lia.
        replace (j - Z.to_nat i)%nat with (S (j - Z.to_nat i - 1))%nat by lia.
        simpl. rewrite lookup_drop. rewrite entries_lookup by lia.
        f_equal. f_equal. lia.
Qed.

Lemma Leaf_Insert_sorted n key value i a' :
  sorted_from 0 n → 0 ≤ i → i ≤ size_ n →
  (∀ j, 0 ≤ j → j < i → (slot (array_ n) j).1 < key) →
  (∀ j, i ≤ j → j < size_ n → key < (slot (array_ n) j).1) →
  (∀ j, 0 ≤ j →
     slot a' j = if decide (j < i) then slot (array_ n) j
                 else if decide (j = i) then (key, value)
                 else if decide (j ≤ size_ n) then slot (array_ n) (j - 1)
                 else slot (array_ n) j) →
  sorted_from 0 (IncreaseSize 1 (set_array a' n)).
Proof.
  intros Hsorted Hi Hle Hbelow Habove Hs x y Hx Hxy Hy. simpl in *.
  rewrite !Hs by lia.
  repeat case_decide; simpl; try lia;
    first [apply Hsorted; lia | apply Hbelow; lia | apply Habove; lia].
Qed.

(** The index that [KeyIndex] returns for a key of the page is the index of
    the key; for another key the entry at the index, if there is one, has a
    greater key. *)
Lemma Leaf_KeyIndex_found n key :
  0 ≤ size_ n → sorted_from 0 n →
  ∃ i, Leaf_KeyIndex n key = Some i ∧ 0 ≤ i ≤ size_ n ∧
       (∀ j, 0 ≤ j → j < i → (slot (array_ n) j).1 < key) ∧
       (∀ j, i ≤ j → j < size_ n → key ≤ (slot (array_ n) j).1) ∧
       (key ∈ keys n → i < size_ n ∧ (slot (array_ n) i).1 = key) ∧
       (key ∉ keys n → ∀ j, i ≤ j → j < size_ n → key < (slot (array_ n) j).1).
Proof.
  intros Hsize Hsorted.
  destruct (Leaf_KeyIndex_spec n key) as (i & Hidx & Hi & Hbelow & Habove);
    [done..|].
  exists i. split_and!; try done; try lia.
  - intros (j & Hj & Hk)%elem_of_page_keys.
    assert (i ≤ j) by (destruct (decide (i ≤ j)); [done|]; specialize (Hbelow j); lia).
    destruct (decide (i = j)) as [->|Hne]; [split; [lia|done]|].
    specialize (Hsorted i j). specialize (Habove i). lia.
  - intros Hnot j Hij Hj. specialize (Habove j Hij Hj).
    destruct (decide (key = (slot (array_ n) j).1)) as [Heq|Hne]; [|lia].
    destruct Hnot. apply elem_of_page_keys. exists j. split; [lia|done].
Qed.

(** X13. [Insert] of a leaf page, at the index that [KeyIndex] returns, on a
    page whose keys increase: a key that the page holds is refused and the
    page stays as it is; another key goes, with its value, between the
    entries with a smaller key and those with a greater key, which keep their
    order: the size grows by one, the keys of the page still increase, and
    the rest of the header is unchanged. *)
Theorem leaf_insert_spec (n : BPlusTreePage) (key value : Z) :
  0 ≤ size_ n → sorted_from 0 n →
  ∃ index,
    Leaf_KeyIndex n key = Some index ∧
    (key ∈ keys n → Leaf_Insert n (key, value) index = Some (false, n)) ∧
    (key ∉ keys n →
     ∃ n', Leaf_Insert n (key, value) index = Some (true, n') ∧
           size_ n' = size_ n + 1 ∧
           entries n' = take (Z.to_nat index) (entries n)
                        ++ (key, value) :: drop (Z.to_nat index) (entries n) ∧
           sorted_from 0 n' ∧
           page_type_ n' = page_type_ n ∧ max_size_ n' = max_size_ n ∧
           parent_page_id_ n' = parent_page_id_ n ∧
           page_id_ n' = page_id_ n ∧ next_page_id_ n' = next_page_id_ n).
Proof.
  intros Hsize Hsorted.
  destruct (Leaf_KeyIndex_found n key)
    as (i & Hidx & Hi & Hbelow & Habove & Hin & Hout); [done..|].
  exists i. split_and!; [done| |].
  - intros Hk. destruct (Hin Hk) as [Hlt Heq].
    apply Leaf_Insert_dup; [lia|done|done].
  - intros Hk. specialize (Hout Hk).
    destruct (Leaf_Insert_new n (key, value) i) as (a' & Hins & Hs); [lia|lia| |].
    { intros Hlt. specialize (Hout i). simpl. lia. }
    eexists. split; [exact Hins|]. split_and!; try done.
    + apply Leaf_Insert_entries; [lia|lia|done].
    + by apply (Leaf_Insert_sorted n key value i); try lia.
Qed.

(** ** Deletion from a leaf page *)

Lemma Leaf_Delete_missing n key :
  0 ≤ size_ n → sorted_from 0 n → key ∉ keys n →
  Leaf_Delete n key = Some (false, n).
Proof.
  intros Hsize Hsorted Hk.
  destruct (Leaf_KeyIndex_found n key)
    as (i & Hidx & Hi & Hbelow & Habove & Hin & Hout); [done..|].
  specialize (Hout Hk). unfold Leaf_Delete. rewrite Hidx. simpl.
  destruct (i >=? size_ n) eqn:E; [done|].
  rewrite entry_slot by lia. simpl.
  specialize (Hout i).
  by rewrite (proj2 (Z.eqb_neq _ _)) by lia.
Qed.

Lemma Leaf_Delete_present n key :
  0 ≤ size_ n → sorted_from 0 n → key ∈ keys n →
  ∃ i a', Leaf_KeyIndex n key = Some i ∧ 0 ≤ i ∧ i < size_ n ∧
          (slot (array_ n) i).1 = key ∧
          Leaf_Delete n key = Some (true, IncreaseSize (-1) (set_array a' n)) ∧
          ∀ j, 0 ≤ j →
            slot a' j = if decide (i ≤ j < size_ n - 1)
                        then slot (array_ n) (j + 1) else slot (array_ n) j.
Proof.
  intros Hsize Hsorted Hk.
  destruct (Leaf_KeyIndex_found n key)
    as (i & Hidx & Hi & Hbelow & Habove & Hin & Hout); [done..|].
  destruct (Hin Hk) as [Hlt Heq].
  destruct (shift_down_slot (array_ n) (i + 1) (Z.to_nat (size_ n - i - 1)))
    as (a' & Ha' & Hs); [lia|].
  replace (i + 1 + Z.of_nat (Z.to_nat (size_ n - i - 1))) with (size_ n) in Ha' by lia.
  exists i, a'. split_and!; try done; try lia.
  - unfold Leaf_Delete. rewrite Hidx. simpl.
    rewrite Z.geb_leb, (proj2 (Z.leb_gt _ _)) by lia.
    rewrite entry_slot by lia. simpl. rewrite Heq, Z.eqb_refl. simpl.
    by rewrite Ha'.
  - intros j Hj. rewrite Hs by done.
    repeat case_decide; try lia; done.
Qed.

Lemma Leaf_Delete_entries n i a' :
  0 ≤ i → i < size_ n →
  (∀ j, 0 ≤ j →
     slot a' j = if decide (i ≤ j < size_ n - 1)
                 then slot (array_ n) (j + 1) else slot (array_ n) j) →
  entries (IncreaseSize (-1) (set_array a' n))
  = take (Z.to_nat i) (entries n) ++ drop (S (Z.to_nat i)) (entries n).
Proof.
  intros Hi Hlt Hs. apply entries_eq; simpl.
  - rewrite length_app, length_take, length_drop, entries_length. lia.
  - intros j Hj. rewrite Hs by lia.
    destruct (decide (Z.of_nat j < i)) as [Hj1|Hj1].
    + rewrite decide_False by lia.
      rewrite lookup_app_l by (rewrite length_take, entries_length; lia).
      rewrite lookup_take_lt by lia. apply entries_lookup. lia.
    + rewrite decide_True by lia.
      rewrite lookup_app_r by (rewrite length_take, entries_length; lia).
      rewrite length_take, entries_length, lookup_drop.
      rewrite entries_lookup by lia. f_equal. f_equal. lia.
Qed.

Lemma Leaf_Delete_key_gone n key i a' :
  sorted_from 0 n → 0 ≤ i → i < size_ n → (slot (array_ n) i).1 = key →
  (∀ j, 0 ≤ j →
     slot a' j = if decide (i ≤ j < size_ n - 1)
                 then slot (array_ n) (j + 1) else slot (array_ n) j) →
  key ∉ keys (IncreaseSize (-1) (set_array a' n)).
Proof.
  intros Hsorted Hi Hlt Heq Hs (j & Hj & Hkj)%elem_of_page_keys. simpl in *.
  rewrite Hs in Hkj by lia. rewrite <-Heq in Hkj.
  case_decide.
  - specialize (Hsorted i (j + 1)). lia.
  - destruct (decide (j = i)) as [->|Hne]; [lia|].
    destruct (decide (j < i)).
    + specialize (Hsorted j i). lia.
    + lia.
Qed.

Lemma Leaf_Delete_sorted n i a' :
  sorted_from 0 n → 0 ≤ i → i < size_ n →
  (∀ j, 0 ≤ j →
     slot a' j = if decide (i ≤ j < size_ n - 1)
                 then slot (array_ n) (j + 1) else slot (array_ n) j) →
  sorted_from 0 (IncreaseSize (-1) (set_array a' n)).
Proof.
  intros Hsorted Hi Hlt Hs x y Hx Hxy Hy. simpl in *. rewrite !Hs by lia.
  repeat case_decide; try lia; apply Hsorted; lia.
Qed.


(** X14. [Delete] of a leaf page whose keys increase: a key that the page
    does not hold leaves the page as it is, with the result [false]; a key of
    the page is taken out with its value, at the index that [KeyIndex]
    returns, the entries behind it move down by one: the size shrinks by one,
    the page no longer holds the key, and its keys still increase. *)
Theorem leaf_delete_spec (n : BPlusTreePage) (key : Z) :
  0 ≤ size_ n → sorted_from 0 n →
  (key ∉ keys n → Leaf_Delete n key = Some (false, n)) ∧
  (key ∈ keys n →
   ∃ index n', Leaf_KeyIndex n key = Some index ∧
               Leaf_Delete n key = Some (true, n') ∧
               size_ n' = size_ n - 1 ∧
               entries n' = take (Z.to_nat index) (entries n)
                            ++ drop (S (Z.to_nat index)) (entries n) ∧
               (key ∉ keys n') ∧
               sorted_from 0 n').
Proof.
  intros Hsize Hsorted. split; [by apply Leaf_Delete_missing|].
  intros Hk.
  destruct (Leaf_Delete_present n key) as (i & a' & Hidx & Hi & Hlt & Heq & Hdel & Hs);
    [done..|].
  exists i. eexists. split_and!; [done|exact Hdel|done| | |].
  - by apply Leaf_Delete_entries.
  - by apply (Leaf_Delete_key_gone n key i).
  - by apply (Leaf_Delete_sorted n i).
Qed.

(** X15. A leaf page whose keys increase gets a new key by [Insert], at the
    index of [KeyIndex], and loses it again by [Delete]: the page has the
    entries and the size that it had before. *)
Theorem leaf_insert_delete (n : BPlusTreePage) (key value : Z) :
  0 ≤ size_ n → sorted_from 0 n → key ∉ keys n →
  ∃ index n1 n2,
    Leaf_KeyIndex n key = Some index ∧
    Leaf_Insert n (key, value) index = Some (true, n1) ∧
    Leaf_Delete n1 key = Some (true, n2) ∧
    entries n2 = entries n ∧ size_ n2 = size_ n.
Proof.
  intros Hsize Hsorted Hk.
  destruct (Leaf_KeyIndex_found n key)
    as (i & Hidx & Hi & Hbelow & Habove & Hin & Hout); [done..|].
  specialize (Hout Hk).
  destruct (Leaf_Insert_new n (key, value) i) as (a1 & Hins & Hs1); [lia|lia| |].
  { intros Hlt. specialize (Hout i). simpl. lia. }
  set (n1 := IncreaseSize 1 (set_array a1 n)) in *.
  assert (Hsorted1 : sorted_from 0 n1).
  { by apply (Leaf_Insert_sorted n key value i); try lia. }
  assert (Hk1 : key ∈ keys n1).
  { apply elem_of_page_keys. exists i. simpl. split; [lia|].
    rewrite Hs1 by lia. rewrite decide_False by lia. by rewrite decide_True. }
  destruct (Leaf_Delete_present n1 key)
    as (i' & a2 & Hidx' & Hi' & Hlt' & Heq' & Hdel & Hs2); [simpl; lia|done..|].
  simpl in Hlt', Heq', Hs2.
  assert (i' = i) as ->.
  { rewrite Hs1 in Heq' by lia.
    destruct (decide (i' < i)) as [Hc|Hc]; [specialize (Hbelow i'); lia|].
    destruct (decide (i' = i)) as [Hc'|Hc']; [done|].
    rewrite decide_True in Heq' by lia. specialize (Hout (i' - 1)). lia. }
  exists i, n1. eexists. split_and!; [done|done|exact Hdel| |simpl; lia].
  symmetry. apply entries_eq.
  - rewrite entries_length. simpl. lia.
  - intros j Hj. rewrite entries_lookup by (simpl; lia). simpl.
    rewrite Hs2 by lia. rewrite !Hs1 by lia. f_equal.
    repeat case_decide; try lia; try done. f_equal. lia.
Qed.

(** A leaf page with the keys 1, 3 and 5. *)
Definition leaf_135 : BPlusTreePage :=
  mkNode LEAF_PAGE 3 5 INVALID_PAGE_ID 0 INVALID_PAGE_ID [(1, 10); (3, 30); (5, 50)].

Lemma leaf_135_sorted : ∀ lo, 0 ≤ lo → sorted_from lo leaf_135.
Proof.
  intros lo Hlo i j Hi Hij Hj. simpl in *.
  assert (i = 0 ∨ i = 1) as [-> | ->] by lia;
    (assert (j = 1 ∨ j = 2) as [-> | ->] by lia); by vm_compute.
Qed.

Lemma key_index_lower_bound_witness :
  Leaf_KeyIndex leaf_135 4 = Some 2 ∧ Internal_KeyIndex leaf_135 4 = Some 2.
Proof.
  destruct (key_index_lower_bound leaf_135 4) as [Hleaf Hinternal].
  split.
  - destruct Hleaf as (i & Hi & _); [by vm_compute|by apply leaf_135_sorted|].
    rewrite Hi. by vm_compute in Hi.
  - destruct Hinternal as (i & Hi & _); [by vm_compute|by apply leaf_135_sorted|].
    rewrite Hi. by vm_compute in Hi.
Defined.

Lemma leaf_135_keys k : k ∈ keys leaf_135 ↔ k = 1 ∨ k = 3 ∨ k = 5.
Proof.
  change (keys leaf_135) with [1; 3; 5]. rewrite !elem_of_cons, elem_of_nil.
  tauto.
Qed.

Lemma leaf_insert_spec_witness :
  ∃ n', Leaf_Insert leaf_135 (4, 40) 2 = Some (true, n') ∧
        entries n' = [(1, 10); (3, 30); (4, 40); (5, 50)] ∧
        sorted_from 0 n'.
Proof.
  destruct (leaf_insert_spec leaf_135 4 40) as (index & Hindex & _ & Hnew);
    [by vm_compute|by apply leaf_135_sorted|].
  assert (index = 2) as -> by (vm_compute in Hindex; congruence).
  destruct Hnew as (n' & Hins & _ & Hentries & Hsorted & _).
  { rewrite leaf_135_keys. lia. }
  exists n'. by split_and!.
Defined.

Lemma leaf_delete_spec_witness :
  Leaf_Delete leaf_135 4 = Some (false, leaf_135) ∧
  ∃ n', Leaf_Delete leaf_135 3 = Some (true, n') ∧
        entries n' = [(1, 10); (5, 50)].
Proof.
  destruct (leaf_delete_spec leaf_135 4) as [Hmiss _];
    [by vm_compute|by apply leaf_135_sorted|].
  destruct (leaf_delete_spec leaf_135 3) as [_ Hhit];
    [by vm_compute|by apply leaf_135_sorted|].
  split.
  - apply Hmiss. rewrite leaf_135_keys. lia.
  - destruct Hhit as (index & n' & Hindex & Hdel & _ & Hentries & _).
    { rewrite leaf_135_keys. lia. }
    assert (index = 1) as -> by (vm_compute in Hindex; congruence).
    exists n'. by split.
Defined.

Lemma leaf_insert_delete_witness :
  ∃ n1 n2, Leaf_Insert leaf_135 (4, 40) 2 = Some (true, n1) ∧
           Leaf_Delete n1 4 = Some (true, n2) ∧
           entries n2 = [(1, 10); (3, 30); (5, 50)].
Proof.
  destruct (leaf_insert_delete leaf_135 4 40)
    as (index & n1 & n2 & Hindex & Hins & Hdel & Hentries & _);
    [by vm_compute|by apply leaf_135_sorted|rewrite leaf_135_keys; lia|].
  assert (index = 2) as -> by (vm_compute in Hindex; congruence).
  by exists n1, n2.
Defined.

(** ** The child that an internal page names for a key *)

Lemma Lookup_loop_spec a key size :
  (∀ i j, 1 ≤ i → i < j → j < size → (slot a i).1 < (slot a j).1) →
  ∀ (len : nat) lo,
    1 ≤ lo → lo + Z.of_nat len = size →
    (∀ j, 1 ≤ j → j < lo → (slot a j).1 ≤ key) →
    ∃ c, Lookup_loop a key (seqZ lo (Z.of_nat len)) size = Some (slot a c).2 ∧
         lo - 1 ≤ c ∧ c < size ∧
         (∀ j, 1 ≤ j → j ≤ c → (slot a j).1 ≤ key) ∧
         (∀ j, c < j → j < size → key < (slot a j).1).
Proof.
  intros Hsorted len. induction len as [|len IH]; intros lo Hlo Hsize Hbelow.
  - exists (size - 1). simpl. rewrite entry_slot by lia. simpl.
    split; [done|]. split; [lia|]. split; [lia|]. split.
    + intros j ??. apply Hbelow; lia.
    + intros j ??. lia.
  - replace (Z.of_nat (S len)) with (Z.succ (Z.of_nat len)) by lia.
    rewrite seqZ_cons by lia. simpl.
    rewrite (entry_slot a lo), (entry_slot a (lo - 1)) by lia. simpl.
    case_match eqn:E.
    + exists (lo - 1).
      split; [done|]. split; [lia|]. split; [lia|]. split.
      * intros j ??. apply Hbelow; lia.
      * intros j Hj1 Hj2. destruct (decide (j = lo)) as [->|Hne]; [lia|].
        specialize (Hsorted lo j). lia.
    + replace (Z.pred (Z.succ (Z.of_nat len))) with (Z.of_nat len) by lia.
      destruct (IH (Z.succ lo)) as (c & -> & Hc1 & Hc2 & Hb & Ha); [lia|lia| |].
      { intros j Hj1 Hj2. destruct (decide (j = lo)) as [->|Hne]; [lia|].
        apply Hbelow; lia. }
      exists c. split_and!; try done; lia.
Qed.

(** X16. [Lookup] of an internal page with at least one child, whose keys
    (from the index 1 on) increase, returns the child at the one index [c]
    such that the keys at the indices 1 to [c] are not greater than [key] and
    the keys behind [c] are greater: the child at the index 0 for a key
    below every key of the page.  On a page of size 0 or less it reads
    [array_[GetSize() - 1]] before the array. *)
Theorem internal_lookup_spec (n : BPlusTreePage) (key : Z) :
  (1 ≤ size_ n → sorted_from 1 n →
   ∃ c child, 0 ≤ c < size_ n ∧
              ValueAt n c = Some child ∧
              Internal_Lookup n key = Some child ∧
              (∀ j, 1 ≤ j → j ≤ c → (slot (array_ n) j).1 ≤ key) ∧
              (∀ j, c < j → j < size_ n → key < (slot (array_ n) j).1)) ∧
  (size_ n ≤ 0 → Internal_Lookup n key = None).
Proof.
  split.
  - intros Hsize Hsorted. unfold Internal_Lookup.
    destruct (Lookup_loop_spec (array_ n) key (size_ n) Hsorted
                (Z.to_nat (size_ n - 1)) 1)
      as (c & Hc & Hc1 & Hc2 & Hb & Ha); [lia|lia|intros; lia|].
    rewrite Z2Nat.id in Hc by lia.
    exists c, (slot (array_ n) c).2. split_and!; try done; try lia.
    unfold ValueAt. by rewrite entry_slot by lia.
  - intros Hsize. unfold Internal_Lookup.
    replace (seqZ 1 (size_ n - 1)) with (@nil Z).
    + simpl. unfold entry. by rewrite (proj2 (Z.ltb_lt _ _)) by lia.
    + symmetry. apply length_zero_iff_nil. rewrite length_seqZ. lia.
Qed.

(** An internal page with the children 7, 8 and 9, and the keys 3 and 5
    between them. *)
Definition internal_35 : BPlusTreePage :=
  mkNode INTERNAL_PAGE 3 4 INVALID_PAGE_ID 0 0 [(0, 7); (3, 8); (5, 9)].

Lemma internal_35_sorted : sorted_from 1 internal_35.
Proof.
  intros i j Hi Hij Hj. simpl in *.
  assert (i = 1) as -> by lia. assert (j = 2) as -> by lia. by vm_compute.
Qed.

Lemma internal_lookup_spec_witness :
  Internal_Lookup internal_35 4 = Some 8 ∧
  Internal_Lookup (SetSize 0 internal_35) 4 = None.
Proof.
  split.
  - destruct (internal_lookup_spec internal_35 4) as [Hsome _].
    destruct Hsome as (c & child & _ & _ & Hlookup & _);
      [by vm_compute|apply internal_35_sorted|].
    rewrite Hlookup. by vm_compute in Hlookup.
  - destruct (internal_lookup_spec (SetSize 0 internal_35) 4) as [_ Hnone].
    by apply Hnone.
Defined.

(** ** A tree whose root is a leaf *)

#[local] Arguments INVALID_PAGE_ID : simpl never.

Lemma UnlockAndUnpin_None op (s : t) :
  transaction_ s = None → UnlockAndUnpin op s = Some (tt, s).
Proof. intros Htr. unfold UnlockAndUnpin, bind, gets. simpl. by rewrite Htr. Qed.

Lemma UnlockAndUnpin_one op (s : t) page q :
  transaction_ s = Some [page] →
  pool_ s !! page = Some q →
  page ≠ INVALID_PAGE_ID →
  0 < pin_count_ q →
  UnlockAndUnpin op s
  = Some (tt, mk (root_page_id_ s) (leaf_max_size_ s) (internal_max_size_ s)
                 (<[page := mkPage (pin_count_ q - 1) (node_ q)]> (pool_ s))
                 (next_id_ s) (Some [])).
Proof.
  intros Htr Hq Hne%Z.eqb_neq Hpin.
  unfold UnlockAndUnpin, bind, gets. simpl. rewrite Htr. simpl.
  unfold bind, UnpinPage.
  destruct op; simpl; rewrite Hq, Hne, (proj2 (Z.leb_gt _ _)) by done; done.
Qed.

Lemma FindLeafPage_root_leaf (fuel : nat) key op (s : t) p :
  root_page_id_ s ≠ INVALID_PAGE_ID →
  pool_ s !! root_page_id_ s = Some p →
  IsLeafPage (node_ p) = true →
  FindLeafPage fuel key op s
  = Some (Some (root_page_id_ s),
          mk (root_page_id_ s) (leaf_max_size_ s) (internal_max_size_ s)
             (<[root_page_id_ s := mkPage (pin_count_ p + 1) (node_ p)]> (pool_ s))
             (next_id_ s)
             ((λ l, l ++ [root_page_id_ s]) <$> transaction_ s)).
Proof.
  intros Hroot Hp Hleaf.
  unfold FindLeafPage, bind, gets, IsEmpty. simpl.
  rewrite (proj2 (Z.eqb_neq _ _)) by done.
  unfold FetchPage at 1. rewrite Hp. simpl.
  rewrite descend_leaf with (p := mkPage (pin_count_ p + 1) (node_ p));
    [done|simpl; by rewrite lookup_insert_eq|done].
Qed.

(** A page is pinned once more and then unpinned. *)
Lemma insert_pin_unpin (pool : gmap Z Page) page p x n :
  <[page := mkPage (pin_count_ p + 1 - 1) n]> (<[page := x]> pool)
  = <[page := mkPage (pin_count_ p) n]> pool.
Proof. rewrite insert_insert_eq. do 2 f_equal. lia. Qed.

Lemma insert_same_page (pool : gmap Z Page) page p :
  pool !! page = Some p →
  <[page := mkPage (pin_count_ p) (node_ p)]> pool = pool.
Proof. intros Hp. apply insert_id. by destruct p. Qed.



(** The tree [s] with the page [q] in the frame of its root page. *)
Definition with_root_page (q : Page) (s : t) : t :=
  set_pool (<[root_page_id_ s := q]> (pool_ s)) s.

Lemma find_or_start_root_leaf (fuel fuel' : nat) key (s : t) p :
  root_page_id_ s ≠ INVALID_PAGE_ID →
  pool_ s !! root_page_id_ s = Some p →
  IsLeafPage (node_ p) = true →
  find_or_start fuel fuel' key s
  = Some (root_page_id_ s,
          mk (root_page_id_ s) (leaf_max_size_ s) (internal_max_size_ s)
             (<[root_page_id_ s := mkPage (pin_count_ p + 1) (node_ p)]> (pool_ s))
             (next_id_ s)
             ((λ l, l ++ [root_page_id_ s]) <$> transaction_ s)).
Proof.
  intros Hroot Hp Hleaf.
  destruct fuel; simpl; unfold bind;
    by rewrite (FindLeafPage_root_leaf fuel' key INSERT s p).
Qed.

(** [Insert] into a tree whose root is a leaf that does not get full. *)
Lemma Insert_root_leaf (fuel : nat) (key value : Z) (s : t) (p : Page) i b n' :
  root_page_id_ s ≠ INVALID_PAGE_ID →
  pool_ s !! root_page_id_ s = Some p →
  IsLeafPage (node_ p) = true →
  0 ≤ pin_count_ p →
  transaction_ s = Some [] ∨ transaction_ s = None →
  Leaf_KeyIndex (node_ p) key = Some i →
  Leaf_Insert (node_ p) (key, value) i = Some (b, n') →
  (b = true → size_ n' ≠ leaf_max_size_ s) →
  Insert fuel key value s
  = Some (b, match transaction_ s with
             | Some _ => with_root_page (mkPage (pin_count_ p) n') s
             | None => with_root_page (mkPage (pin_count_ p + 1) n') s
             end).
Proof.
  intros Hroot Hp Hleaf Hpin Htr Hidx Hins Hfull.
  unfold Insert, bind.
  rewrite (find_or_start_root_leaf fuel fuel key s p) by done.
  unfold get_node at 1. simpl. rewrite lookup_insert_eq. simpl.
  rewrite Hidx. simpl.
  unfold call at 1. simpl. rewrite lookup_insert_eq. simpl.
  rewrite Hins. simpl. rewrite insert_insert_eq.
  destruct s as [root lmax imax pool next tr]. simpl in *.
  destruct b; simpl.
  - unfold gets, get_node. simpl. rewrite lookup_insert_eq. simpl.
    rewrite (proj2 (Z.eqb_neq _ _)) by (by apply Hfull).
    unfold ret at 1. simpl.
    destruct Htr as [-> | ->]; simpl.
    + erewrite UnlockAndUnpin_one;
        [|done|simpl; by rewrite lookup_insert_eq|done|simpl; lia].
      simpl. unfold ret, with_root_page, set_pool. simpl.
      by rewrite insert_pin_unpin.
    + by rewrite ?UnlockAndUnpin_None by done.
  - destruct Htr as [-> | ->]; simpl.
    + erewrite UnlockAndUnpin_one;
        [|done|simpl; by rewrite lookup_insert_eq|done|simpl; lia].
      simpl. unfold ret, with_root_page, set_pool. simpl.
      by rewrite insert_pin_unpin.
    + by rewrite ?UnlockAndUnpin_None by done.
Qed.






(** X19. [Insert] without a transaction never unpins the page that
    [FindLeafPage] fetched.  On a tree whose root is a leaf that does not get
    full, a call that returns, whether the key is new or not, leaves the root
    page with a pin count greater by one than before the call, so that
    [DeletePage] refuses the page, and no later [UnlockAndUnpin] without a
    transaction gives the pin back.  The statement is about a call that
    returns: the call also leaves the root write-latched, and the latches
    are not part of the embedding, which does not tell the calls that
    return from those that wait for a latch. *)
Theorem insert_without_transaction (fuel : nat) (key value : Z) (s : t) (p : Page)
    (b : bool) (s' : t) :
  root_page_id_ s ≠ INVALID_PAGE_ID →
  pool_ s !! root_page_id_ s = Some p →
  IsLeafPage (node_ p) = true →
  0 ≤ pin_count_ p →
  transaction_ s = None →
  0 ≤ size_ (node_ p) → sorted_from 0 (node_ p) →
  size_ (node_ p) + 1 < leaf_max_size_ s →
  Insert fuel key value s = Some (b, s') →
  ∃ p',
    b = bool_decide (key ∉ keys (node_ p)) ∧
    root_page_id_ s' = root_page_id_ s ∧
    pool_ s' !! root_page_id_ s = Some p' ∧
    pin_count_ p' = pin_count_ p + 1 ∧
    UnlockAndUnpin INSERT s' = Some (tt, s') ∧
    fst <$> DeletePage (root_page_id_ s) s' = Some false.
Proof.
  intros Hroot Hp Hleaf Hpin Htr Hsize Hsorted Hroom Hrun.
  destruct (Leaf_KeyIndex_found (node_ p) key)
    as (i & Hidx & Hi & Hbelow & Habove & Hin & Hout); [done..|].
  assert (Hend : ∀ b0 n',
    Leaf_Insert (node_ p) (key, value) i = Some (b0, n') →
    (b0 = true → size_ n' ≠ leaf_max_size_ s) →
    b0 = bool_decide (key ∉ keys (node_ p)) →
    ∃ p',
      b = bool_decide (key ∉ keys (node_ p)) ∧
      root_page_id_ s' = root_page_id_ s ∧
      pool_ s' !! root_page_id_ s = Some p' ∧
      pin_count_ p' = pin_count_ p + 1 ∧
      UnlockAndUnpin INSERT s' = Some (tt, s') ∧
      fst <$> DeletePage (root_page_id_ s) s' = Some false).
  { intros b0 n' Hins Hfull Hb.
    rewrite (Insert_root_leaf fuel key value s p i b0 n') in Hrun;
      try done; [|by right].
    rewrite Htr in Hrun. injection Hrun as <- <-.
    exists (mkPage (pin_count_ p + 1) n').
    split_and!; try done.
    - destruct s. simpl. by rewrite lookup_insert_eq.
    - apply UnlockAndUnpin_None. by destruct s.
    - unfold DeletePage. destruct s. simpl in *. rewrite lookup_insert_eq.
      rewrite (proj2 (Z.eqb_neq _ _)) by done. simpl.
      by rewrite (proj2 (Z.ltb_lt _ _)) by lia. }
  destruct (decide (key ∈ keys (node_ p))) as [Hk|Hk].
  - destruct (Hin Hk) as [Hlt Heq].
    apply (Hend false (node_ p)); [by apply Leaf_Insert_dup; [lia|done|done]|done|].
    symmetry. apply bool_decide_eq_false. tauto.
  - specialize (Hout Hk).
    destruct (Leaf_Insert_new (node_ p) (key, value) i) as (a' & Hins & Hs);
      [lia|lia| |].
    { intros Hlt. specialize (Hout i). simpl. lia. }
    apply (Hend true _ Hins); [simpl; lia|].
    symmetry. by apply bool_decide_eq_true.
Qed.





(** ** The parent id of the page that becomes the root *)

(** X22. When [DeleteEntry] leaves the root, an internal page, with one
    child and makes this child the root, it does not touch the child: the
    new root still has the id of the old root as the id of its parent, and
    this page is no longer in the pool.  So the new root does not pass the
    test [GetParentPageId() == INVALID_PAGE_ID], by which [IsSafe] and
    [InsertInParent] know the root.  This is the state of the tree after the
    inserts of 1, 2, 3 and [Remove(1)], with maximal sizes 3. *)
Theorem root_promotion_keeps_parent_id :
  (∀ (fuel : nat) (s : t) (page key : Z) (p : Page) (n' : BPlusTreePage)
     (page_set : list Z) (back child : Z) (c : Page),
     page ≠ INVALID_PAGE_ID →
     pool_ s !! page = Some p →
     pin_count_ p = 1 →
     transaction_ s = Some (page_set ++ [back]) →
     IsLeafPage (node_ p) = false →
     IsRootPage (node_ p) = true →
     page_id_ (node_ p) = root_page_id_ s →
     Internal_Delete (node_ p) key = Some (true, n') →
     size_ n' = 1 →
     ValueAt n' 0 = Some child →
     child ≠ page →
     pool_ s !! child = Some c →
     parent_page_id_ (node_ c) = page →
     ∃ s', DeleteEntry fuel page key s = Some (tt, s') ∧
           root_page_id_ s' = child ∧
           pool_ s' !! child = Some c ∧
           parent_page_id_ (node_ c) ≠ INVALID_PAGE_ID ∧
           pool_ s' !! parent_page_id_ (node_ c) = None ∧
           fst <$> IsSafe child DELETE s'
           = Some (size_ (node_ c) >? GetMinSize (node_ c))) ∧
  (∃ s0 s' c,
     Inserts 1 [1; 2; 3] (init 3 3 (Some [])) = Some (tt, s0) ∧
     Remove 1 1 s0 = Some (tt, s') ∧
     pool_ s' !! root_page_id_ s' = Some c ∧
     IsLeafPage (node_ c) = true ∧
     parent_page_id_ (node_ c) = root_page_id_ s0 ∧
     parent_page_id_ (node_ c) ≠ INVALID_PAGE_ID ∧
     pool_ s' !! root_page_id_ s0 = None).
Proof.
  split.
  - intros fuel s page key p n' page_set back child c
      Hne Hp Hpin Htr Hleaf Hint Hid Hdel Hsize Hchild Hcp Hc Hparent.
    eexists. split.
    { by apply (DeleteEntry_root_internal fuel s page key p n' page_set back). }
    assert ((nth 0 (array_ n') (0, 0)).2 = child) as Hroot.
    { unfold ValueAt, entry in Hchild. simpl in Hchild. by injection Hchild. }
    simpl. rewrite Hparent.
    split_and!; [done|by rewrite lookup_delete_ne|done|by rewrite lookup_delete_eq|].
    unfold IsSafe, bind, get_node, gets. simpl.
    rewrite lookup_delete_ne by done. rewrite Hc. simpl.
    rewrite Hparent. by rewrite (proj2 (Z.eqb_neq _ _)) by done.
  - eexists _, _, _.
    split; [vm_compute; reflexivity|].
    split; [vm_compute; reflexivity|].
    split; [vm_compute; reflexivity|].
    by vm_compute.
Qed.

(** The root, the page 2, is pinned and at the back of the page set; it
    holds the key 2 between the pages 0 and 1, and the page 0 is in the
    pool. *)
Definition tree_promotion : t :=
  mk 2 3 3
     (<[ 2 := mkPage 1 (mkNode INTERNAL_PAGE 2 3 INVALID_PAGE_ID 2 0 [(0, 0); (2, 1)]) ]>
      (<[ 0 := mkPage 0 (mkNode LEAF_PAGE 2 3 2 0 INVALID_PAGE_ID [(2, 20); (3, 30)]) ]> ∅))
     3 (Some [2]).

Lemma root_promotion_keeps_parent_id_witness :
  ∃ s' c, DeleteEntry 0 2 2 tree_promotion = Some (tt, s') ∧
          root_page_id_ s' = 0 ∧
          pool_ s' !! 0 = Some c ∧
          parent_page_id_ (node_ c) = 2 ∧
          pool_ s' !! 2 = None.
Proof.
  destruct root_promotion_keeps_parent_id as [Hgen _].
  destruct (Hgen 0%nat tree_promotion 2 2
              (mkPage 1 (mkNode INTERNAL_PAGE 2 3 INVALID_PAGE_ID 2 0 [(0, 0); (2, 1)]))
              (mkNode INTERNAL_PAGE 1 3 INVALID_PAGE_ID 2 0 [(0, 0); (2, 1)])
              [] 2 0
              (mkPage 0 (mkNode LEAF_PAGE 2 3 2 0 INVALID_PAGE_ID [(2, 20); (3, 30)])))
    as (s' & Hrun & Hroot & Hc & _ & Hgone & _); try done.
  exists s'. eexists. split_and!; [done|done|exact Hc|done|exact Hgone].
Defined.

(** ** [GetValue] changes nothing *)

(** The pool holds no page with the id [INVALID_PAGE_ID], no pin count is
    negative, and the header of every page has the id of the page. *)
Definition healthy (s : t) : Prop :=
  pool_ s !! INVALID_PAGE_ID = None ∧
  map_Forall (λ page q, 0 ≤ pin_count_ q ∧ page_id_ (node_ q) = page) (pool_ s).

(** The tree [s] during a read that has come to the page [curr]: the page is
    pinned once more, and it is the page set of the transaction, if there is
    one. *)
Definition reading (s : t) (curr : Z) (q : Page) : t :=
  mk (root_page_id_ s) (leaf_max_size_ s) (internal_max_size_ s)
     (<[curr := mkPage (pin_count_ q + 1) (node_ q)]> (pool_ s)) (next_id_ s)
     ((λ _, [curr]) <$> transaction_ s).

Lemma reading_step (s : t) curr q child c :
  pool_ s !! curr = Some q →
  pool_ s !! child = Some c →
  <[curr := mkPage (pin_count_ q + 1 - 1) (node_ q)]>
    (<[child := mkPage (pin_count_ c + 1) (node_ c)]>
       (<[curr := mkPage (pin_count_ q + 1) (node_ q)]> (pool_ s)))
  = <[child := mkPage (pin_count_ c + 1) (node_ c)]> (pool_ s) ∨
  (child = curr ∧ q = c).
Proof.
  intros Hq Hc. destruct (decide (child = curr)) as [->|Hne].
  - right. split; [done|congruence].
  - left. rewrite insert_insert_ne by done. rewrite insert_insert_eq.
    replace (pin_count_ q + 1 - 1) with (pin_count_ q) by lia.
    by rewrite (insert_same_page (pool_ s)).
Qed.

Lemma descend_READ_step (fuel : nat) (key : Z) (s : t) curr q child c :
  transaction_ s = None ∨ transaction_ s = Some [] →
  pool_ s !! curr = Some q →
  curr ≠ INVALID_PAGE_ID →
  0 ≤ pin_count_ q →
  IsLeafPage (node_ q) = false →
  Internal_Lookup (node_ q) key = Some child →
  pool_ s !! child = Some c →
  descend (S fuel) key READ curr (reading s curr q)
  = descend fuel key READ child (reading s child c).
Proof.
  intros Htr Hq Hcurr%Z.eqb_neq Hpin Hleaf Hlookup Hc.
  destruct s as [root lmax imax pool next tr]. simpl in *.
  assert (Hpool :
    <[curr := mkPage (pin_count_ c + 1 - 1) (node_ c)]>
      (<[curr := mkPage (pin_count_ c + 1 + 1) (node_ c)]>
         (<[curr := mkPage (pin_count_ c + 1) (node_ c)]> pool))
    = <[curr := mkPage (pin_count_ c + 1) (node_ c)]> pool → True) by done.
  change (descend (S fuel) key READ curr) with
    (λ s0, bind (get_node curr) (λ curr_page_node,
       if IsLeafPage curr_page_node then ret curr
       else
         bind (lift (Internal_Lookup curr_page_node key)) (λ child,
         bind (FetchPage child) (λ next_page,
         bind (gets transaction_) (λ transaction,
         bind (match transaction with
               | Some _ => UnlockAndUnpin READ
               | None => bind (UnpinPage curr false) (λ _, ret tt)
               end) (λ _,
         bind (AddIntoPageSet next_page) (λ _,
         descend fuel key READ next_page)))))) s0).
  unfold bind at 1. unfold get_node at 1. unfold reading at 1. simpl.
  rewrite lookup_insert_eq. simpl. rewrite Hleaf, Hlookup.
  unfold bind at 1. unfold lift at 1.
  unfold bind at 1. unfold FetchPage at 1. simpl.
  destruct (decide (child = curr)) as [->|Hne].
  - rewrite lookup_insert_eq. simpl.
    assert (c = q) as -> by congruence.
    unfold bind at 1. unfold gets at 1. simpl.
    destruct Htr as [-> | ->]; simpl.
    + unfold bind at 1. unfold bind at 1. unfold UnpinPage at 1. simpl.
      rewrite lookup_insert_eq. simpl. rewrite Hcurr.
      rewrite (proj2 (Z.leb_gt _ _)) by lia.
      unfold ret at 1. unfold bind at 1. unfold AddIntoPageSet, modify. simpl.
      unfold set_transaction, set_pool, reading. simpl.
      rewrite !insert_insert_eq.
      by replace (pin_count_ q + 1 + 1 - 1) with (pin_count_ q + 1) by lia.
    + unfold bind at 1.
      erewrite UnlockAndUnpin_one;
        [|done|simpl; by rewrite lookup_insert_eq|by apply Z.eqb_neq|simpl; lia].
      simpl. unfold bind at 1. unfold AddIntoPageSet, modify. simpl.
      unfold set_transaction, set_pool, reading. simpl.
      rewrite !insert_insert_eq.
      by replace (pin_count_ q + 1 + 1 - 1) with (pin_count_ q + 1) by lia.
  - rewrite lookup_insert_ne by done. rewrite Hc. simpl.
    assert (Heq :
      <[curr := mkPage (pin_count_ q + 1 - 1) (node_ q)]>
        (<[child := mkPage (pin_count_ c + 1) (node_ c)]>
           (<[curr := mkPage (pin_count_ q + 1) (node_ q)]> pool))
      = <[child := mkPage (pin_count_ c + 1) (node_ c)]> pool).
    { destruct (reading_step (mk root lmax imax pool next None) curr q child c Hq Hc)
        as [Heq|[? _]]; [done|done]. }
    unfold bind at 1. unfold gets at 1. simpl.
    destruct Htr as [-> | ->]; simpl.
    + unfold bind at 1. unfold bind at 1. unfold UnpinPage at 1. simpl.
      rewrite lookup_insert_ne by done. rewrite lookup_insert_eq. simpl.
      rewrite Hcurr. rewrite (proj2 (Z.leb_gt _ _)) by lia.
      unfold ret at 1. unfold bind at 1. unfold AddIntoPageSet, modify. simpl.
      unfold set_transaction, set_pool, reading. simpl.
      by rewrite Heq.
    + unfold bind at 1.
      erewrite UnlockAndUnpin_one;
        [|done
         |simpl; rewrite lookup_insert_ne by done; by rewrite lookup_insert_eq
         |by apply Z.eqb_neq|simpl; lia].
      simpl. unfold bind at 1. unfold AddIntoPageSet, modify. simpl.
      unfold set_transaction, set_pool, reading. simpl.
      by rewrite Heq.
Qed.

Lemma descend_READ (key : Z) (s : t) :
  transaction_ s = None ∨ transaction_ s = Some [] →
  healthy s →
  ∀ (fuel : nat) curr q leaf s2,
    pool_ s !! curr = Some q →
    descend fuel key READ curr (reading s curr q) = Some (leaf, s2) →
    ∃ q', pool_ s !! leaf = Some q' ∧ s2 = reading s leaf q'.
Proof.
  intros Htr [Hinv Hpool] fuel.
  induction fuel as [|fuel IH]; intros curr q leaf s2 Hq Hrun.
  - simpl in Hrun. unfold bind, get_node in Hrun. simpl in Hrun.
    rewrite lookup_insert_eq in Hrun. simpl in Hrun.
    destruct (IsLeafPage (node_ q)); [|done].
    injection Hrun as <- <-. eauto.
  - destruct (IsLeafPage (node_ q)) eqn:Hleaf.
    + rewrite (descend_leaf _ _ _ _ _ (mkPage (pin_count_ q + 1) (node_ q)))
        in Hrun; [|simpl; by rewrite lookup_insert_eq|done].
      injection Hrun as <- <-. eauto.
    + assert (curr ≠ INVALID_PAGE_ID) as Hcurr by (intros ->; congruence).
      destruct (Hpool curr q Hq) as [Hpin _].
      destruct (Internal_Lookup (node_ q) key) as [child|] eqn:Hlookup.
      * destruct (pool_ s !! child) as [c|] eqn:Hc.
        -- rewrite (descend_READ_step fuel key s curr q child c) in Hrun by done.
           by apply (IH child c).
        -- exfalso. simpl in Hrun. unfold bind at 1 in Hrun.
           unfold get_node at 1, reading at 1 in Hrun. simpl in Hrun.
           rewrite lookup_insert_eq in Hrun. simpl in Hrun.
           rewrite Hleaf, Hlookup in Hrun.
           unfold bind at 1, lift at 1 in Hrun.
           unfold bind at 1, FetchPage at 1 in Hrun. simpl in Hrun.
           rewrite lookup_insert_ne in Hrun by congruence.
           by rewrite Hc in Hrun.
      * exfalso. simpl in Hrun. unfold bind at 1 in Hrun.
        unfold get_node at 1, reading at 1 in Hrun. simpl in Hrun.
        rewrite lookup_insert_eq in Hrun. simpl in Hrun.
        by rewrite Hleaf, Hlookup in Hrun.
Qed.

(** [FindLeafPage] for a read ends in the state of a read that has come to
    the leaf. *)
Lemma FindLeafPage_READ (fuel : nat) (key : Z) (s : t) r s2 :
  transaction_ s = None ∨ transaction_ s = Some [] →
  healthy s →
  FindLeafPage fuel key READ s = Some (r, s2) →
  (r = None ∧ s2 = s) ∨
  ∃ leaf q', r = Some leaf ∧ pool_ s !! leaf = Some q' ∧ s2 = reading s leaf q'.
Proof.
  intros Htr Hhealthy Hrun.
  unfold FindLeafPage, bind, gets in Hrun. simpl in Hrun.
  destruct (IsEmpty s) eqn:Hempty; [left; by injection Hrun as <- <-|].
  right. unfold FetchPage at 1 in Hrun.
  destruct (pool_ s !! root_page_id_ s) as [q|] eqn:Hq; [|done].
  simpl in Hrun.
  replace (set_transaction _ _) with (reading s (root_page_id_ s) q) in Hrun
    by (destruct s; simpl in *; by destruct Htr as [-> | ->]).
  destruct (descend fuel key READ (root_page_id_ s) (reading s (root_page_id_ s) q))
    as [[leaf s3]|] eqn:Hdescend; [|done].
  unfold ret in Hrun. injection Hrun as <- <-.
  destruct (descend_READ key s Htr Hhealthy fuel _ q leaf s3 Hq Hdescend)
    as (q' & Hq' & ->).
  eauto.
Qed.

(** What [GetValue] does at its end gives up the page that the read has come
    to. *)
Lemma release_reading (s : t) leaf q' :
  transaction_ s = None ∨ transaction_ s = Some [] →
  healthy s →
  pool_ s !! leaf = Some q' →
  (match transaction_ s return M unit with
   | Some _ => UnlockAndUnpin READ
   | None => bind (UnpinPage (page_id_ (node_ q')) false) (λ _, ret tt)
   end) (reading s leaf q') = Some (tt, s).
Proof.
  intros Htr [Hinv Hpool] Hq'.
  destruct (Hpool leaf q' Hq') as [Hpin Hid].
  assert (leaf ≠ INVALID_PAGE_ID) as Hleaf by (intros ->; congruence).
  destruct s as [root lmax imax pool next tr]. simpl in *.
  destruct Htr as [-> | ->]; simpl.
  - unfold bind, UnpinPage. simpl. rewrite Hid, lookup_insert_eq. simpl.
    rewrite (proj2 (Z.eqb_neq _ _)) by done.
    rewrite (proj2 (Z.leb_gt _ _)) by lia. unfold ret, set_pool. simpl.
    by rewrite insert_pin_unpin, insert_same_page.
  - erewrite UnlockAndUnpin_one;
      [|done|simpl; by rewrite lookup_insert_eq|done|simpl; lia].
    simpl. by rewrite insert_pin_unpin, insert_same_page.
Qed.

(** X23. [GetValue] reads only: called without a transaction, or with one
    whose page set is empty, on a tree of any height whose pages have their
    own ids in their headers, a call that returns leaves the tree and the
    pool, the pin count of every page included, as they were. *)
Theorem get_value_read_only (fuel : nat) (key : Z) (s : t) r s' :
  transaction_ s = None ∨ transaction_ s = Some [] →
  healthy s →
  GetValue fuel key s = Some (r, s') →
  s' = s.
Proof.
  intros Htr Hhealthy Hrun.
  unfold GetValue in Hrun. unfold bind at 1, gets at 1 in Hrun. simpl in Hrun.
  destruct (IsEmpty s) eqn:Hempty; [by injection Hrun|].
  unfold bind at 1 in Hrun.
  destruct (FindLeafPage fuel key READ s) as [[page s2]|] eqn:Hfind; [|done].
  destruct (FindLeafPage_READ fuel key s page s2 Htr Hhealthy Hfind)
    as [[-> ->]|(leaf & q' & -> & Hq' & ->)]; [by injection Hrun|].
  pose proof (release_reading s leaf q' Htr Hhealthy Hq') as Hrelease.
  unfold bind at 1, get_node at 1 in Hrun. simpl in Hrun.
  rewrite lookup_insert_eq in Hrun. simpl in Hrun.
  unfold bind at 1, lift at 1 in Hrun.
  destruct (Leaf_KeyIndex (node_ q') key) as [i|]; [|done].
  unfold bind at 1, lift at 1 in Hrun.
  destruct (if i <? size_ (node_ q')
            then KeyAt (node_ q') i ≫= λ k, Some (k =? key)
            else Some false) as [found|]; [|done].
  destruct found.
  - unfold bind at 1, lift at 1 in Hrun.
    destruct (ValueAt (node_ q') i); [|done].
    unfold bind in Hrun. unfold bind in Hrelease.
    rewrite Hrelease in Hrun. by injection Hrun.
  - unfold bind in Hrun. unfold bind in Hrelease.
    rewrite Hrelease in Hrun. by injection Hrun.
Qed.

Lemma healthy_intro (s : t) :
  pool_ s !! INVALID_PAGE_ID = None →
  (∀ page q, pool_ s !! page = Some q →
             0 ≤ pin_count_ q ∧ page_id_ (node_ q) = page) →
  healthy s.
Proof. by split. Qed.

(** A tree of two levels: the root, the page 2, holds the key 2 between the
    leaves 0, with the key 1, and 1, with the keys 2 and 3. *)
Definition tree_two_levels : t :=
  mk 2 3 3
     (<[ 2 := mkPage 0 (mkNode INTERNAL_PAGE 2 3 INVALID_PAGE_ID 2 0 [(0, 0); (2, 1)]) ]>
      (<[ 0 := mkPage 0 (mkNode LEAF_PAGE 1 3 2 0 1 [(1, 10)]) ]>
       (<[ 1 := mkPage 0 (mkNode LEAF_PAGE 2 3 2 1 INVALID_PAGE_ID [(2, 20); (3, 30)]) ]>
        ∅)))
     3 None.

Lemma tree_two_levels_healthy : healthy tree_two_levels.
Proof.
  split; [done|]. simpl.
  repeat (apply map_Forall_insert_2; [done|]). apply map_Forall_empty.
Qed.

Lemma get_value_read_only_witness :
  GetValue 1 3 tree_two_levels = Some (Some 30, tree_two_levels).
Proof.
  destruct (GetValue 1 3 tree_two_levels) as [[r s']|] eqn:Hrun;
    [|by vm_compute in Hrun].
  rewrite (get_value_read_only 1 3 tree_two_levels r s'
             (or_introl eq_refl) tree_two_levels_healthy Hrun) in *.
  vm_compute in Hrun. by injection Hrun as <-.
Defined.

(** A tree whose root, the page 0, is a leaf with the keys 1, 3 and 5. *)
Definition tree_leaf (transaction : option (list Z)) : t :=
  mk 0 5 3 (<[ 0 := mkPage 0 leaf_135 ]> ∅) 1 transaction.

Lemma tree_leaf_sorted : sorted_from 0 leaf_135.
Proof. by apply leaf_135_sorted. Qed.



Lemma insert_without_transaction_witness :
  ∃ s' p', Insert 0 4 40 (tree_leaf None) = Some (true, s') ∧
           pool_ s' !! 0 = Some p' ∧ pin_count_ p' = 1.
Proof.
  destruct (Insert 0 4 40 (tree_leaf None)) as [[b s']|] eqn:Hrun;
    [|by vm_compute in Hrun].
  destruct (insert_without_transaction 0 4 40 (tree_leaf None) (mkPage 0 leaf_135)
              b s')
    as (p' & -> & _ & Hp' & Hpin & _);
    [done|done|done|done|done|done|apply tree_leaf_sorted|done|done|].
  exists s', p'. split; [|done]. by f_equal.
Defined.



(** ** The split of a leaf page *)

Lemma split_pool (pool : gmap Z Page) this brother x y n1 b1 b2 :
  this ≠ brother →
  <[this := x]> (<[brother := y]>
    (<[brother := b2]> (<[this := n1]> (<[brother := b1]> pool))))
  = <[this := x]> (<[brother := y]> pool).
Proof.
  intros Hne. apply map_eq. intros k.
  destruct (decide (k = this)) as [->|]; [by rewrite !lookup_insert_eq|].
  rewrite !(lookup_insert_ne _ this) by done.
  destruct (decide (k = brother)) as [->|]; [by rewrite !lookup_insert_eq|].
  by rewrite !lookup_insert_ne by done.
Qed.

(** The body of the loop of [Split]. *)
Definition Leaf_Split_body (this brother_page mid : Z) (i : Z) : M unit :=
  let* n := get_node this in
  let* e := lift (entry (array_ n) i) in
  update brother_page
         (λ b, a ← store (array_ b) (i - mid) e; Some (set_array a b)) >>
  update' this (IncreaseSize (-1)) >>
  update' brother_page (IncreaseSize 1).

Lemma for__cons (i : Z) (l : list Z) (body : Z → M unit) (s s1 : t) :
  body i s = Some (tt, s1) → for_ (i :: l) body s = for_ l body s1.
Proof. intros Hbody. simpl. unfold bind. by rewrite Hbody. Qed.

Lemma Leaf_Split_body_spec (this brother_page mid i0 : Z) (s : t) pt n pb b a1 :
  this ≠ brother_page →
  pool_ s !! this = Some (mkPage pt n) →
  pool_ s !! brother_page = Some (mkPage pb b) →
  0 ≤ i0 →
  store (array_ b) (i0 - mid) (slot (array_ n) i0) = Some a1 →
  Leaf_Split_body this brother_page mid i0 s
  = Some (tt, set_pool
                (<[brother_page := mkPage pb (IncreaseSize 1 (set_array a1 b))]>
                   (<[this := mkPage pt (IncreaseSize (-1) n)]>
                      (<[brother_page := mkPage pb (set_array a1 b)]> (pool_ s)))) s).
Proof.
  intros Hne Hn Hb Hi0 Ha1.
  unfold Leaf_Split_body, bind, get_node, lift, update', update.
  rewrite Hn. simpl. rewrite entry_slot by done. rewrite Hb. simpl.
  rewrite Ha1. simpl. rewrite lookup_insert_ne by done. rewrite Hn. simpl.
  rewrite lookup_insert_ne by done. rewrite lookup_insert_eq. simpl.
  by destruct s.
Qed.

(** The loop of [Split], from the index [i0] on: [len] entries go from the
    page [this] to the page [brother_page], behind those that went before. *)
Lemma Leaf_Split_loop (this brother_page mid : Z) :
  this ≠ brother_page →
  ∀ (len : nat) (i0 : Z) (s : t) pt n pb b,
    pool_ s !! this = Some (mkPage pt n) →
    pool_ s !! brother_page = Some (mkPage pb b) →
    0 ≤ mid → mid ≤ i0 →
    ∃ a',
      for_ (seqZ i0 (Z.of_nat len)) (Leaf_Split_body this brother_page mid) s
      = Some (tt, set_pool
                    (<[this := mkPage pt (SetSize (size_ n - Z.of_nat len) n)]>
                       (<[brother_page :=
                            mkPage pb (SetSize (size_ b + Z.of_nat len)
                                               (set_array a' b))]> (pool_ s))) s) ∧
      ∀ x, 0 ≤ x →
        slot a' x = if decide (i0 - mid ≤ x < i0 - mid + Z.of_nat len)
                    then slot (array_ n) (x + mid) else slot (array_ b) x.
Proof.
  intros Hne len. induction len as [|len IH]; intros i0 s pt n pb b Hn Hb Hmid Hi0.
  - exists (array_ b). split.
    + simpl. unfold ret. do 2 f_equal.
      replace (SetSize (size_ n - Z.of_nat 0) n) with n
        by (destruct n; unfold SetSize; simpl; f_equal; lia).
      replace (SetSize (size_ b + Z.of_nat 0) (set_array (array_ b) b)) with b
        by (destruct b; unfold SetSize, set_array; simpl; f_equal; lia).
      rewrite (insert_id (pool_ s) brother_page) by done.
      rewrite (insert_id (pool_ s) this) by done. by destruct s.
    + intros x Hx. by rewrite decide_False by lia.
  - replace (Z.of_nat (S len)) with (Z.succ (Z.of_nat len)) by lia.
    rewrite seqZ_cons by lia.
    replace (Z.pred (Z.succ (Z.of_nat len))) with (Z.of_nat len) by lia.
    destruct (store_slot (array_ b) (i0 - mid) (slot (array_ n) i0))
      as (a1 & Ha1 & Hs1); [lia|].
    set (n1 := IncreaseSize (-1) n).
    set (b1 := IncreaseSize 1 (set_array a1 b)).
    set (s1 := set_pool
                 (<[brother_page := mkPage pb b1]>
                    (<[this := mkPage pt n1]>
                       (<[brother_page := mkPage pb (set_array a1 b)]> (pool_ s)))) s).
    destruct (IH (Z.succ i0) s1 pt n1 pb b1) as (a' & Hloop & Hs');
      [by destruct s; simpl;
          rewrite lookup_insert_ne, lookup_insert_eq by done
      |by destruct s; simpl; rewrite lookup_insert_eq
      |done|lia|].
    exists a'. split.
    + rewrite (for__cons _ _ _ s s1)
        by (by apply (Leaf_Split_body_spec this brother_page mid i0 s pt n pb b a1);
            try lia).
      rewrite Hloop. do 2 f_equal.
      destruct s as [root lmax imax pool next tr]. unfold set_pool. simpl.
      f_equal. rewrite split_pool by done. f_equal.
      * f_equal. subst n1. destruct n. unfold SetSize, IncreaseSize, SetSize.
        simpl. f_equal. lia.
      * f_equal. f_equal. subst b1. destruct b.
        unfold SetSize, IncreaseSize, SetSize, set_array. simpl. f_equal. lia.
    + intros x Hx. rewrite Hs' by done. subst n1 b1. simpl.
      rewrite Hs1 by done.
      repeat case_decide; try lia; try done. f_equal. lia.
Qed.

Lemma bind_Some {A B : Type} (m : M A) (k : A → M B) (s s1 : t) (a : A) :
  m s = Some (a, s1) → bind m k s = k a s1.
Proof. intros Hm. unfold bind. by rewrite Hm. Qed.

Lemma get_node_Some (s : t) page pin n :
  pool_ s !! page = Some (mkPage pin n) → get_node page s = Some (n, s).
Proof. intros Hp. unfold get_node. by rewrite Hp. Qed.

Lemma update'_Some (s : t) page pin n f :
  pool_ s !! page = Some (mkPage pin n) →
  update' page f s
  = Some (tt, set_pool (<[page := mkPage pin (f n)]> (pool_ s)) s).
Proof. intros Hp. unfold update', update. by rewrite Hp. Qed.

Lemma split_pool_end (pool : gmap Z Page) this brother x y n1 b1 :
  this ≠ brother →
  <[this := x]> (<[brother := y]> (<[this := n1]> (<[brother := b1]> pool)))
  = <[this := x]> (<[brother := y]> pool).
Proof.
  intros Hne. apply map_eq. intros k.
  destruct (decide (k = this)) as [->|]; [by rewrite !lookup_insert_eq|].
  rewrite !(lookup_insert_ne _ this) by done.
  destruct (decide (k = brother)) as [->|]; [by rewrite !lookup_insert_eq|].
  by rewrite !lookup_insert_ne by done.
Qed.

(** X24. [Split] of a leaf page that is full (its size is its maximal size),
    into a new page of size 0: no entry is lost, none is doubled.  The page
    keeps its first [size / 2] entries, the new page gets the others in
    their order, and the new page comes behind the page in the chain of the
    leaves: it gets the next page of the page, and the page gets the new
    page as its next page.  The pin counts stay. *)
Theorem leaf_split_spec (s : t) (this brother_page : Z) (pt pb : Z)
    (n b : BPlusTreePage) :
  this ≠ brother_page →
  pool_ s !! this = Some (mkPage pt n) →
  pool_ s !! brother_page = Some (mkPage pb b) →
  0 ≤ size_ n → size_ n = max_size_ n → size_ b = 0 →
  ∃ n' b',
    Leaf_Split this brother_page s
    = Some (tt, set_pool (<[this := mkPage pt n']>
                            (<[brother_page := mkPage pb b']> (pool_ s))) s) ∧
    size_ n' = size_ n ÷ 2 ∧
    size_ b' = size_ n - size_ n ÷ 2 ∧
    entries n' = take (Z.to_nat (size_ n ÷ 2)) (entries n) ∧
    entries b' = drop (Z.to_nat (size_ n ÷ 2)) (entries n) ∧
    entries n' ++ entries b' = entries n ∧
    next_page_id_ n' = brother_page ∧
    next_page_id_ b' = next_page_id_ n.
Proof.
  intros Hne Hn Hb Hsize Hfull Hempty.
  assert (Hmid : 0 ≤ size_ n ÷ 2 ≤ size_ n).
  { rewrite Z.quot_div_nonneg by lia.
    split; [apply Z.div_pos; lia|apply Z.div_le_upper_bound; lia]. }
  set (mid := size_ n ÷ 2) in *.
  destruct (Leaf_Split_loop this brother_page mid Hne
              (Z.to_nat (size_ n - mid)) mid s pt n pb b)
    as (a' & Hloop & Hs); [done|done|lia|lia|].
  rewrite Z2Nat.id in Hloop, Hs by lia.
  set (n' := SetNextPageId brother_page (SetSize (size_ n - (size_ n - mid)) n)).
  set (b' := SetNextPageId (next_page_id_ n)
               (SetSize (size_ b + (size_ n - mid)) (set_array a' b))).
  assert (Hentries_n : entries n' = take (Z.to_nat mid) (entries n)).
  { apply entries_eq.
    - rewrite length_take, entries_length. subst n'. simpl. lia.
    - subst n'. simpl. intros j Hj. rewrite lookup_take_lt by lia.
      apply entries_lookup. lia. }
  assert (Hentries_b : entries b' = drop (Z.to_nat mid) (entries n)).
  { apply entries_eq.
    - rewrite length_drop, entries_length. subst b'. simpl. lia.
    - subst b'. simpl. intros j Hj. rewrite lookup_drop.
      rewrite entries_lookup by lia. rewrite Hs by lia.
      rewrite decide_True by lia. f_equal. f_equal. lia. }
  exists n', b'. split_and!.
  - change (Leaf_Split this brother_page s) with
      (bind (get_node this) (λ n,
         bind (for_ (seqZ (size_ n ÷ 2) (max_size_ n - size_ n ÷ 2))
                    (Leaf_Split_body this brother_page (size_ n ÷ 2))) (λ _,
         bind (get_node this) (λ n,
         bind (update' brother_page (SetNextPageId (next_page_id_ n))) (λ _,
              update' this (SetNextPageId brother_page))))) s).
    rewrite (bind_Some _ _ s s n) by (by apply (get_node_Some s this pt)).
    fold mid. rewrite <-Hfull.
    rewrite (bind_Some _ _ _ _ _ Hloop).
    erewrite bind_Some;
      [|apply (get_node_Some _ this pt); destruct s; simpl;
        by rewrite lookup_insert_eq].
    erewrite bind_Some;
      [|apply (update'_Some _ brother_page pb); destruct s; simpl;
        rewrite lookup_insert_ne by done; by rewrite lookup_insert_eq].
    erewrite update'_Some;
      [|destruct s; simpl; rewrite lookup_insert_ne by done;
        by rewrite lookup_insert_eq].
    do 2 f_equal. destruct s as [root lmax imax pool next tr].
    unfold set_pool. simpl. f_equal.
    by rewrite split_pool_end.
  - subst n'. simpl. lia.
  - subst b'. simpl. lia.
  - done.
  - done.
  - by rewrite Hentries_n, Hentries_b, take_drop.
  - done.
  - done.
Qed.

(** The leaf with the keys 1, 3 and 5 is the page 0; the page 1 is a new
    leaf. *)
Definition tree_split : t :=
  mk 0 3 3
     (<[ 0 := mkPage 1 (mkNode LEAF_PAGE 3 3 INVALID_PAGE_ID 0 INVALID_PAGE_ID
                               [(1, 10); (3, 30); (5, 50)]) ]>
      (<[ 1 := mkPage 1 (Leaf_Init 1 INVALID_PAGE_ID 3 zero_node) ]> ∅))
     2 (Some [0]).

Lemma leaf_split_spec_witness :
  ∃ n' b' s',
    Leaf_Split 0 1 tree_split = Some (tt, s') ∧
    pool_ s' !! 0 = Some (mkPage 1 n') ∧
    pool_ s' !! 1 = Some (mkPage 1 b') ∧
    entries n' = [(1, 10)] ∧
    entries b' = [(3, 30); (5, 50)] ∧
    next_page_id_ n' = 1.
Proof.
  destruct (leaf_split_spec tree_split 0 1 1 1
              (mkNode LEAF_PAGE 3 3 INVALID_PAGE_ID 0 INVALID_PAGE_ID
                      [(1, 10); (3, 30); (5, 50)])
              (Leaf_Init 1 INVALID_PAGE_ID 3 zero_node))
    as (n' & b' & Hsplit & _ & _ & Hn' & Hb' & _ & Hnext & _); try done.
  exists n', b'. eexists. split; [exact Hsplit|]. simpl.
  rewrite lookup_insert_eq, lookup_insert_ne, lookup_insert_eq by done.
  by split_and!.
Defined.

(** ** The merge of two leaf pages *)

(** The body of the loop of [Merge]; [size] is the size of the page at the
    start of the loop. *)
Definition Leaf_Merge_body (this right_page size : Z) (j : Z) : M unit :=
  let* right := get_node right_page in
  let* k := lift (KeyAt right j) in
  let* v := lift (ValueAt right j) in
  update this (λ m, a ← store (array_ m) (size + j) (k, v);
                    Some (set_array a m)) >>
  update' this (IncreaseSize 1).

Lemma Leaf_Merge_body_spec (this right_page size j : Z) (s : t) pt m pr r a1 :
  this ≠ right_page →
  pool_ s !! this = Some (mkPage pt m) →
  pool_ s !! right_page = Some (mkPage pr r) →
  0 ≤ j →
  store (array_ m) (size + j) (slot (array_ r) j) = Some a1 →
  Leaf_Merge_body this right_page size j s
  = Some (tt, set_pool
                (<[this := mkPage pt (IncreaseSize 1 (set_array a1 m))]> (pool_ s)) s).
Proof.
  intros Hne Hm Hr Hj Ha1.
  unfold Leaf_Merge_body, bind, get_node, lift, update', update, KeyAt, ValueAt.
  rewrite Hr. simpl. rewrite entry_slot by done. simpl. rewrite Hm. simpl.
  rewrite <-surjective_pairing, Ha1. simpl.
  rewrite lookup_insert_eq. simpl. rewrite insert_insert_eq.
  by destruct s.
Qed.

Lemma Leaf_Merge_loop (this right_page size : Z) pr r :
  this ≠ right_page → 0 ≤ size →
  ∀ (len : nat) (j0 : Z) (s : t) pt m,
    pool_ s !! this = Some (mkPage pt m) →
    pool_ s !! right_page = Some (mkPage pr r) →
    0 ≤ j0 →
    ∃ a',
      for_ (seqZ j0 (Z.of_nat len)) (Leaf_Merge_body this right_page size) s
      = Some (tt, set_pool
                    (<[this := mkPage pt (SetSize (size_ m + Z.of_nat len)
                                                  (set_array a' m))]> (pool_ s)) s) ∧
      ∀ x, 0 ≤ x →
        slot a' x = if decide (size + j0 ≤ x < size + j0 + Z.of_nat len)
                    then slot (array_ r) (x - size) else slot (array_ m) x.
Proof.
  intros Hne Hsize len. induction len as [|len IH]; intros j0 s pt m Hm Hr Hj0.
  - exists (array_ m). split.
    + simpl. unfold ret. do 2 f_equal.
      replace (SetSize (size_ m + Z.of_nat 0) (set_array (array_ m) m)) with m
        by (destruct m; unfold SetSize, set_array; simpl; f_equal; lia).
      rewrite (insert_id (pool_ s) this) by done. by destruct s.
    + intros x Hx. by rewrite decide_False by lia.
  - replace (Z.of_nat (S len)) with (Z.succ (Z.of_nat len)) by lia.
    rewrite seqZ_cons by lia.
    replace (Z.pred (Z.succ (Z.of_nat len))) with (Z.of_nat len) by lia.
    destruct (store_slot (array_ m) (size + j0) (slot (array_ r) j0))
      as (a1 & Ha1 & Hs1); [lia|].
    set (m1 := IncreaseSize 1 (set_array a1 m)).
    set (s1 := set_pool (<[this := mkPage pt m1]> (pool_ s)) s).
    destruct (IH (Z.succ j0) s1 pt m1) as (a' & Hloop & Hs');
      [by destruct s; simpl; rewrite lookup_insert_eq
      |by destruct s; simpl; rewrite lookup_insert_ne
      |lia|].
    exists a'. split.
    + rewrite (for__cons _ _ _ s s1)
        by (by apply (Leaf_Merge_body_spec this right_page size j0 s pt m pr r a1)).
      rewrite Hloop. do 2 f_equal.
      destruct s as [root lmax imax pool next tr]. unfold set_pool. simpl.
      f_equal. rewrite insert_insert_eq. f_equal. f_equal.
      subst m1. destruct m.
      unfold SetSize, IncreaseSize, SetSize, set_array. simpl. f_equal. lia.
    + intros x Hx. rewrite Hs' by done. subst m1. simpl.
      rewrite Hs1 by done.
      repeat case_decide; try lia; try done. f_equal. lia.
Qed.

(** X25. [Merge] of a leaf page with the page to its right: the page gets the
    entries of the right page behind its own, in their order, and its size
    is the sum of the two sizes; its next page id is not changed by [Merge].
    The right page is unpinned once and deleted: it leaves the pool unless
    someone else has it pinned, in which case it stays, with size 0. *)
Theorem leaf_merge_spec (s : t) (this right_page : Z) (pt pr : Z)
    (n r : BPlusTreePage) :
  this ≠ right_page →
  right_page ≠ INVALID_PAGE_ID →
  pool_ s !! this = Some (mkPage pt n) →
  pool_ s !! right_page = Some (mkPage pr r) →
  0 ≤ size_ n → 0 ≤ size_ r →
  ∃ n' s',
    Leaf_Merge this right_page s = Some (tt, s') ∧
    pool_ s' !! this = Some (mkPage pt n') ∧
    entries n' = entries n ++ entries r ∧
    size_ n' = size_ n + size_ r ∧
    next_page_id_ n' = next_page_id_ n ∧
    pool_ s' !! right_page
    = (if pr <=? 1 then None else Some (mkPage (pr - 1) (SetSize 0 r))) ∧
    ∀ page, page ≠ this → page ≠ right_page →
            pool_ s' !! page = pool_ s !! page.
Proof.
  intros Hne Hright Hn Hr Hsize_n Hsize_r.
  destruct (Leaf_Merge_loop this right_page (size_ n) pr r Hne Hsize_n
              (Z.to_nat (size_ r)) 0 s pt n)
    as (a' & Hloop & Hs); [done|done|lia|].
  rewrite Z2Nat.id in Hloop, Hs by lia.
  set (n' := SetSize (size_ n + size_ r) (set_array a' n)) in *.
  set (pool1 := <[right_page := mkPage pr (SetSize 0 r)]>
                  (<[this := mkPage pt n']> (pool_ s))).
  set (pool2 := if pr <=? 1 then delete right_page pool1
                else <[right_page := mkPage (pr - 1) (SetSize 0 r)]> pool1).
  assert (Hrun : Leaf_Merge this right_page s = Some (tt, set_pool pool2 s)).
  { unfold Leaf_Merge. rewrite decide_False by done.
    change (Some (tt, set_pool pool2 s)) with (ret tt (set_pool pool2 s)).
    rewrite (bind_Some _ _ s s n) by (by apply (get_node_Some s this pt)).
    rewrite (bind_Some _ _ s s r) by (by apply (get_node_Some s right_page pr)).
    change (for_ (seqZ 0 (size_ r)) _) with
      (for_ (seqZ 0 (size_ r)) (Leaf_Merge_body this right_page (size_ n))).
    rewrite (bind_Some _ _ _ _ _ Hloop).
    erewrite bind_Some;
      [|apply (update'_Some _ right_page pr r); destruct s; simpl;
        by rewrite lookup_insert_ne].
    destruct s as [root lmax imax pool next tr]. simpl in *.
    unfold bind, UnpinPage, DeletePage, set_pool. simpl.
    rewrite lookup_insert_eq.
    rewrite (proj2 (Z.eqb_neq _ _)) by done.
    subst pool2 pool1. simpl.
    destruct (pr <=? 0) eqn:E0.
    - rewrite (proj2 (Z.leb_le pr 1)) by lia. simpl.
      rewrite lookup_insert_eq. simpl.
      by rewrite (proj2 (Z.ltb_ge _ _)) by lia.
    - simpl. rewrite lookup_insert_eq. simpl. rewrite insert_insert_eq.
      destruct (pr <=? 1) eqn:E1.
      + rewrite (proj2 (Z.ltb_ge _ _)) by lia. simpl.
        by rewrite !delete_insert_eq.
      + by rewrite (proj2 (Z.ltb_lt _ _)) by lia. }
  exists n', (set_pool pool2 s). split; [done|].
  assert (Hpool2 : ∀ page, page ≠ right_page → pool2 !! page = pool1 !! page).
  { intros page Hpage. subst pool2. destruct (pr <=? 1).
    - by rewrite lookup_delete_ne.
    - by rewrite lookup_insert_ne. }
  split_and!.
  - destruct s. simpl. rewrite Hpool2 by done. subst pool1.
    rewrite lookup_insert_ne by done. by rewrite lookup_insert_eq.
  - apply entries_eq.
    + rewrite length_app, !entries_length. subst n'. simpl. lia.
    + subst n'. simpl. intros j Hj. rewrite Hs by lia.
      destruct (decide (Z.of_nat j < size_ n)) as [Hlt|Hge].
      * rewrite decide_False by lia.
        rewrite lookup_app_l by (rewrite entries_length; lia).
        apply entries_lookup. lia.
      * rewrite decide_True by lia.
        rewrite lookup_app_r by (rewrite entries_length; lia).
        rewrite entries_length, entries_lookup by lia.
        f_equal. f_equal. lia.
  - done.
  - done.
  - destruct s. simpl. subst pool2. destruct (pr <=? 1).
    + by rewrite lookup_delete_eq.
    + by rewrite lookup_insert_eq.
  - intros page Hp1 Hp2. destruct s. simpl. rewrite Hpool2 by done.
    subst pool1. by rewrite !lookup_insert_ne by done.
Qed.

(** The leaf with the key 1 is the page 0, the leaf with the keys 3 and 5
    the page 1, pinned once. *)
Definition tree_merge : t :=
  mk 2 3 3
     (<[ 0 := mkPage 1 (mkNode LEAF_PAGE 1 3 2 0 1 [(1, 10)]) ]>
      (<[ 1 := mkPage 1 (mkNode LEAF_PAGE 2 3 2 1 INVALID_PAGE_ID
                                [(3, 30); (5, 50)]) ]> ∅))
     3 (Some [0]).

Lemma leaf_merge_spec_witness :
  ∃ n' s',
    Leaf_Merge 0 1 tree_merge = Some (tt, s') ∧
    pool_ s' !! 0 = Some (mkPage 1 n') ∧
    entries n' = [(1, 10); (3, 30); (5, 50)] ∧
    pool_ s' !! 1 = None.
Proof.
  destruct (leaf_merge_spec tree_merge 0 1 1 1
              (mkNode LEAF_PAGE 1 3 2 0 1 [(1, 10)])
              (mkNode LEAF_PAGE 2 3 2 1 INVALID_PAGE_ID [(3, 30); (5, 50)]))
    as (n' & s' & Hmerge & Hn' & Hentries & _ & _ & Hgone & _);
    [done|done|done|done|done|done|].
  exists n', s'. by split_and!.
Defined.

(** ** The entries that a redistribution moves *)

#[local] Arguments store : simpl never.
#[local] Arguments entry : simpl never.

Lemma SetValueAt_slot i value n :
  0 ≤ i →
  ∃ a', SetValueAt i value n = Some (set_array a' n) ∧
        ∀ j, 0 ≤ j → slot a' j = if decide (j = i) then ((slot (array_ n) i).1, value)
                                  else slot (array_ n) j.
Proof.
  intros Hi. unfold SetValueAt. rewrite entry_slot by done. simpl.
  destruct (store_slot (array_ n) i ((slot (array_ n) i).1, value))
    as (a' & -> & Hs); [done|].
  exists a'. by split.
Qed.

Lemma SetKeyAt_slot i key n :
  0 ≤ i →
  ∃ a', SetKeyAt i key n = Some (set_array a' n) ∧
        ∀ j, 0 ≤ j → slot a' j = if decide (j = i) then (key, (slot (array_ n) i).2)
                                  else slot (array_ n) j.
Proof.
  intros Hi. unfold SetKeyAt. rewrite entry_slot by done. simpl.
  destruct (store_slot (array_ n) i (key, (slot (array_ n) i).2))
    as (a' & -> & Hs); [done|].
  exists a'. by split.
Qed.

(** X26. The functions by which a redistribution moves one entry between a
    page and its brother.  On a leaf page, [InsertFirst] puts the entry in
    front of the entries of the page and [InsertLast] behind them.  On an
    internal page with at least one child, [DeleteFirst] drops the first
    entry, and [InsertFirst(key, value)] makes [value] the first child and
    gives [key] to the child that was the first: the entries are
    [(k0, value); (key, v0)] and then the entries behind the first, [(k0, v0)]
    being the first entry before the call. *)
Theorem redistribution_moves (n : BPlusTreePage) (key value : Z) :
  0 ≤ size_ n →
  (∃ n', Leaf_InsertFirst key value n = Some n' ∧
         size_ n' = size_ n + 1 ∧
         entries n' = (key, value) :: entries n) ∧
  (∃ n', Leaf_InsertLast key value n = Some n' ∧
         size_ n' = size_ n + 1 ∧
         entries n' = entries n ++ [(key, value)]) ∧
  (1 ≤ size_ n →
   ∃ n', Internal_DeleteFirst n = Some n' ∧
         size_ n' = size_ n - 1 ∧
         entries n' = drop 1 (entries n)) ∧
  (1 ≤ size_ n →
   ∃ n', Internal_InsertFirst key value n = Some n' ∧
         size_ n' = size_ n + 1 ∧
         entries n' = ((slot (array_ n) 0).1, value)
                      :: (key, (slot (array_ n) 0).2)
                      :: drop 1 (entries n)).
Proof.
  intros Hsize. split_and!.
  - unfold Leaf_InsertFirst.
    destruct (shift_up_slot (array_ n) 0 (Z.to_nat (size_ n))) as (a1 & Ha1 & Hs1);
      [done|].
    rewrite Z.add_0_l, Z2Nat.id in Ha1, Hs1 by done. rewrite Ha1. cbn [mbind option_bind].
    destruct (store_slot a1 0 (key, value)) as (a2 & -> & Hs2); [done|]. simpl.
    eexists. split; [done|]. split; [done|].
    apply entries_eq; simpl.
    + rewrite entries_length. lia.
    + intros j Hj. rewrite Hs2, Hs1 by lia.
      destruct j as [|j]; simpl; [done|].
      repeat case_decide; try lia.
      rewrite entries_lookup by lia. f_equal. f_equal. lia.
  - unfold Leaf_InsertLast.
    destruct (store_slot (array_ n) (size_ n) (key, value)) as (a1 & -> & Hs1);
      [done|]. simpl.
    eexists. split; [done|]. split; [done|].
    apply entries_eq; simpl.
    + rewrite length_app, entries_length. simpl. lia.
    + intros j Hj. rewrite Hs1 by lia.
      destruct (decide (Z.of_nat j = size_ n)) as [Heq|Hne'].
      * rewrite lookup_app_r by (rewrite entries_length; lia).
        rewrite entries_length.
        by replace (j - Z.to_nat (size_ n))%nat with 0%nat by lia.
      * rewrite lookup_app_l by (rewrite entries_length; lia).
        apply entries_lookup. lia.
  - intros Hone. unfold Internal_DeleteFirst.
    destruct (shift_down_slot (array_ n) 1 (Z.to_nat (size_ n - 1)))
      as (a1 & Ha1 & Hs1); [done|].
    replace (1 + Z.of_nat (Z.to_nat (size_ n - 1))) with (size_ n) in Ha1 by lia.
    rewrite Ha1. cbn [mbind option_bind].
    eexists. split; [done|]. split; [done|].
    apply entries_eq; simpl.
    + rewrite length_drop, entries_length. lia.
    + intros j Hj. rewrite Hs1 by lia. rewrite decide_True by lia.
      rewrite lookup_drop. rewrite entries_lookup by lia.
      f_equal. f_equal. lia.
  - intros Hone. unfold Internal_InsertFirst.
    destruct (shift_up_slot (array_ n) 0 (Z.to_nat (size_ n))) as (a1 & Ha1 & Hs1);
      [done|].
    rewrite Z.add_0_l, Z2Nat.id in Ha1, Hs1 by done. rewrite Ha1. cbn [mbind option_bind].
    destruct (SetValueAt_slot 0 value (set_array a1 n)) as (a2 & -> & Hs2); [done|].
    cbn [mbind option_bind].
    destruct (SetKeyAt_slot 1 key (set_array a2 (set_array a1 n)))
      as (a3 & -> & Hs3); [done|].
    cbn [mbind option_bind]. simpl in Hs2, Hs3.
    eexists. split; [done|]. split; [done|].
    apply entries_eq; simpl.
    + rewrite length_drop, entries_length. lia.
    + intros j Hj. rewrite Hs3 by lia. rewrite !Hs2 by lia. rewrite !Hs1 by lia.
      destruct j as [|[|j]]; simpl.
      * done.
      * by rewrite decide_True by lia.
      * repeat case_decide; try lia.
        rewrite lookup_drop. rewrite entries_lookup by lia.
        f_equal. f_equal. lia.
Qed.

Lemma redistribution_moves_witness :
  (entries <$> Leaf_InsertFirst 0 5 leaf_135)
  = Some [(0, 5); (1, 10); (3, 30); (5, 50)] ∧
  (entries <$> Internal_InsertFirst 2 6 internal_35)
  = Some [(0, 6); (2, 7); (3, 8); (5, 9)].
Proof.
  destruct (redistribution_moves leaf_135 0 5) as [Hfirst _]; [done|].
  destruct (redistribution_moves internal_35 2 6) as (_ & _ & _ & Hinternal);
    [done|].
  destruct Hfirst as (n1 & -> & _ & Hn1).
  destruct Hinternal as (n2 & -> & _ & Hn2); [done|].
  simpl. by rewrite Hn1, Hn2.
Defined.

End BPTProps.
